(** * Lattice determinization (fstext/determinize-lattice-inl.h)

    A shallow embedding of [LatticeStringRepository] and
    [LatticeDeterminizer], with the properties of the determinizer stated
    and proved over it.

    Conventions of the embedding.
    - [StateId] and [Label] are [Z]; [kNoStateId] is [-1]; label [0] is
      epsilon.
    - A [StringId] (an [Entry*]) is a handle into the repository's arena;
      [0] is [NULL].
    - A computation ends in one of four ways: it returns ([Done]), an
      [assert] fails ([Aborted]), it reads an object that has been deleted
      ([Undef]), or the loop budget of the model is used up ([OutOfFuel]).
    - The header does not compile as it stands (some identifiers do not
      resolve); every place where a reading had to be chosen is marked
      with "Reading:". *)

From stdpp Require Import base numbers option list sorting relations.

Set Default Proof Using "Type".

(** ** Outcomes of a computation *)

Inductive res (A : Type) : Type :=
  | Done (a : A)
  | Aborted
  | Undef
  | OutOfFuel.
Arguments Done {A} a.
Arguments Aborted {A}.
Arguments Undef {A}.
Arguments OutOfFuel {A}.

Global Instance res_ret : MRet res := fun A a => Done a.
Global Instance res_bind : MBind res := fun A B f m =>
  match m with
  | Done a => f a
  | Aborted => Aborted
  | Undef => Undef
  | OutOfFuel => OutOfFuel
  end.

(** [assert(b)] *)
Definition assert (b : bool) : res unit := if b then Done tt else Aborted.

(** Reading through a pointer that may dangle. *)
Definition deref {A} (o : option A) : res A :=
  match o with Some a => Done a | None => Undef end.

Definition is_done {A} (m : res A) : Prop := ∃ a, m = Done a.

(** ** The weight type

    [Weight] is a template parameter.  The determinizer uses the semiring
    operations, [operator !=], the three-way [Compare] on weights, and
    [ApproxEqual] at the determinizer's [delta_].  [Weight()] is the value
    of a default-constructed weight, which the header reads in
    [ProcessFinal] and [ProcessTransition]; the weight type decides it. *)

Class WeightOps (W : Type) := {
  Plus : W → W → W;
  Times : W → W → W;
  Divide : W → W → W;          (* Divide(a, b, DIVIDE_LEFT) *)
  Zero : W;
  One : W;
  Compare : W → W → Z;         (* -1, 0 or 1 *)
  ApproxEqual : W → W → bool;  (* ApproxEqual(a, b, delta_) *)
  DefaultWeight : W;           (* Weight() *)
  Weight_eq_dec :: EqDecision W
}.

Abbreviation Label := Z.
Abbreviation StateId := Z.
Definition kNoStateId : StateId := (-1)%Z.

(** ** LatticeStringRepository *)

Module LatticeStringRepository.

Abbreviation StringId := nat.

(** [struct Entry { const Entry *parent; IntType i; }] *)
Record Entry := mkEntry { parent : StringId; i : Z }.

Global Instance Entry_eq_dec : EqDecision Entry.
Proof. solve_decision. Defined.

(** The entries that are alive, newest first.  The entry allocated when
    [n] entries were alive has handle [S n]; [set_] holds exactly the
    alive entries, so looking an entry up in [set_] is a search through
    this list. *)
Definition Repo := list Entry.

Definition EmptyString : StringId := 0.

(** [set_.find(&entry)]: the handle of an alive entry equal to
    [(parent, i)]. *)
Fixpoint find (r : Repo) (e : Entry) : option StringId :=
  match r with
  | [] => None
  | e' :: tl => if decide (e' = e) then Some (S (length tl)) else find tl e
  end.

Definition Successor (r : Repo) (parent : StringId) (i : Z)
  : StringId * Repo :=
  let entry := mkEntry parent i in
  match find r entry with
  | None => (S (length r), entry :: r)
  | Some h => (h, r)
  end.

(** [ConvertToVector] walks the parent pointers.  [None]: the walk
    reaches a handle with no alive entry. *)
Fixpoint ConvertToVector (r : Repo) (entry : StringId) : option (list Z) :=
  match entry with
  | 0 => Some []
  | _ =>
    match r with
    | [] => None
    | e :: tl =>
        if decide (entry = S (length tl))
        then out ← ConvertToVector tl (parent e); Some (out ++ [i e])
        else ConvertToVector tl entry
    end
  end.

(** The loop [for (...) ans = Successor(ans, v[i])]. *)
Fixpoint Successors (r : Repo) (ans : StringId) (v : list Z)
  : StringId * Repo :=
  match v with
  | [] => (ans, r)
  | x :: v' => let '(ans', r') := Successor r ans x in Successors r' ans' v'
  end.

Definition ConvertFromVector (r : Repo) (vec : list Z) : StringId * Repo :=
  Successors r EmptyString vec.

Definition Concatenate (r : Repo) (a b : StringId) : res (StringId * Repo) :=
  if decide (a = 0) then Done (b, r)
  else if decide (b = 0) then Done (a, r)
  else v ← deref (ConvertToVector r b); Done (Successors r a v).

(** The common prefix of two vectors, as the loops of [CommonPrefix] and
    [ReduceToCommonPrefix] compute it: elements are kept while both
    vectors have one and they agree. *)
Fixpoint common_prefix (a b : list Z) : list Z :=
  match a, b with
  | x :: a', y :: b' => if decide (x = y) then x :: common_prefix a' b' else []
  | _, _ => []
  end.

Definition CommonPrefix (r : Repo) (a b : StringId) : res (StringId * Repo) :=
  a_vec ← deref (ConvertToVector r a);
  b_vec ← deref (ConvertToVector r b);
  Done (Successors r EmptyString (common_prefix a_vec b_vec)).

(** [b] is first cut to the length of [a_vec], then to the first [b_sz]
    elements, [b_sz] counting the leading positions where the two
    agree. *)
Definition ReduceToCommonPrefix (r : Repo) (a : StringId) (b : list Z)
  : res (list Z) :=
  a_vec ← deref (ConvertToVector r a);
  let b1 := if decide (length a_vec < length b) then take (length a_vec) b else b in
  let b_sz := length (common_prefix b1 a_vec) in
  Done (if decide (b_sz = length b1) then b1 else take b_sz b1).

Definition RemovePrefix (r : Repo) (a : StringId) (n : nat)
  : res (StringId * Repo) :=
  if decide (n = 0) then Done (a, r)
  else
    a_vec ← deref (ConvertToVector r a);
    _ ← assert (bool_decide (n ≤ length a_vec));
    Done (Successors r EmptyString (drop n a_vec)).

(** [IsPrefixOf(a, b)] walks the parent pointers of [b] until it meets
    [a] or [NULL]; the walk reads the entries it passes. *)
Fixpoint IsPrefixOf (r : Repo) (a b : StringId) : res bool :=
  if decide (a = 0) then Done true
  else if decide (a = b) then Done true
  else if decide (b = 0) then Done false
  else
    match r with
    | [] => Undef
    | e :: tl =>
        if decide (b = S (length tl)) then IsPrefixOf tl a (parent e)
        else IsPrefixOf tl a b
    end.

(** [Destroy] deletes every entry. *)
Definition Destroy (r : Repo) : Repo := [].

(** The repositories that arise: no entry is stored twice, and the
    parent of an entry was allocated before it. *)
Inductive repo_wf : Repo → Prop :=
  | repo_wf_nil : repo_wf []
  | repo_wf_cons e r :
      repo_wf r → parent e ≤ length r → e ∉ r → repo_wf (e :: r).

(** A handle is alive when it is [NULL] or names an entry. *)
Definition alive (r : Repo) (h : StringId) : Prop := h ≤ length r.

End LatticeStringRepository.

Import LatticeStringRepository.

(** ** The FST interface the determinizer uses

    [ArcTpl], [Fst] and [MutableFst] belong to OpenFst.  An FST is a start
    state and a vector of states, each with a final weight and its arcs in
    order.  A state that is not in the vector reads as non-final and
    without arcs. *)

Module Arc.
Record t (A : Type) := mk {
  ilabel : Label;
  olabel : Label;
  weight : A;
  nextstate : StateId
}.
Arguments mk {A}.
Arguments ilabel {A}.
Arguments olabel {A}.
Arguments weight {A}.
Arguments nextstate {A}.
End Arc.

Module Fst.
Record State (A : Type) := mkState { final : A; arcs : list (Arc.t A) }.
Arguments mkState {A}.
Arguments final {A}.
Arguments arcs {A}.

Record t (A : Type) := mk { start : StateId; states : list (State A) }.
Arguments mk {A}.
Arguments start {A}.
Arguments states {A}.

Section Ops.
Context {A : Type} (zero : A).

Definition state_at (f : t A) (s : StateId) : option (State A) :=
  if decide (0 ≤ s)%Z then states f !! Z.to_nat s else None.

Definition Final (f : t A) (s : StateId) : A :=
  from_option final zero (state_at f s).

Definition Arcs (f : t A) (s : StateId) : list (Arc.t A) :=
  from_option arcs [] (state_at f s).

Definition NumStates (f : t A) : nat := length (states f).

(** [MutableFst] *)
Definition DeleteStates (f : t A) : t A := mk kNoStateId [].

Definition SetStart (f : t A) (s : StateId) : t A := mk s (states f).

Definition AddState (f : t A) : StateId * t A :=
  (Z.of_nat (length (states f)),
   mk (start f) (states f ++ [mkState zero []])).

Definition set_final (w : A) (st : State A) : State A :=
  mkState w (arcs st).

Definition push_arc (a : Arc.t A) (st : State A) : State A :=
  mkState (final st) (arcs st ++ [a]).

Definition SetFinal (f : t A) (s : StateId) (w : A) : t A :=
  mk (start f) (alter (set_final w) (Z.to_nat s) (states f)).

Definition AddArc (f : t A) (s : StateId) (a : Arc.t A) : t A :=
  mk (start f) (alter (push_arc a) (Z.to_nat s) (states f)).
End Ops.
End Fst.

(** ** LatticeDeterminizer *)

Module Element.
Record t (W : Type) := mk { state : StateId; string : StringId; weight : W }.
Arguments mk {W}.
Arguments state {W}.
Arguments string {W}.
Arguments weight {W}.
End Element.

Module TempArc.
Record t (W : Type) := mk {
  ilabel : Label;
  string : StringId;
  nextstate : StateId;   (* or kNoStateId for final weights *)
  weight : W
}.
Arguments mk {W}.
Arguments ilabel {W}.
Arguments string {W}.
Arguments nextstate {W}.
Arguments weight {W}.
End TempArc.

(** [enum OsymbolOrFinal] *)
Inductive OsymbolOrFinal := OSF_UNKNOWN | OSF_NO | OSF_YES.

Global Instance OsymbolOrFinal_eq_dec : EqDecision OsymbolOrFinal.
Proof. solve_decision. Defined.

(** The data members of [LatticeDeterminizer].  [ifst_] and its
    label-sortedness bit are read-only and passed separately.  The two hash
    tables own the subsets they are keyed by, so they are lists of
    (key, value), newest first; a lookup takes the first key that
    [SubsetEqual] accepts. *)
Record Det (W : Type) := mkDet {
  repository_ : Repo;
  output_states_ : list (list (Element.t W));
  output_arcs_ : list (list (TempArc.t W));
  minimal_hash_ : list (list (Element.t W) * StateId);
  initial_hash_ : list (list (Element.t W) * Element.t W);
  queue_ : list StateId;          (* back of the vector at the head *)
  osymbol_or_final_ : list OsymbolOrFinal
}.
Arguments mkDet {W}.
Arguments repository_ {W}.
Arguments output_states_ {W}.
Arguments output_arcs_ {W}.
Arguments minimal_hash_ {W}.
Arguments initial_hash_ {W}.
Arguments queue_ {W}.
Arguments osymbol_or_final_ {W}.


Section LatticeDeterminizer.
Context {W : Type} `{!WeightOps W}.

(** [ifst_], the bit [ifst_->Properties(kILabelSorted, false) &
    kILabelSorted], and the number of iterations the model grants each
    [while] loop whose trip count the code does not bound. *)
Variable ifst_ : Fst.t W.
Variable sorted : bool.
Variable fuel : nat.

(** What the uninitialised local [next_common_str] of [ProcessTransition]
    holds when nothing is written to it; the call is identified by its
    [state] and [ilabel]. *)
Variable uninitialized : StateId → Label → StringId.

Abbreviation Element := (Element.t W).
Abbreviation TempArc := (TempArc.t W).
Abbreviation Det := (Det W).

(** [class SubsetEqual]: exact match on state and string, approximate
    match on weight. *)
Fixpoint SubsetEqual (s1 s2 : list Element) : bool :=
  match s1, s2 with
  | [], [] => true
  | e1 :: s1', e2 :: s2' =>
      if bool_decide (Element.state e1 ≠ Element.state e2)
         || bool_decide (Element.string e1 ≠ Element.string e2)
         || negb (ApproxEqual (Element.weight e1) (Element.weight e2))
      then false
      else SubsetEqual s1' s2'
  | _, _ => false   (* sz != s2->size() *)
  end.

(** [class SubsetKey]: the hash of the states and strings of a subset,
    in [size_t] arithmetic, taken as 64 bits wide.  Reading: the pointer
    [iter->string] enters the sum as its address, which [address]
    gives. *)
Definition size_t (z : Z) : Z := (z `mod` 2 ^ 64)%Z.

Fixpoint SubsetKey_loop (address : StringId → Z) (hash factor : Z)
    (subset : list Element) : Z :=
  match subset with
  | [] => hash
  | e :: rest =>
      let hash := size_t (hash * factor) in
      let hash :=
        size_t (hash + size_t (Element.state e
                               + 103333 * address (Element.string e))) in
      SubsetKey_loop address hash (size_t (factor * 23531)) rest
  end.

Definition SubsetKey (address : StringId → Z) (subset : list Element) : Z :=
  SubsetKey_loop address 0 1 subset.

(** [class SubsetEqualStates]: the same states in the same order. *)
Fixpoint SubsetEqualStates (s1 s2 : list Element) : bool :=
  match s1, s2 with
  | [], [] => true
  | e1 :: s1', e2 :: s2' =>
      if bool_decide (Element.state e1 ≠ Element.state e2) then false
      else SubsetEqualStates s1' s2'
  | _, _ => false   (* sz != s2->size() *)
  end.

(** [hash.find(&subset)].  Reading: the keys are tried from the newest
    one on.  [SubsetEqual] can accept several stored keys for one subset
    (it compares weights with [ApproxEqual], which is not transitive);
    the hash table then returns the first of them in its bucket order,
    which need not be the newest.  What is stated below about a key that
    is found holds for every stored key that [SubsetEqual] accepts. *)
Fixpoint hash_find {V} (h : list (list Element * V)) (subset : list Element)
  : option V :=
  match h with
  | [] => None
  | (k, v) :: tl => if SubsetEqual k subset then Some v else hash_find tl subset
  end.

(** The loop at the end of the four-argument [Compare]; the two vectors
    have the same length.  Falling off the loop is [assert(0)]. *)
Fixpoint compare_vectors (a_vec b_vec : list Z) : res Z :=
  match a_vec, b_vec with
  | x :: a', y :: b' =>
      if decide (x < y)%Z then Done (-1)%Z
      else if decide (y < x)%Z then Done 1%Z
      else compare_vectors a' b'
  | _, _ => Aborted
  end.

(** [Compare(a_w, a_str, b_w, b_str)], the overload on (weight, string)
    pairs. *)
Definition ComparePair (r : Repo) (a_w : W) (a_str : StringId)
    (b_w : W) (b_str : StringId) : res Z :=
  let weight_comp := Compare a_w b_w in
  if decide (weight_comp ≠ 0%Z) then Done weight_comp
  else if decide (a_str = b_str) then Done 0%Z
  else
    a_vec ← deref (ConvertToVector r a_str);
    b_vec ← deref (ConvertToVector r b_str);
    if decide (length a_vec < length b_vec) then Done (-1)%Z
    else if decide (length b_vec < length a_vec) then Done 1%Z
    else compare_vectors a_vec b_vec.

(** *** EpsilonClosure *)

(** [cur_subset.insert(e)] on a [std::set] ordered by state: [None] when
    [e] went in, [Some x] when the element [x] with the same state was
    there already (then the set is unchanged). *)
Fixpoint set_insert (s : list Element) (e : Element)
  : list Element * option Element :=
  match s with
  | [] => ([e], None)
  | x :: tl =>
      if decide (Element.state e < Element.state x)%Z then (e :: s, None)
      else if decide (Element.state x < Element.state e)%Z then
        let '(tl', found) := set_insert tl e in (x :: tl', found)
      else (s, Some x)
  end.

(** [pr.first->string = ...; pr.first->weight = ...] on the element of
    the set with the state of [e]. *)
Fixpoint set_assign (s : list Element) (e : Element) : list Element :=
  match s with
  | [] => []
  | x :: tl =>
      if decide (Element.state x = Element.state e)
      then Element.mk (Element.state x) (Element.string e) (Element.weight e) :: tl
      else x :: set_assign tl e
  end.

(** The string of the element an arc leads to: the string of [elem],
    extended by the output label unless that is epsilon. *)
Definition next_string (r : Repo) (elem : Element) (arc : Arc.t W)
  : StringId * Repo :=
  if decide (Arc.olabel arc = 0%Z) then (Element.string elem, r)
  else Successor r (Element.string elem) (Arc.olabel arc).

(** The [for] loop over the arcs leaving [elem.state]. *)
Fixpoint closure_arcs (elem : Element) (arcs : list (Arc.t W))
    (r : Repo) (cur_subset queue : list Element)
  : res (Repo * list Element * list Element) :=
  match arcs with
  | [] => Done (r, cur_subset, queue)
  | arc :: rest =>
      if sorted && bool_decide (Arc.ilabel arc ≠ 0%Z)
      then Done (r, cur_subset, queue)                      (* break *)
      else if bool_decide (Arc.ilabel arc = 0%Z)
              && bool_decide (Arc.weight arc ≠ Zero)
      then
        let '(str, r') := next_string r elem arc in
        let next_elem :=
          Element.mk (Arc.nextstate arc) str
                     (Times (Element.weight elem) (Arc.weight arc)) in
        match set_insert cur_subset next_elem with
        | (cur', None) => closure_arcs elem rest r' cur' (next_elem :: queue)
        | (_, Some x) =>
            comp ← ComparePair r' (Element.weight next_elem)
                     (Element.string next_elem)
                     (Element.weight x) (Element.string x);
            if decide (comp = 1%Z)
            then closure_arcs elem rest r' (set_assign cur_subset next_elem)
                              (next_elem :: queue)
            else closure_arcs elem rest r' cur_subset queue
        end
      else closure_arcs elem rest r cur_subset queue
  end.

(** [while (queue.size() != 0)]; the back of [queue] is the head of the
    list. *)
Fixpoint closure_loop (n : nat) (r : Repo) (cur_subset queue : list Element)
  : res (Repo * list Element) :=
  match queue with
  | [] => Done (r, cur_subset)
  | elem :: queue' =>
      match n with
      | 0 => OutOfFuel
      | S n' =>
          '(r', cur', queue'') ←
            closure_arcs elem (Fst.Arcs ifst_ (Element.state elem))
                         r cur_subset queue';
          closure_loop n' r' cur' queue''
      end
  end.

Definition EpsilonClosure (r : Repo) (subset : list Element)
  : res (Repo * list Element) :=
  let cur_subset := foldl (λ s e, (set_insert s e).1) [] subset in
  closure_loop fuel r cur_subset (reverse subset).

(** *** ConvertToMinimal *)

(** Reading: [arc.osymbol] is [arc.olabel] (an [ArcTpl] has no other
    output-symbol member). *)
Definition IsOsymbolOrFinal (cache : list OsymbolOrFinal) (state : StateId)
  : res (bool * list OsymbolOrFinal) :=
  _ ← assert (bool_decide (0 ≤ state)%Z);
  let n := Z.to_nat state in
  let cache :=
    if decide (length cache ≤ n) then resize (S n) OSF_UNKNOWN cache
    else cache in
  c ← deref (cache !! n);
  if decide (c = OSF_NO) then Done (false, cache)
  else if decide (c = OSF_YES) then Done (true, cache)
  else
    let cache :=
      if decide (Fst.Final Zero ifst_ state ≠ Zero) then <[n := OSF_YES]> cache
      else cache in
    if existsb (λ arc, bool_decide (Arc.olabel arc ≠ 0%Z))
               (Fst.Arcs ifst_ state)
    then Done (true, <[n := OSF_YES]> cache)
    else Done (false, <[n := OSF_NO]> cache).

Fixpoint ConvertToMinimal_loop (cache : list OsymbolOrFinal)
    (subset : list Element) : res (list Element * list OsymbolOrFinal) :=
  match subset with
  | [] => Done ([], cache)
  | cur_in :: rest =>
      '(keep, cache) ← IsOsymbolOrFinal cache (Element.state cur_in);
      '(out, cache) ← ConvertToMinimal_loop cache rest;
      Done (if keep : bool then cur_in :: out else out, cache)
  end.

Definition ConvertToMinimal (cache : list OsymbolOrFinal)
    (subset : list Element) : res (list Element * list OsymbolOrFinal) :=
  _ ← assert (bool_decide (subset ≠ []));
  ConvertToMinimal_loop cache subset.

(** *** NormalizeSubset *)

(** The first loop: the running [Plus] of the weights and the running
    common prefix, over the elements after the first. *)
Fixpoint normalize_sum (r : Repo) (weight : W) (common_prefix : list Z)
    (rest : list Element) : res (W * list Z) :=
  match rest with
  | [] => Done (weight, common_prefix)
  | e :: rest' =>
      common_prefix ← ReduceToCommonPrefix r (Element.string e) common_prefix;
      normalize_sum r (Plus weight (Element.weight e)) common_prefix rest'
  end.

(** The second loop: every element is divided by [weight] and loses its
    first [prefix_len] labels. *)
Fixpoint normalize_elems (r : Repo) (weight : W) (prefix_len : nat)
    (elems : list Element) : res (list Element * Repo) :=
  match elems with
  | [] => Done ([], r)
  | e :: rest =>
      '(str, r) ← RemovePrefix r (Element.string e) prefix_len;
      '(rest', r) ← normalize_elems r weight prefix_len rest;
      Done (Element.mk (Element.state e) str
                       (Divide (Element.weight e) weight) :: rest', r)
  end.

(** Returns the rewritten [elems], [*common_str], [*tot_weight] and the
    repository.  Reading: [common_prefix] is a [vector<IntType>], and
    [RemovePrefix] is the repository's. *)
Definition NormalizeSubset (r : Repo) (elems : list Element)
  : res (list Element * StringId * W * Repo) :=
  match elems with
  | [] => Aborted                               (* assert(!elems->empty()) *)
  | e0 :: rest =>
      common_prefix ← deref (ConvertToVector r (Element.string e0));
      '(weight, common_prefix) ←
        normalize_sum r (Element.weight e0) common_prefix rest;
      _ ← assert (bool_decide (weight ≠ Zero));
      let prefix_len := length common_prefix in
      '(elems', r) ← normalize_elems r weight prefix_len elems;
      let '(common_str, r) := ConvertFromVector r common_prefix in
      Done (elems', common_str, weight, r)
  end.

(** *** MakeSubsetUnique *)

(** [cur_out] is the slot being filled; the list is what [cur_in] has
    still to visit. *)
Fixpoint unique_loop (r : Repo) (cur_out : Element) (rest : list Element)
  : res (list Element) :=
  match rest with
  | [] => Done [cur_out]
  | cur_in :: rest' =>
      if decide (Element.state cur_in = Element.state cur_out) then
        comp ← ComparePair r (Element.weight cur_in) (Element.string cur_in)
                 (Element.weight cur_out) (Element.string cur_out);
        unique_loop r
          (if decide (comp = 1%Z)
           then Element.mk (Element.state cur_out) (Element.string cur_in)
                           (Element.weight cur_in)
           else cur_out)
          rest'
      else
        out ← unique_loop r cur_in rest';
        Done (cur_out :: out)
  end.

Definition MakeSubsetUnique (r : Repo) (subset : list Element)
  : res (list Element) :=
  _ ← assert (match subset with
              | e0 :: e1 :: _ =>
                  bool_decide (Element.state e0 ≤ Element.state e1)%Z
              | _ => true
              end);
  match subset with
  | [] => Done []
  | e :: rest => unique_loop r e rest
  end.

(** *** The state tables *)

Definition set_repository (det : Det) (r : Repo) : Det :=
  mkDet r (output_states_ det) (output_arcs_ det) (minimal_hash_ det)
        (initial_hash_ det) (queue_ det) (osymbol_or_final_ det).

Definition set_osymbol_or_final (det : Det) (c : list OsymbolOrFinal) : Det :=
  mkDet (repository_ det) (output_states_ det) (output_arcs_ det)
        (minimal_hash_ det) (initial_hash_ det) (queue_ det) c.

Definition set_output_arcs (det : Det) (a : list (list TempArc)) : Det :=
  mkDet (repository_ det) (output_states_ det) a (minimal_hash_ det)
        (initial_hash_ det) (queue_ det) (osymbol_or_final_ det).

Definition set_queue (det : Det) (q : list StateId) : Det :=
  mkDet (repository_ det) (output_states_ det) (output_arcs_ det)
        (minimal_hash_ det) (initial_hash_ det) q (osymbol_or_final_ det).

Definition set_initial_hash (det : Det)
    (h : list (list Element * Element)) : Det :=
  mkDet (repository_ det) (output_states_ det) (output_arcs_ det)
        (minimal_hash_ det) h (queue_ det) (osymbol_or_final_ det).

(** [output_arcs_[state].push_back(temp_arc)] *)
Definition push_arc (det : Det) (state : StateId) (temp_arc : TempArc)
  : res Det :=
  _ ← assert (bool_decide (0 ≤ state)%Z);
  this_vec ← deref (output_arcs_ det !! Z.to_nat state);
  Done (set_output_arcs det
          (<[Z.to_nat state := this_vec ++ [temp_arc]]> (output_arcs_ det))).

(** Reading: the lookup is of [subset] (the header names [subset_in]). *)
Definition MinimalToStateId (det : Det) (subset : list Element)
  : StateId * Det :=
  match hash_find (minimal_hash_ det) subset with
  | Some ans => (ans, det)
  | None =>
      let ans := Z.of_nat (length (output_arcs_ det)) in
      (ans,
       mkDet (repository_ det)
             (output_states_ det ++ [subset])
             (output_arcs_ det ++ [[]])
             ((subset, ans) :: minimal_hash_ det)
             (initial_hash_ det)
             (ans :: queue_ det)
             (osymbol_or_final_ det))
  end.

(** What [InitialToStateId] leaves in its two out-parameters. *)
Inductive OutParams :=
  | Assigned (remaining_weight : W) (common_prefix : StringId)
  | Unassigned.

(** Reading: in the calls of [NormalizeSubset] and [InitialToStateId] the
    out-arguments are matched to the parameters by type.  When the subset
    is not in [initial_hash_], the function returns without writing to
    [*remaining_weight] and [*common_prefix]. *)
Definition InitialToStateId (det : Det) (subset_in : list Element)
  : res (StateId * OutParams * Det) :=
  match hash_find (initial_hash_ det) subset_in with
  | Some elem =>
      Done (Element.state elem,
            Assigned (Element.weight elem) (Element.string elem), det)
  | None =>
      '(r, subset) ← EpsilonClosure (repository_ det) subset_in;
      '(subset, cache) ← ConvertToMinimal (osymbol_or_final_ det) subset;
      '(subset, entry_string, entry_weight, r) ← NormalizeSubset r subset;
      let det := set_osymbol_or_final (set_repository det r) cache in
      let '(ans, det) := MinimalToStateId det subset in
      let entry := Element.mk ans entry_string entry_weight in
      Done (ans, Unassigned,
            set_initial_hash det ((subset_in, entry) :: initial_hash_ det))
  end.

(** *** ProcessFinal *)

(** The loop over the elements of the subset.  [final_weight] starts as a
    default-constructed [Weight] and [final_string] as [0], and both are
    compared against from the first element on. *)
Fixpoint final_loop (r : Repo) (elems : list Element)
    (is_final : bool) (final_string : StringId) (final_weight : W)
  : res (bool * StringId * W) :=
  match elems with
  | [] => Done (is_final, final_string, final_weight)
  | elem :: rest =>
      let this_final_weight := Fst.Final Zero ifst_ (Element.state elem) in
      let this_final_string := Element.string elem in
      if decide (this_final_weight ≠ Zero) then
        comp ← ComparePair r this_final_weight this_final_string
                 final_weight final_string;
        if decide (comp = 1%Z)
        then final_loop r rest true this_final_string this_final_weight
        else final_loop r rest is_final final_string final_weight
      else final_loop r rest is_final final_string final_weight
  end.

(** Reading: [output_arcs_[state]] is [output_arcs_[output_state]]. *)
Definition ProcessFinal (det : Det) (output_state : StateId) : res Det :=
  minimal_subset ← deref (output_states_ det !! Z.to_nat output_state);
  '(is_final, final_string, final_weight) ←
    final_loop (repository_ det) minimal_subset false 0 DefaultWeight;
  if is_final : bool then
    push_arc det output_state
             (TempArc.mk 0%Z final_string kNoStateId final_weight)
  else Done det.

(** *** ProcessTransition and ProcessTransitions *)

Definition ProcessTransition (det : Det) (state : StateId) (ilabel : Label)
    (subset : list Element) : res Det :=
  subset ← MakeSubsetUnique (repository_ det) subset;
  '(subset, common_str, tot_weight, r) ←
    NormalizeSubset (repository_ det) subset;
  '(nextstate, out, det) ← InitialToStateId (set_repository det r) subset;
  let '(next_tot_weight, next_common_str) :=
    match out with
    | Assigned w s => (w, s)
    | Unassigned => (DefaultWeight, uninitialized state ilabel)
    end in
  '(common_str, r) ← Concatenate (repository_ det) common_str next_common_str;
  let tot_weight := Times tot_weight next_tot_weight in
  push_arc (set_repository det r) state
           (TempArc.mk ilabel common_str nextstate tot_weight).

(** The candidates from the arcs of one element. *)
Fixpoint collect_arcs (r : Repo) (elem : Element) (arcs : list (Arc.t W))
  : list (Label * Element) * Repo :=
  match arcs with
  | [] => ([], r)
  | arc :: rest =>
      if bool_decide (Arc.ilabel arc ≠ 0%Z)
         && bool_decide (Arc.weight arc ≠ Zero)
      then
        let '(str, r) := next_string r elem arc in
        let this_pr :=
          (Arc.ilabel arc,
           Element.mk (Arc.nextstate arc) str
                      (Times (Element.weight elem) (Arc.weight arc))) in
        let '(more, r) := collect_arcs r elem rest in
        (this_pr :: more, r)
      else collect_arcs r elem rest
  end.

Fixpoint collect_elems (r : Repo) (minimal_subset : list Element)
  : list (Label * Element) * Repo :=
  match minimal_subset with
  | [] => ([], r)
  | elem :: rest =>
      let '(here, r) :=
        collect_arcs r elem (Fst.Arcs ifst_ (Element.state elem)) in
      let '(more, r) := collect_elems r rest in
      (here ++ more, r)
  end.

(** [class PairComparator] *)
Definition PairComparator (p1 p2 : Label * Element) : bool :=
  if decide (p1.1 < p2.1)%Z then true
  else if decide (p2.1 < p1.1)%Z then false
  else bool_decide (Element.state p1.2 < Element.state p2.2)%Z.

(** [std::sort(all_elems.begin(), all_elems.end(), pc)], as an insertion
    sort.  Pairs that [pc] does not order keep their relative order here;
    [std::sort] leaves that order open. *)
Fixpoint sort_insert (p : Label * Element) (l : list (Label * Element))
  : list (Label * Element) :=
  match l with
  | [] => [p]
  | q :: tl => if PairComparator q p then q :: sort_insert p tl else p :: l
  end.

Definition sort_pairs (l : list (Label * Element)) : list (Label * Element) :=
  foldr sort_insert [] l.

(** The ranges that share an input symbol, each with its [this_subset]. *)
Fixpoint label_runs (l : list (Label * Element))
  : list (Label * list Element) :=
  match l with
  | [] => []
  | (ilabel, e) :: tl =>
      match label_runs tl with
      | (ilabel', es) :: runs =>
          if decide (ilabel' = ilabel) then (ilabel, e :: es) :: runs
          else (ilabel, [e]) :: (ilabel', es) :: runs
      | [] => [(ilabel, [e])]
      end
  end.

Fixpoint process_runs (det : Det) (output_state : StateId)
    (runs : list (Label * list Element)) : res Det :=
  match runs with
  | [] => Done det
  | (ilabel, this_subset) :: rest =>
      det ← ProcessTransition det output_state ilabel this_subset;
      process_runs det output_state rest
  end.

(** Reading: [ProcessTransition(state, ...)] is called with
    [output_state]. *)
Definition ProcessTransitions (det : Det) (output_state : StateId)
  : res Det :=
  minimal_subset ← deref (output_states_ det !! Z.to_nat output_state);
  let '(all_elems, r) := collect_elems (repository_ det) minimal_subset in
  process_runs (set_repository det r) output_state
               (label_runs (sort_pairs all_elems)).

Definition ProcessState (det : Det) (output_state : StateId) : res Det :=
  det ← ProcessFinal det output_state;
  ProcessTransitions det output_state.

(** *** Initialize, Determinize and the constructor *)

Definition empty_det : Det := mkDet [] [] [] [] [] [] [].

Definition Initialize (det : Det) : res Det :=
  let start_id := Fst.start ifst_ in
  if decide (start_id ≠ kNoStateId) then
    let elem := Element.mk start_id EmptyString One in
    '(r, subset) ← EpsilonClosure (repository_ det) [elem];
    '(subset, cache) ← ConvertToMinimal (osymbol_or_final_ det) subset;
    _ ← assert (bool_decide (output_arcs_ det = [])
                && bool_decide (output_states_ det = []));
    let initial_state := 0%Z in
    Done (mkDet r
                (output_states_ det ++ [subset])
                (output_arcs_ det ++ [[]])
                ((subset, initial_state) :: minimal_hash_ det)
                (initial_hash_ det)
                (initial_state :: queue_ det)
                cache)
  else Done det.

(** [while (!queue_.empty())], with [debug_ptr] null. *)
Fixpoint Determinize_loop (n : nat) (det : Det) : res Det :=
  match queue_ det with
  | [] => Done det
  | out_state :: queue' =>
      match n with
      | 0 => OutOfFuel
      | S n' =>
          det ← ProcessState (set_queue det queue') out_state;
          Determinize_loop n' det
      end
  end.

Definition Determinize (det : Det) : res Det := Determinize_loop fuel det.

(** The constructor [LatticeDeterminizer(ifst, delta, debug_ptr)]. *)
Definition LatticeDeterminizer : res Det :=
  det ← Initialize empty_det;
  Determinize det.

(** [FreeMostMemory]: everything except [output_arcs_] is released; the
    repository's entries are deleted with the rest. *)
Definition FreeMostMemory (det : Det) : Det :=
  mkDet (Destroy (repository_ det)) [] (output_arcs_ det) [] [] [] [].

(** *** Output *)

(** [CompactLatticeWeightTpl<Weight, IntType>]: a weight and a string. *)
Definition CompactWeight : Type := W * list Z.
Definition CompactZero : CompactWeight := (Zero, []).

(** [for (s = 0; s < nStates; s++) { news = ofst->AddState();
    assert(news == s); }] *)
Fixpoint add_states {A} (zero : A) (n : nat) (s : StateId) (ofst : Fst.t A)
  : res (Fst.t A) :=
  match n with
  | 0 => Done ofst
  | S n' =>
      let '(news, ofst) := Fst.AddState zero ofst in
      _ ← assert (bool_decide (news = s));
      add_states zero n' (s + 1)%Z ofst
  end.

(** The arcs of one state, to the Gallic acceptor. *)
Fixpoint output_compact_arcs (r : Repo) (ofst : Fst.t CompactWeight)
    (this_state : StateId) (this_vec : list TempArc)
  : res (Fst.t CompactWeight) :=
  match this_vec with
  | [] => Done ofst
  | temp_arc :: rest =>
      seq ← deref (ConvertToVector r (TempArc.string temp_arc));
      let weight : CompactWeight := (TempArc.weight temp_arc, seq) in
      if decide (TempArc.nextstate temp_arc = kNoStateId) then
        output_compact_arcs r (Fst.SetFinal ofst this_state weight)
                            this_state rest
      else
        let new_arc :=
          Arc.mk (TempArc.ilabel temp_arc) (TempArc.ilabel temp_arc)
                 weight (TempArc.nextstate temp_arc) in
        output_compact_arcs r (Fst.AddArc ofst this_state new_arc)
                            this_state rest
  end.

Fixpoint output_compact_states (r : Repo) (ofst : Fst.t CompactWeight)
    (this_state : StateId) (rows : list (list TempArc))
  : res (Fst.t CompactWeight) :=
  match rows with
  | [] => Done ofst
  | this_vec :: rows' =>
      ofst ← output_compact_arcs r ofst this_state this_vec;
      output_compact_states r ofst (this_state + 1)%Z rows'
  end.

(** [Output(MutableFst<CompactArc> *ofst, bool destroy)].  With [destroy]
    the rows of [output_arcs_] are released as they are written and the
    table at the end. *)
Definition Output_compact (det : Det) (ofst : Fst.t CompactWeight)
    (destroy : bool) : res (Fst.t CompactWeight * Det) :=
  let nStates := length (output_arcs_ det) in
  let det := if destroy then FreeMostMemory det else det in
  let ofst := Fst.DeleteStates ofst in
  let ofst := Fst.SetStart ofst kNoStateId in
  if decide (nStates = 0) then Done (ofst, det)
  else
    ofst ← add_states CompactZero nStates 0%Z ofst;
    let ofst := Fst.SetStart ofst 0%Z in
    ofst ← output_compact_states (repository_ det) ofst 0%Z (output_arcs_ det);
    Done (ofst, if destroy then set_output_arcs det [] else det).

(** A final weight with its string: the loop over [seq] that builds the
    chain; [i] is the loop index. *)
Fixpoint final_chain (ofst : Fst.t W) (cur_state : StateId) (i : nat)
    (weight : W) (seq : list Z) : Fst.t W * StateId :=
  match seq with
  | [] => (ofst, cur_state)
  | l :: rest =>
      let '(next_state, ofst) := Fst.AddState Zero ofst in
      let arc :=
        Arc.mk 0%Z l (if decide (i = 0) then weight else One) next_state in
      final_chain (Fst.AddArc ofst cur_state arc) next_state (S i) weight rest
  end.

(** An arc with its string: the loop [for (i = 0; i+1 < seq.size(); i++)]
    over all but the last element of [seq]. *)
Fixpoint arc_chain (ofst : Fst.t W) (cur_state : StateId) (i : nat)
    (ilabel : Label) (weight : W) (seq : list Z) : Fst.t W * StateId :=
  match seq with
  | l :: (_ :: _) as rest =>
      let '(next_state, ofst) := Fst.AddState Zero ofst in
      let arc :=
        Arc.mk (if decide (i = 0) then ilabel else 0%Z) l
               (if decide (i = 0) then weight else One) next_state in
      arc_chain (Fst.AddArc ofst cur_state arc) next_state (S i)
                ilabel weight rest
  | _ => (ofst, cur_state)
  end.

(** The body of the loop over the [TempArc]s of [this_state], given the
    string [seq] of the [TempArc]. *)
Definition output_temp_arc (ofst : Fst.t W) (this_state : StateId)
    (temp_arc : TempArc) (seq : list Z) : Fst.t W :=
  if decide (TempArc.nextstate temp_arc = kNoStateId) then
    let '(ofst, cur_state) :=
      final_chain ofst this_state 0 (TempArc.weight temp_arc) seq in
    Fst.SetFinal ofst cur_state
      (if decide (length seq = 0) then TempArc.weight temp_arc else One)
  else
    let '(ofst, cur_state) :=
      arc_chain ofst this_state 0 (TempArc.ilabel temp_arc)
                (TempArc.weight temp_arc) seq in
    let arc :=
      Arc.mk (if decide (length seq ≤ 1) then TempArc.ilabel temp_arc else 0%Z)
             (if decide (0 < length seq) then List.last seq 0%Z else 0%Z)
             (if decide (length seq ≤ 1) then TempArc.weight temp_arc else One)
             (TempArc.nextstate temp_arc) in
    Fst.AddArc ofst cur_state arc.

Fixpoint output_arcs (r : Repo) (ofst : Fst.t W) (this_state : StateId)
    (this_vec : list TempArc) : res (Fst.t W) :=
  match this_vec with
  | [] => Done ofst
  | temp_arc :: rest =>
      seq ← deref (ConvertToVector r (TempArc.string temp_arc));
      output_arcs r (output_temp_arc ofst this_state temp_arc seq)
                  this_state rest
  end.

Fixpoint output_states (r : Repo) (ofst : Fst.t W) (this_state : StateId)
    (rows : list (list TempArc)) : res (Fst.t W) :=
  match rows with
  | [] => Done ofst
  | this_vec :: rows' =>
      ofst ← output_arcs r ofst this_state this_vec;
      output_states r ofst (this_state + 1)%Z rows'
  end.

(** [Output(MutableFst<Arc> *ofst, bool destroy)] *)
Definition Output (det : Det) (ofst : Fst.t W) (destroy : bool)
  : res (Fst.t W * Det) :=
  let nStates := length (output_arcs_ det) in
  let ofst := Fst.DeleteStates ofst in
  if decide (nStates = 0) then Done (Fst.SetStart ofst kNoStateId, det)
  else
    let det := if destroy then FreeMostMemory det else det in
    ofst ← add_states Zero nStates 0%Z ofst;
    let ofst := Fst.SetStart ofst 0%Z in
    ofst ← output_states (repository_ det) ofst 0%Z (output_arcs_ det);
    Done (ofst, if destroy then set_output_arcs det [] else det).

(** [DeterminizeLattice], the two overloads; [Output] is called with its
    default [destroy = true].  The symbol tables and the assertion that
    [ofst] is not [ifst] are not part of the model. *)
Definition DeterminizeLattice (ofst : Fst.t W) : res (Fst.t W) :=
  det ← LatticeDeterminizer;
  '(ofst, _) ← Output det ofst true;
  Done ofst.

Definition DeterminizeLattice_compact (ofst : Fst.t CompactWeight)
  : res (Fst.t CompactWeight) :=
  det ← LatticeDeterminizer;
  '(ofst, _) ← Output_compact det ofst true;
  Done ofst.

End LatticeDeterminizer.

(** ** The weight of a label sequence in an FST

    [accept_weight n f s labels]: the [Plus]-sum of the weights of the
    paths of at most [n] arcs that start in [s], read [labels] on their
    non-epsilon input labels and end in a final state, each path weighing
    the [Times]-product of its arcs and of the final weight. *)

Section AcceptWeight.
Context {W : Type} `{!WeightOps W}.

Fixpoint accept_weight (n : nat) (f : Fst.t W) (s : StateId)
    (labels : list Label) : W :=
  let here := match labels with [] => Fst.Final Zero f s | _ => Zero end in
  match n with
  | 0 => here
  | S n' =>
      foldl Plus here
        (map (λ arc,
           if decide (Arc.ilabel arc = 0%Z) then
             Times (Arc.weight arc)
                   (accept_weight n' f (Arc.nextstate arc) labels)
           else
             match labels with
             | l :: labels' =>
                 if decide (Arc.ilabel arc = l) then
                   Times (Arc.weight arc)
                         (accept_weight n' f (Arc.nextstate arc) labels')
                 else Zero
             | [] => Zero
             end)
           (Fst.Arcs f s))
  end.

End AcceptWeight.

(** ** A weight type to run the determinizer on

    The tropical semiring over integer costs: [Plus] is the minimum,
    [Times] the sum, [Zero] the infinite cost and [One] the cost [0].
    [Compare] ranks the lower cost higher, as the lattice code expects of
    a weight type.  The instance is indexed by the value of a
    default-constructed weight.

    The costs are integers: they are not rounded and have no least
    value, unlike the floating-point costs of [TropicalWeight] and
    [LatticeWeight].  The inputs of the examples have small costs, on
    which the two agree; [Saturating] below has costs with a least
    value. *)

Module Tropical.

Inductive t := Cost (c : Z) | Infinity.

Global Instance t_eq_dec : EqDecision t.
Proof. solve_decision. Defined.

Definition plus (a b : t) : t :=
  match a, b with
  | Cost x, Cost y => Cost (Z.min x y)
  | Cost x, Infinity => Cost x
  | Infinity, b => b
  end.

Definition times (a b : t) : t :=
  match a, b with
  | Cost x, Cost y => Cost (x + y)
  | _, _ => Infinity
  end.

Definition divide (a b : t) : t :=
  match a, b with
  | Cost x, Cost y => Cost (x - y)
  | _, _ => Infinity
  end.

Definition compare (a b : t) : Z :=
  match a, b with
  | Cost x, Cost y =>
      if decide (x = y) then 0%Z else if decide (y < x)%Z then (-1)%Z else 1%Z
  | Cost _, Infinity => 1%Z
  | Infinity, Cost _ => (-1)%Z
  | Infinity, Infinity => 0%Z
  end.

Definition ops (default : t) : WeightOps t := {|
  Plus := plus;
  Times := times;
  Divide := divide;
  Zero := Infinity;
  One := Cost 0;
  Compare := compare;
  ApproxEqual := λ a b, bool_decide (a = b);
  DefaultWeight := default
|}.

End Tropical.

(** ** Notions used in the statements *)

Section SpecDefs.
Context {W : Type} `{!WeightOps W}.

(** The [Plus]-sum of the weights of a subset, taken from the first
    element on; the empty sum is [Zero]. *)
Definition subset_sum (elems : list (Element.t W)) : W :=
  match elems with
  | [] => Zero
  | e0 :: rest => foldl (λ w e, Plus w (Element.weight e)) (Element.weight e0) rest
  end.

(** [p] is the longest sequence that is a prefix of every member of [vs]. *)
Definition longest_common_prefix (p : list Z) (vs : list (list Z)) : Prop :=
  Forall (λ v, p `prefix_of` v) vs
  ∧ ∀ q, Forall (λ v, q `prefix_of` v) vs → q `prefix_of` p.

(** The strings of the elements, read in repository [r]. *)
Definition strings_are (r : Repo) (elems : list (Element.t W))
    (vs : list (list Z)) : Prop :=
  Forall2 (λ e v, ConvertToVector r (Element.string e) = Some v) elems vs.
(** Every string of the subset is a live handle of [r]. *)
Definition strings_alive (r : Repo) (elems : list (Element.t W)) : Prop :=
  Forall (λ e, is_Some (ConvertToVector r (Element.string e))) elems.

(** [e'] is [e] after normalization by the weight [tot] and the prefix [p]. *)
Definition normalized_from (r r' : Repo) (tot : W) (p : list Z)
    (e e' : Element.t W) : Prop :=
  Element.state e' = Element.state e
  ∧ Element.weight e' = Divide (Element.weight e) tot
  ∧ ∃ v', ConvertToVector r (Element.string e) = Some (p ++ v')
          ∧ ConvertToVector r' (Element.string e') = Some v'.

End SpecDefs.

(** ** Inputs used in the examples

    Weights are tropical; a default-constructed weight holds the cost [0]
    and an uninitialised [StringId] holds [NULL]. *)

Module Examples.

#[global] Instance ops : WeightOps Tropical.t := Tropical.ops (Tropical.Cost 0).

Definition no_string : StateId → Label → StringId := λ _ _, 0.

(** A repository holding [1], [1 2], [1 2 3] and [1 2 4], with handles
    1 to 4. *)
Definition repo4 : Repo :=
  [mkEntry 2 4; mkEntry 2 3; mkEntry 1 2; mkEntry 0 1].

(** Two elements with the strings [1 2 3] and [1 2 4]. *)
Definition subset2 : list (Element.t Tropical.t) :=
  [Element.mk 0 3 (Tropical.Cost 1); Element.mk 1 4 (Tropical.Cost 2)].

End Examples.

Module Inputs.

(** One state, start and final with weight [One], no arcs: the automaton
    accepts the empty sequence with weight [One]. *)
Definition final_only : Fst.t Tropical.t :=
  Fst.mk 0 [Fst.mkState (Tropical.Cost 0) []].

(** One state, start and final with weight [One], with a self-loop that
    reads [1], writes [7] and costs [2]. *)
Definition self_loop : Fst.t Tropical.t :=
  Fst.mk 0 [Fst.mkState (Tropical.Cost 0)
              [Arc.mk 1 7 (Tropical.Cost 2) 0]].


(** The smallest lattice: an arc from the start state 0, reading [1] and
    writing [7], to the final state 1. *)
Definition one_arc : Fst.t Tropical.t :=
  Fst.mk 0 [Fst.mkState Tropical.Infinity [Arc.mk 1 7 (Tropical.Cost 2) 1];
            Fst.mkState (Tropical.Cost 0) []].

(** Two states; from state 0 two arcs read [1], one to state 1 and one
    back to state 0, and from state 1 an arc reads [2] back to state 0. *)
Definition two_paths : Fst.t Tropical.t :=
  Fst.mk 0 [Fst.mkState (Tropical.Cost 0)
              [Arc.mk 1 7 (Tropical.Cost 1) 1; Arc.mk 1 8 (Tropical.Cost 2) 0];
            Fst.mkState Tropical.Infinity
              [Arc.mk 2 9 (Tropical.Cost 1) 0]].

(** No start state. *)
Definition no_start : Fst.t Tropical.t := Fst.mk kNoStateId [].

(** The seed of the closure of the start state. *)
Definition start_elem {W} `{!WeightOps W} : Element.t W :=
  Element.mk 0 EmptyString One.

End Inputs.

(** ** Determinism of the result *)

Section DetDefs.
Context {W : Type}.

(** A [TempArc] that [Output] turns into an arc, not into a final
    weight. *)
Definition is_transition (temp_arc : TempArc.t W) : Prop :=
  TempArc.nextstate temp_arc ≠ kNoStateId.

Global Instance is_transition_dec temp_arc : Decision (is_transition temp_arc).
Proof. unfold is_transition. apply _. Defined.

(** The input labels of the transitions of an output state. *)
Definition transition_labels (arcs : list (TempArc.t W)) : list Label :=
  TempArc.ilabel <$> filter is_transition arcs.

(** No two transitions of a state share an input label. *)
Definition deterministic_table (table : list (list (TempArc.t W))) : Prop :=
  Forall (λ arcs, NoDup (transition_labels arcs)) table.

Definition deterministic_fst {A} (f : Fst.t A) : Prop :=
  Forall (λ st, NoDup (Arc.ilabel <$> Fst.arcs st)) (Fst.states f).

(** Ordered by input symbol, as [PairComparator] orders first. *)
Definition label_le (p q : Label * Element.t W) : Prop := (p.1 ≤ q.1)%Z.

(** The arcs of an expanded output state: at most one final weight,
    recorded first, then transitions with pairwise different input
    labels, none of them epsilon. *)
Definition row_ok (row : list (TempArc.t W)) : Prop :=
  ∃ fin tas,
    row = fin ++ tas
    ∧ length fin ≤ 1
    ∧ Forall (λ t, ¬ is_transition t) fin
    ∧ Forall (λ t, is_transition t ∧ TempArc.ilabel t ≠ 0%Z) tas
    ∧ NoDup (TempArc.ilabel <$> tas).

(** The state numbers kept in the two hash tables are not negative. *)
Definition hashes_ok (det : Det W) : Prop :=
  Forall (λ kv, (0 ≤ kv.2)%Z) (minimal_hash_ det)
  ∧ Forall (λ kv, (0 ≤ Element.state kv.2)%Z) (initial_hash_ det).

(** While output state [s] is being expanded: the queued states are
    distinct, other than [s], and have no arcs yet; every state but [s]
    is finished. *)
Definition expanding_at (s : StateId) (table : list (list (TempArc.t W)))
    (queue : list StateId) : Prop :=
  (0 ≤ s)%Z
  ∧ is_Some (table !! Z.to_nat s)
  ∧ NoDup queue
  ∧ (∀ q, q ∈ queue → (0 ≤ q)%Z ∧ q ≠ s ∧ table !! Z.to_nat q = Some [])
  ∧ (∀ n arcs, n ≠ Z.to_nat s → table !! n = Some arcs → row_ok arcs).

Definition expanding (s : StateId) (det : Det W) : Prop :=
  expanding_at s (output_arcs_ det) (queue_ det) ∧ hashes_ok det.

(** Between two expansions: the queued states are distinct and have no
    arcs yet, and every state is either queued or finished. *)
Definition between_states (det : Det W) : Prop :=
  NoDup (queue_ det)
  ∧ (∀ q, q ∈ queue_ det →
          (0 ≤ q)%Z ∧ output_arcs_ det !! Z.to_nat q = Some [])
  ∧ Forall row_ok (output_arcs_ det)
  ∧ hashes_ok det.
End DetDefs.

(** The input labels of the arcs of a state of an FST. *)
Definition state_labels {A} (st : Fst.State A) : list Label :=
  Arc.ilabel <$> Fst.arcs st.

(** The input label of the arc that [Output] adds to an output state for
    a [TempArc]: the label of a transition, epsilon for the chain of a
    final weight. *)
Definition first_label {W} (temp_arc : TempArc.t W) : Label :=
  if decide (is_transition temp_arc) then TempArc.ilabel temp_arc else 0%Z.

(** ** The chains of the expanded output *)

Section ChainDefs.
Context {W : Type} `{!WeightOps W}.

(** The arcs that carry the string [seq] of a transition, in order, when
    the destination FST had [n] states before: the [k]-th arc carries the
    [k]-th label; the first one carries the input label and the weight,
    the others epsilon and [One]; the last one leads to [dest], the
    others to the states created for the chain.  [i] is the number of
    arcs already emitted. *)
Definition chain_arcs (n i : nat) (ilabel : Label) (w : W) (dest : StateId)
    (seq : list Z) : list (Arc.t W) :=
  imap (λ k l,
          Arc.mk (if decide (i + k = 0) then ilabel else 0%Z) l
                 (if decide (i + k = 0) then w else One)
                 (if decide (S k = length seq) then dest
                  else Z.of_nat (n + k)))
       seq.

(** The arcs that carry the string of a final weight: all read epsilon
    and lead to a state created for the chain. *)
Definition final_chain_arcs (n i : nat) (w : W) (seq : list Z)
  : list (Arc.t W) :=
  imap (λ k l,
          Arc.mk 0%Z l (if decide (i + k = 0) then w else One)
                 (Z.of_nat (n + k)))
       seq.

(** A state created for a chain, with its one arc. *)
Definition chain_state (a : Arc.t W) : Fst.State W := Fst.mkState Zero [a].
End ChainDefs.

(** ** What ConvertToMinimal keeps *)

Section MinimalDefs.
Context {W : Type}.

(** Some arc leaving [s] has an output label. *)
Definition has_output_label (ifst_ : Fst.t W) (s : StateId) : bool :=
  existsb (λ arc, bool_decide (Arc.olabel arc ≠ 0%Z)) (Fst.Arcs ifst_ s).

(** Every flag of the cache that is not [OSF_UNKNOWN] says whether the
    state has an arc with an output label. *)
Definition cache_consistent (ifst_ : Fst.t W)
    (cache : list OsymbolOrFinal) : Prop :=
  ∀ n c, cache !! n = Some c →
         c = OSF_UNKNOWN
         ∨ c = if has_output_label ifst_ (Z.of_nat n) then OSF_YES else OSF_NO.
End MinimalDefs.

(** ** Notions used in the further properties *)

(** Every handle that reads in [r] reads the same in [r']. *)
Definition preserves (r r' : Repo) : Prop :=
  ∀ h v, ConvertToVector r h = Some v → ConvertToVector r' h = Some v.

(** Ordered by state, as [ElementStateComparator] orders. *)
Definition state_le {W} (e1 e2 : Element.t W) : Prop :=
  (Element.state e1 ≤ Element.state e2)%Z.

Section ClosureDefs.
Context {W : Type} `{!WeightOps W}.
Variable ifst_ : Fst.t W.
Variable sorted : bool.

(** The arcs that the loop of [EpsilonClosure] follows: those with an
    epsilon input label and a weight other than [Zero]; when the input is
    known to be sorted on input label, only up to the first arc with
    another input label. *)
Fixpoint followed_arcs (arcs : list (Arc.t W)) : list (Arc.t W) :=
  match arcs with
  | [] => []
  | arc :: rest =>
      if sorted && bool_decide (Arc.ilabel arc ≠ 0%Z) then []
      else if bool_decide (Arc.ilabel arc = 0%Z)
              && bool_decide (Arc.weight arc ≠ Zero)
      then arc :: followed_arcs rest
      else followed_arcs rest
  end.

(** The states reached from the states [from] along followed arcs. *)
Inductive eps_reach (from : list StateId) : StateId → Prop :=
  | eps_reach_here s : s ∈ from → eps_reach from s
  | eps_reach_step s arc :
      eps_reach from s →
      arc ∈ followed_arcs (Fst.Arcs ifst_ s) →
      eps_reach from (Arc.nextstate arc).

(** The invariant of the [while] loop of [EpsilonClosure]: [cur] has one
    element per state in increasing order; a state of [cur] is still
    queued or has all its followed arcs leading into [cur]; and
    everything in [cur] and in the queue is reached from [from]. *)
Definition closure_inv (from : list StateId)
    (cur queue : list (Element.t W)) : Prop :=
  Sorted Z.lt (Element.state <$> cur)
  ∧ (∀ s, s ∈ Element.state <$> cur →
          s ∈ Element.state <$> queue
          ∨ ∀ arc, arc ∈ followed_arcs (Fst.Arcs ifst_ s) →
                   Arc.nextstate arc ∈ Element.state <$> cur)
  ∧ (∀ s, s ∈ Element.state <$> cur → eps_reach from s)
  ∧ (∀ s, s ∈ Element.state <$> queue → eps_reach from s)
  ∧ (∀ s, s ∈ from → s ∈ Element.state <$> cur).
End ClosureDefs.

Section TableDefs.
Context {W : Type} `{!WeightOps W}.

(** [s] is the number of an output state. *)
Definition state_in_range (det : Det W) (s : StateId) : Prop :=
  (0 ≤ s < Z.of_nat (length (output_arcs_ det)))%Z.

(** The state table, the table of arcs, the two hash tables and the
    queue fit together: the two tables have a row per output state;
    [minimal_hash_] maps the subset of every output state to its number
    and holds nothing else; every state number that is stored is that of
    an output state; and a later output state has a subset that
    [SubsetEqual] tells apart from that of an earlier one. *)
Definition tables_ok (det : Det W) : Prop :=
  length (output_states_ det) = length (output_arcs_ det)
  ∧ minimal_hash_ det
    = reverse (imap (λ i subset, (subset, Z.of_nat i)) (output_states_ det))
  ∧ Forall (Forall (λ t, is_transition t →
                         state_in_range det (TempArc.nextstate t)))
           (output_arcs_ det)
  ∧ Forall (λ kv, state_in_range det (Element.state kv.2))
           (initial_hash_ det)
  ∧ Forall (state_in_range det) (queue_ det)
  ∧ (∀ i j si sj, i < j →
       output_states_ det !! i = Some si →
       output_states_ det !! j = Some sj →
       SubsetEqual si sj = false).
End TableDefs.

Section OutputDefs.
Context {W : Type} `{!WeightOps W}.

(** Every string of the table of arcs is the empty string. *)
Definition strings_null (table : list (list (TempArc.t W))) : Prop :=
  Forall (Forall (λ t, TempArc.string t = 0)) table.

(** Some string of the table of arcs is not the empty string. *)
Definition some_string (table : list (list (TempArc.t W))) : Prop :=
  Exists (Exists (λ t, TempArc.string t ≠ 0)) table.

(** Every string of the table of arcs is alive in [r]. *)
Definition table_alive (r : Repo) (table : list (list (TempArc.t W)))
  : Prop :=
  Forall (Forall (λ t, is_Some (ConvertToVector r (TempArc.string t))))
         table.

(** No arc of the automaton has an output label. *)
Definition no_output_labels {A} (f : Fst.t A) : Prop :=
  Forall (λ st, Forall (λ a, Arc.olabel a = 0%Z) (Fst.arcs st))
         (Fst.states f).

(** The arc [a] of the compact output stands for the transition [t]: it
    reads and writes the input label of [t], leads where [t] leads, and
    weighs the weight of [t] with the sequence that the string of [t]
    reads as in [r]. *)
Definition compact_arc_of (r : Repo) (t : TempArc.t W)
    (a : Arc.t (@CompactWeight W)) : Prop :=
  Arc.ilabel a = TempArc.ilabel t
  ∧ Arc.olabel a = TempArc.ilabel t
  ∧ Arc.nextstate a = TempArc.nextstate t
  ∧ (Arc.weight a).1 = TempArc.weight t
  ∧ ConvertToVector r (TempArc.string t) = Some (Arc.weight a).2.

(** The final weight [w] comes from the last final weight recorded in
    [row]; [old] is the final weight when [row] records none. *)
Definition compact_final_of (r : Repo) (row : list (TempArc.t W))
    (old w : @CompactWeight W) : Prop :=
  match last (filter (λ t, ¬ is_transition t) row) with
  | None => w = old
  | Some t =>
      w.1 = TempArc.weight t
      ∧ ConvertToVector r (TempArc.string t) = Some w.2
  end.

(** The state [st] of the compact output stands for the row [row] of the
    table of arcs. *)
Definition compact_state_of (r : Repo) (row : list (TempArc.t W))
    (st : Fst.State (@CompactWeight W)) : Prop :=
  Forall2 (compact_arc_of r) (filter is_transition row) (Fst.arcs st)
  ∧ compact_final_of r row CompactZero (Fst.final st).

(** The number of states that [Output] creates for the string of a
    [TempArc]: one for every label of a final weight, and one for every
    label but the last of a transition. *)
Definition chain_length (r : Repo) (t : TempArc.t W) : nat :=
  match ConvertToVector r (TempArc.string t) with
  | Some seq =>
      if decide (TempArc.nextstate t = kNoStateId) then length seq
      else length seq - 1
  | None => 0
  end.
End OutputDefs.

Section CandidateDefs.
Context {W : Type} `{!WeightOps W}.

(** The pairs of the ranges, in order. *)
Definition runs_flatten (runs : list (Label * list (Element.t W)))
  : list (Label * Element.t W) :=
  runs ≫= λ run, (run.1,.) <$> run.2.

(** The order that [PairComparator] sorts into: by input label, then by
    state. *)
Definition pair_le (p q : Label * Element.t W) : Prop :=
  (p.1 < q.1)%Z ∨ p.1 = q.1 ∧ (Element.state p.2 ≤ Element.state q.2)%Z.

(** The arcs that [ProcessTransitions] takes candidates from. *)
Definition emitting (arc : Arc.t W) : Prop :=
  Arc.ilabel arc ≠ 0%Z ∧ Arc.weight arc ≠ Zero.

Global Instance emitting_dec arc : Decision (emitting arc).
Proof. unfold emitting. apply _. Defined.

(** The candidate [p] comes from the arc [arc] leaving an element with
    weight [w] and sequence [v]. *)
Definition candidate_of (r : Repo) (v : list Z) (w : W) (arc : Arc.t W)
    (p : Label * Element.t W) : Prop :=
  p.1 = Arc.ilabel arc
  ∧ Element.state p.2 = Arc.nextstate arc
  ∧ Element.weight p.2 = Times w (Arc.weight arc)
  ∧ ConvertToVector r (Element.string p.2)
    = Some (v ++ if decide (Arc.olabel arc = 0%Z) then []
                 else [Arc.olabel arc]).
End CandidateDefs.

(** ** Further inputs used in the examples *)

Module MoreExamples.

(** Tropical weights that are [ApproxEqual] when their costs differ by
    at most [delta]. *)
Definition approx_equal (delta : Z) (a b : Tropical.t) : bool :=
  match a, b with
  | Tropical.Cost x, Tropical.Cost y => bool_decide (Z.abs (x - y) ≤ delta)%Z
  | Tropical.Infinity, Tropical.Infinity => true
  | _, _ => false
  end.

Definition approx_ops (delta : Z) : WeightOps Tropical.t := {|
  Plus := Tropical.plus;
  Times := Tropical.times;
  Divide := Tropical.divide;
  Zero := Tropical.Infinity;
  One := Tropical.Cost 0;
  Compare := Tropical.compare;
  ApproxEqual := approx_equal delta;
  DefaultWeight := Tropical.Cost 0
|}.

(** [Examples.subset2] with the weights off by one. *)
Definition subset2_near : list (Element.t Tropical.t) :=
  [Element.mk 0 3 (Tropical.Cost 2); Element.mk 1 4 (Tropical.Cost 1)].

(** A determinizer with one output state, final with the string [1 2 3],
    and a transition on [1] back to it that carries the string [1 2]. *)
Definition looping_det : Det Tropical.t :=
  mkDet Examples.repo4 [[Inputs.start_elem]]
        [[TempArc.mk 0 3 kNoStateId (Tropical.Cost 0);
          TempArc.mk 1 2 0 (Tropical.Cost 1)]]
        [([Inputs.start_elem], 0%Z)] [] [] [].

(** An output state whose subset holds the final state 0 of
    [Inputs.self_loop] with the string [1]. *)
Definition final_det : Det Tropical.t :=
  mkDet Examples.repo4 [[Element.mk 0 1 (Tropical.Cost 0)]] [[]]
        [([Element.mk 0 1 (Tropical.Cost 0)], 0%Z)] [] [] [].

(** State 0 leads by epsilon to state 1, which leads by epsilon to
    state 2 and back to state 0; state 3 is not reached. *)
Definition eps_chain : Fst.t Tropical.t :=
  Fst.mk 0 [Fst.mkState Tropical.Infinity [Arc.mk 0 0 (Tropical.Cost 1) 1];
            Fst.mkState Tropical.Infinity
              [Arc.mk 0 7 (Tropical.Cost 1) 2; Arc.mk 0 0 (Tropical.Cost 1) 0];
            Fst.mkState (Tropical.Cost 0) [];
            Fst.mkState (Tropical.Cost 0) []].

(** One state with a self-loop that reads [1], writes nothing and costs
    [2], and a self-loop of weight [Zero] that reads [2] and writes
    [7]. *)
Definition silent_arc : Fst.t Tropical.t :=
  Fst.mk 0 [Fst.mkState Tropical.Infinity
              [Arc.mk 1 0 (Tropical.Cost 2) 0;
               Arc.mk 2 7 Tropical.Infinity 0]].

End MoreExamples.

(** ** Notions used for the termination of [EpsilonClosure] *)

(** One member of a list is replaced by an [R]-smaller one. *)
Inductive list_step {A} (R : relation A) : relation (list A) :=
  | list_step_here x' x l : R x' x → list_step R (x' :: l) (x :: l)
  | list_step_there x l' l : list_step R l' l → list_step R (x :: l') (x :: l).

Section TerminationDefs.
Context {W : Type} `{!WeightOps W}.






Variable ifst_ : Fst.t W.
Variable sorted : bool.



End TerminationDefs.

(** ** A weight type whose costs have a floor

    Tropical weights whose cost cannot fall below a floor, as the cost of
    a floating-point weight cannot: [Cost k] is the cost [k] above the
    floor, the cost [0] is [Cost zero_at], and [Times] stops at the
    floor. *)

Module Saturating.

Inductive t := Cost (k : nat) | Infinity.

Global Instance t_eq_dec : EqDecision t.
Proof. solve_decision. Defined.

Definition plus (a b : t) : t :=
  match a, b with
  | Cost x, Cost y => Cost (x `min` y)
  | Cost x, Infinity => Cost x
  | Infinity, b => b
  end.

Definition times (zero_at : nat) (a b : t) : t :=
  match a, b with
  | Cost x, Cost y => Cost (x + y - zero_at)
  | _, _ => Infinity
  end.

Definition divide (zero_at : nat) (a b : t) : t :=
  match a, b with
  | Cost x, Cost y => Cost (x + zero_at - y)
  | _, _ => Infinity
  end.

Definition compare (a b : t) : Z :=
  match a, b with
  | Cost x, Cost y =>
      if decide (x = y) then 0%Z else if decide (y < x) then (-1)%Z else 1%Z
  | Cost _, Infinity => 1%Z
  | Infinity, Cost _ => (-1)%Z
  | Infinity, Infinity => 0%Z
  end.

Definition ops (zero_at : nat) : WeightOps t := {|
  Plus := plus;
  Times := times zero_at;
  Divide := divide zero_at;
  Zero := Infinity;
  One := Cost zero_at;
  Compare := compare;
  ApproxEqual := λ a b, bool_decide (a = b);
  DefaultWeight := Cost zero_at
|}.

End Saturating.

Module FloorExamples.

(** Costs from [-3] up. *)
#[global] Instance ops : WeightOps Saturating.t | 100 := Saturating.ops 3.


End FloorExamples.

(** * Properties *)

(** Settles the tests whose outcome [lia] or [done] can tell. *)
Ltac decide_known :=
  cbn [mbind res_bind];
  repeat (match goal with
          | |- context [decide ?P] =>
              first [ rewrite (decide_True (P := P)) by (done || lia)
                    | rewrite (decide_False (P := P)) by (done || lia) ]
          | |- context [bool_decide ?P] =>
              first [ rewrite (bool_decide_true P) by (done || lia)
                    | rewrite (bool_decide_false P) by (done || lia) ]
          end; cbn; cbn [mbind res_bind]).

(** ** The string repository *)

(** Well-formedness of a repository that is written out. *)
Ltac solve_repo_wf :=
  repeat (apply repo_wf_cons;
          [|simpl; lia
           |repeat (apply not_elem_of_cons; split; [discriminate|]);
            apply not_elem_of_nil]);
  apply repo_wf_nil.

Section RepositoryFacts.
Implicit Types (r k : Repo) (h p : StringId) (v w : list Z) (e : Entry).

Lemma ConvertToVector_null r : ConvertToVector r 0 = Some [].
Proof. by destruct r. Qed.

Lemma ConvertToVector_cons e tl h :
  h ≠ 0 →
  ConvertToVector (e :: tl) h =
  if decide (h = S (length tl))
  then out ← ConvertToVector tl (parent e); Some (out ++ [i e])
  else ConvertToVector tl h.
Proof. by destruct h. Qed.

Lemma ConvertToVector_alive r h v :
  ConvertToVector r h = Some v → alive r h.
Proof.
  unfold alive. revert h v. induction r as [|e tl IH]; intros [|h] v; simpl; try done; try lia.
  case_decide; [lia|]. intros Hv. apply IH in Hv. lia.
Qed.

Lemma ConvertToVector_skip k r h :
  alive r h → ConvertToVector (k ++ r) h = ConvertToVector r h.
Proof.
  unfold alive. intros Hh. induction k as [|e k IH]; [done|].
  destruct h as [|h]; [by destruct r|]. simpl.
  rewrite length_app. case_decide; [lia|]. exact IH.
Qed.

Lemma ConvertToVector_suffix r r' h v :
  r `suffix_of` r' → ConvertToVector r h = Some v → ConvertToVector r' h = Some v.
Proof.
  intros [k ->] Hv. rewrite ConvertToVector_skip; [done|].
  by eapply ConvertToVector_alive.
Qed.

Lemma ConvertToVector_newest e r :
  ConvertToVector (e :: r) (S (length r)) =
  out ← ConvertToVector r (parent e); Some (out ++ [i e]).
Proof. rewrite ConvertToVector_cons; [|done]. by rewrite decide_True. Qed.

Lemma ConvertToVector_nonnull r h v :
  ConvertToVector r h = Some v → h ≠ 0 →
  ∃ e out, e ∈ r ∧ v = out ++ [i e] ∧ ConvertToVector r (parent e) = Some out.
Proof.
  revert h v. induction r as [|e tl IH]; intros h v Hv Hne.
  { by destruct h. }
  rewrite ConvertToVector_cons in Hv; [|done].
  case_decide as Hd.
  - destruct (ConvertToVector tl (parent e)) as [out|] eqn:Hp; [|done].
    simpl in Hv. injection Hv as <-. exists e, out. split_and!; [left|done|].
    eapply ConvertToVector_suffix; [|done]. by apply suffix_cons_r.
  - destruct (IH h v Hv) as (e' & out & ? & ? & ?); [done|].
    exists e', out. split_and!; [by right|done|].
    eapply ConvertToVector_suffix; [|done]. by apply suffix_cons_r.
Qed.

Lemma ConvertToVector_nil_inv r h : ConvertToVector r h = Some [] → h = 0.
Proof.
  intros Hv. destruct (decide (h = 0)) as [|Hne]; [done|].
  destruct (ConvertToVector_nonnull _ _ _ Hv Hne) as (e & out & _ & Hnil & _).
  by destruct out.
Qed.

Lemma repo_wf_suffix r r' : r `suffix_of` r' → repo_wf r' → repo_wf r.
Proof.
  intros [k ->]. induction k as [|e k IH]; [done|]. inversion 1; auto.
Qed.

(** Hash-consing: in a well-formed repository a sequence has one handle. *)
Lemma ConvertToVector_inj r h1 h2 v :
  repo_wf r → ConvertToVector r h1 = Some v → ConvertToVector r h2 = Some v →
  h1 = h2.
Proof.
  intros Hwf. revert h1 h2 v.
  induction Hwf as [|e r Hwf IH Hp Hfresh]; intros h1 h2 v H1 H2.
  { destruct h1, h2; simpl in *; done. }
  assert (Hnew : ∀ h v', h ≠ S (length r) →
            ConvertToVector (e :: r) h = Some v' → ConvertToVector r h = Some v').
  { intros h v' Hne. destruct (decide (h = 0)) as [->|].
    - by rewrite !ConvertToVector_null.
    - rewrite ConvertToVector_cons; [|done]. by rewrite decide_False. }
  assert (Hclash : ∀ h, h ≠ S (length r) →
            ConvertToVector (e :: r) (S (length r)) = Some v →
            ConvertToVector r h = Some v → False).
  { intros h Hne Hv Hh. rewrite ConvertToVector_newest in Hv.
    destruct (ConvertToVector r (parent e)) as [out|] eqn:Hout; [|done].
    simpl in Hv. injection Hv as <-.
    destruct (ConvertToVector_nonnull _ _ _ Hh) as (e' & out' & Hin & Heq & Hout').
    { intros ->. rewrite ConvertToVector_null in Hh. by destruct out. }
    apply app_inj_tail in Heq as [-> Hi].
    assert (parent e = parent e') by eauto.
    apply Hfresh. destruct e, e'; simpl in *; by subst. }
  destruct (decide (h1 = S (length r))) as [->|Hn1];
    destruct (decide (h2 = S (length r))) as [->|Hn2]; [done| | |].
  - exfalso. eauto.
  - exfalso. eauto.
  - eauto.
Qed.

Lemma find_None r e : find r e = None → e ∉ r.
Proof.
  induction r as [|e' tl IH]; simpl; [intros _; apply not_elem_of_nil|].
  case_decide; [done|]. intros Hf. apply not_elem_of_cons. split; [done|auto].
Qed.

Lemma find_Some r e h :
  find r e = Some h → ∃ k tl, r = k ++ e :: tl ∧ h = S (length tl).
Proof.
  induction r as [|e' tl IH]; simpl; [done|].
  case_decide as Hd.
  - intros [= <-]. subst. by exists [], tl.
  - intros Hf. destruct (IH Hf) as (k & tl' & -> & ->). by exists (e' :: k), tl'.
Qed.

Lemma find_fresh_app k r e : e ∉ k → find (k ++ r) e = find r e.
Proof.
  induction k as [|e' k IH]; [done|]. intros [? ?]%not_elem_of_cons.
  simpl. rewrite decide_False; [|done]. auto.
Qed.

Lemma repo_wf_NoDup r : repo_wf r → NoDup r.
Proof. induction 1; constructor; done. Qed.

Lemma Successor_suffix r p x : r `suffix_of` (Successor r p x).2.
Proof.
  unfold Successor. destruct (find r _); simpl; [done|]. by apply suffix_cons_r.
Qed.

Lemma Successor_wf r p x :
  repo_wf r → alive r p → repo_wf (Successor r p x).2.
Proof.
  intros Hwf Hp. unfold Successor. destruct (find r _) eqn:Hf; simpl; [done|].
  constructor; [done|done|by apply find_None].
Qed.

Lemma Successor_vector r p x u :
  repo_wf r → ConvertToVector r p = Some u →
  ConvertToVector (Successor r p x).2 (Successor r p x).1 = Some (u ++ [x]).
Proof.
  intros Hwf Hu. unfold Successor. destruct (find r _) as [h|] eqn:Hf; simpl.
  - apply find_Some in Hf as (k & tl & -> & ->).
    assert (Hwf' : repo_wf (mkEntry p x :: tl)).
    { eapply repo_wf_suffix; [|done]. by apply suffix_app_r. }
    inversion Hwf' as [|? ? ? Hptl ?]; subst; simpl in *.
    rewrite (ConvertToVector_skip k (_ :: tl)); [|unfold alive; simpl; lia].
    rewrite ConvertToVector_newest. simpl.
    replace (k ++ mkEntry p x :: tl) with ((k ++ [mkEntry p x]) ++ tl) in Hu
      by by rewrite <-app_assoc.
    rewrite ConvertToVector_skip in Hu; [|done]. by rewrite Hu.
  - rewrite decide_True; [|done]. simpl. by rewrite Hu.
Qed.

Lemma Successors_spec r a v u :
  repo_wf r → ConvertToVector r a = Some u →
  let hr := Successors r a v in
  ConvertToVector hr.2 hr.1 = Some (u ++ v) ∧ repo_wf hr.2 ∧ r `suffix_of` hr.2.
Proof.
  revert r a u. induction v as [|x v IH]; intros r a u Hwf Hu; simpl.
  { by rewrite app_nil_r. }
  pose proof (Successor_vector r a x u Hwf Hu) as Hs.
  pose proof (Successor_wf r a x Hwf (ConvertToVector_alive _ _ _ Hu)) as Hwf'.
  pose proof (Successor_suffix r a x) as Hsuf.
  destruct (Successor r a x) as [a' r']; simpl in *.
  destruct (IH r' a' (u ++ [x]) Hwf' Hs) as (H1 & H2 & H3).
  rewrite <-app_assoc in H1. split_and!; [done|done|by etrans].
Qed.

Lemma ConvertFromVector_spec r v :
  repo_wf r →
  let hr := ConvertFromVector r v in
  ConvertToVector hr.2 hr.1 = Some v ∧ repo_wf hr.2 ∧ r `suffix_of` hr.2.
Proof. intros Hwf. by apply (Successors_spec r 0 v []); [|destruct r]. Qed.

End RepositoryFacts.

(** C9.  Interned sequences have one handle each: when [v] has been
    interned and [w] is interned later in the same repository, the two
    handles are identical exactly when [v = w]; [Successor] on a
    (parent, label) pair it has seen returns the handle it returned
    before and allocates nothing; and the empty sequence is [NULL]. *)
Theorem hash_consing_unique (r r' : Repo) (v w : list Z) (p : StringId) (x : Z) :
  repo_wf r → repo_wf r' →
  (ConvertFromVector r v).2 `suffix_of` r' →
  (Successor r p x).2 `suffix_of` r' →
  ((ConvertFromVector r v).1 = (ConvertFromVector r' w).1 ↔ v = w)
  ∧ Successor r' p x = ((Successor r p x).1, r')
  ∧ ConvertFromVector r [] = (EmptyString, r).
Proof.
  intros Hwf Hwf' Hsuf [k Hk]. split_and!; [| |done].
  - destruct (ConvertFromVector_spec r v Hwf) as (Hv & _ & _).
    destruct (ConvertFromVector_spec r' w Hwf') as (Hw & Hwf2 & Hsuf2).
    pose proof (ConvertToVector_suffix _ _ _ _ Hsuf Hv) as Hv'.
    pose proof (ConvertToVector_suffix _ _ _ _ Hsuf2 Hv') as Hv2.
    split.
    + intros Heq. rewrite Heq in Hv2. congruence.
    + intros <-. by eapply ConvertToVector_inj.
  - unfold Successor in *.
    set (e := mkEntry p x) in *.
    assert (Hin : ∃ k1 tl, r' = k1 ++ e :: tl ∧
              (match find r e with
               | Some h => (h, r)
               | None => (S (length r), e :: r)
               end).1 = S (length tl)).
    { destruct (find r e) as [h|] eqn:Hf; simpl in *.
      - apply find_Some in Hf as (k1 & tl & -> & ->).
        exists (k ++ k1), tl. by rewrite <-app_assoc.
      - by exists k, r. }
    destruct Hin as (k1 & tl & -> & ->).
    apply repo_wf_NoDup in Hwf'. apply NoDup_app in Hwf' as (_ & Hdisj & _).
    rewrite find_fresh_app.
    + simpl. by rewrite decide_True.
    + intros Hin. apply (Hdisj _ Hin). left.
Qed.

Lemma hash_consing_unique_witness :
  ((ConvertFromVector [] [1; 2]%Z).1
     = (ConvertFromVector Examples.repo4 [1; 2]%Z).1 ↔ [1; 2]%Z = [1; 2]%Z)
  ∧ Successor Examples.repo4 0 1
      = ((Successor [] 0 1).1, Examples.repo4)
  ∧ ConvertFromVector [] [] = (EmptyString, []).
Proof.
  apply (hash_consing_unique [] Examples.repo4 [1; 2]%Z [1; 2]%Z 0 1%Z).
  - apply repo_wf_nil.
  - unfold Examples.repo4. solve_repo_wf.
  - by exists [mkEntry 2 4; mkEntry 2 3].
  - by exists [mkEntry 2 4; mkEntry 2 3; mkEntry 1 2].
Defined.

(** ** NormalizeSubset *)

Section CommonPrefix.
Implicit Types a b q : list Z.

Lemma common_prefix_prefix_l a b : common_prefix a b `prefix_of` a.
Proof.
  revert b. induction a as [|x a IH]; intros [|y b]; simpl; try apply prefix_nil.
  case_decide; [|apply prefix_nil]. by apply prefix_cons.
Qed.

Lemma common_prefix_prefix_r a b : common_prefix a b `prefix_of` b.
Proof.
  revert b. induction a as [|x a IH]; intros [|y b]; simpl; try apply prefix_nil.
  case_decide; [|apply prefix_nil]. subst. by apply prefix_cons.
Qed.

Lemma common_prefix_greatest a b q :
  q `prefix_of` a → q `prefix_of` b → q `prefix_of` common_prefix a b.
Proof.
  revert a b. induction q as [|z q IH]; intros a b Ha Hb; [apply prefix_nil|].
  destruct a as [|x a]; [by apply prefix_nil_not in Ha|].
  destruct b as [|y b]; [by apply prefix_nil_not in Hb|].
  apply prefix_cons_inv_1 in Ha as Hx. apply prefix_cons_inv_1 in Hb as Hy.
  apply prefix_cons_inv_2 in Ha. apply prefix_cons_inv_2 in Hb. subst.
  simpl. rewrite decide_True; [|done]. apply prefix_cons. auto.
Qed.

Lemma common_prefix_take a b :
  common_prefix (take (length a) b) a = common_prefix b a.
Proof.
  revert b. induction a as [|x a IH]; intros [|y b]; simpl; try done.
  case_decide; [|done]. by rewrite IH.
Qed.

Lemma prefix_length_eq' a b : a `prefix_of` b → length a = length b → a = b.
Proof.
  intros [k ->]. rewrite length_app. intros Hl.
  destruct k; [by rewrite app_nil_r|simpl in Hl; lia].
Qed.

Lemma prefix_take a b : a `prefix_of` b → take (length a) b = a.
Proof. intros [k ->]. by rewrite take_app_length. Qed.

(** What [ReduceToCommonPrefix] leaves in [b]. *)
Lemma ReduceToCommonPrefix_eq (r : Repo) (h : StringId) a_vec b :
  ConvertToVector r h = Some a_vec →
  ReduceToCommonPrefix r h b = Done (common_prefix b a_vec).
Proof.
  intros Ha. unfold ReduceToCommonPrefix. rewrite Ha. simpl. f_equal.
  set (b1 := if decide (length a_vec < length b) then take (length a_vec) b else b).
  assert (Hb1 : common_prefix b1 a_vec = common_prefix b a_vec).
  { unfold b1. case_decide; [apply common_prefix_take|done]. }
  rewrite Hb1.
  assert (Hp : common_prefix b a_vec `prefix_of` b1).
  { rewrite <-Hb1. apply common_prefix_prefix_l. }
  case_decide as Hl.
  - symmetry. by apply prefix_length_eq'.
  - by apply prefix_take.
Qed.
End CommonPrefix.

Section NormalizeSubsetFacts.
Context {W : Type} `{!WeightOps W}.
Implicit Types (r : Repo) (elems : list (Element.t W)) (vs : list (list Z)).

Lemma strings_alive_are r elems :
  strings_alive r elems → ∃ vs, strings_are r elems vs.
Proof.
  induction 1 as [|e elems [v Hv] _ [vs IH]]; [exists []; constructor|].
  exists (v :: vs). by constructor.
Qed.

Lemma strings_are_suffix r r' elems vs :
  r `suffix_of` r' → strings_are r elems vs → strings_are r' elems vs.
Proof.
  intros Hsuf Hs. eapply Forall2_impl; [done|].
  intros e v. by apply ConvertToVector_suffix.
Qed.

Lemma normalize_sum_spec r w cp rest vs :
  strings_are r rest vs →
  normalize_sum r w cp rest =
  Done (foldl (λ w e, Plus w (Element.weight e)) w rest,
        foldl common_prefix cp vs).
Proof.
  intros Hs. revert w cp. induction Hs as [|e v rest vs Hv _ IH]; intros w cp; [done|].
  simpl. rewrite (ReduceToCommonPrefix_eq _ _ v); [|done]. simpl. apply IH.
Qed.

Lemma foldl_common_prefix_prefix cp vs : foldl common_prefix cp vs `prefix_of` cp.
Proof.
  revert cp. induction vs as [|v vs IH]; intros cp; simpl; [done|].
  etrans; [apply IH|]. apply common_prefix_prefix_l.
Qed.

Lemma foldl_common_prefix_longest v0 vs :
  longest_common_prefix (foldl common_prefix v0 vs) (v0 :: vs).
Proof.
  split.
  - constructor; [apply foldl_common_prefix_prefix|].
    revert v0. induction vs as [|v vs IH]; intros v0; simpl; constructor.
    + etrans; [apply foldl_common_prefix_prefix|]. apply common_prefix_prefix_r.
    + apply IH.
  - intros q Hq. apply Forall_cons in Hq as [Hq0 Hq].
    revert v0 Hq0. induction Hq as [|v vs Hv _ IH]; intros v0 Hq0; simpl; [done|].
    apply IH. by apply common_prefix_greatest.
Qed.

Lemma RemovePrefix_spec r a n v :
  repo_wf r → ConvertToVector r a = Some v → n ≤ length v →
  ∃ h r', RemovePrefix r a n = Done (h, r')
          ∧ ConvertToVector r' h = Some (drop n v)
          ∧ repo_wf r' ∧ r `suffix_of` r'.
Proof.
  intros Hwf Hv Hn. unfold RemovePrefix. case_decide as Hz.
  - subst. by exists a, r.
  - rewrite Hv. simpl. rewrite bool_decide_true; [|done]. simpl.
    destruct (ConvertFromVector_spec r (drop n v) Hwf) as (H1 & H2 & H3).
    unfold ConvertFromVector, EmptyString in *.
    destruct (Successors r 0 (drop n v)) as [h r'] eqn:Hs. by exists h, r'.
Qed.

Lemma normalize_elems_spec r w p elems vs :
  repo_wf r → strings_are r elems vs → Forall (λ v, p `prefix_of` v) vs →
  ∃ elems' r', normalize_elems r w (length p) elems = Done (elems', r')
    ∧ repo_wf r' ∧ r `suffix_of` r'
    ∧ Forall2 (λ e e', Element.state e' = Element.state e
                 ∧ Element.weight e' = Divide (Element.weight e) w) elems elems'
    ∧ Forall2 (λ v e', ∃ v', v = p ++ v'
                 ∧ ConvertToVector r' (Element.string e') = Some v') vs elems'.
Proof.
  revert r vs.
  induction elems as [|e elems IH]; intros r vs Hwf Hs Hp.
  { inversion Hs; subst. exists [], r. split_and!; by try constructor. }
  inversion Hs as [|? v ? vs' Hv Hs']; subst.
  apply Forall_cons in Hp as [[v' ->] Hp].
  destruct (RemovePrefix_spec r (Element.string e) (length p) (p ++ v') Hwf Hv)
    as (h & r1 & Hrp & Hh & Hwf1 & Hsuf1).
  { rewrite length_app. lia. }
  rewrite drop_app_length in Hh.
  destruct (IH r1 vs' Hwf1 (strings_are_suffix _ _ _ _ Hsuf1 Hs') Hp)
    as (elems' & r2 & Hne & Hwf2 & Hsuf2 & Hall & Hstr).
  simpl. rewrite Hrp. simpl. rewrite Hne. simpl.
  eexists _, r2. split_and!; [done|done|by etrans| |].
  - by constructor.
  - constructor; [|done]. exists v'. split; [done|].
    simpl. by eapply ConvertToVector_suffix.
Qed.

Lemma normalized_from_combine r r' w p elems vs elems' :
  strings_are r elems vs →
  Forall2 (λ e e', Element.state e' = Element.state e
             ∧ Element.weight e' = Divide (Element.weight e) w) elems elems' →
  Forall2 (λ v e', ∃ v', v = p ++ v'
             ∧ ConvertToVector r' (Element.string e') = Some v') vs elems' →
  Forall2 (normalized_from r r' w p) elems elems'.
Proof.
  intros Hs. revert elems'.
  induction Hs as [|e v elems vs Hv _ IH]; intros elems' H1 H2.
  { inversion H1. constructor. }
  inversion H1 as [|? e' ? elems1 [? ?] H1']; subst.
  inversion H2 as [|? ? ? ? (v' & -> & ?) H2']; subst.
  constructor; [|by apply IH].
  split_and!; [done|done|]. by exists v'.
Qed.

(** What [NormalizeSubset] returns when its two assertions hold. *)
Lemma NormalizeSubset_Done r elems vs :
  repo_wf r → strings_are r elems vs → elems ≠ [] → subset_sum elems ≠ Zero →
  ∃ elems' common_str r' p,
    NormalizeSubset r elems = Done (elems', common_str, subset_sum elems, r')
    ∧ ConvertToVector r' common_str = Some p
    ∧ longest_common_prefix p vs
    ∧ Forall2 (normalized_from r r' (subset_sum elems) p) elems elems'
    ∧ repo_wf r' ∧ r `suffix_of` r'.
Proof.
  intros Hwf Hs Hne Hsum. destruct Hs as [|e0 v0 rest vs Hv0 Hs]; [done|].
  unfold NormalizeSubset. rewrite Hv0. cbn [deref mbind res_bind].
  rewrite (normalize_sum_spec _ _ _ _ vs Hs). cbn [mbind res_bind].
  change (subset_sum (e0 :: rest))
    with (foldl (λ w e, Plus w (Element.weight e)) (Element.weight e0) rest) in *.
  set (tot := foldl _ _ rest) in *. set (p := foldl common_prefix v0 vs).
  rewrite bool_decide_true; [|done]. cbn [assert mbind res_bind].
  pose proof (foldl_common_prefix_longest v0 vs) as Hlcp. fold p in Hlcp.
  destruct (normalize_elems_spec r tot p (e0 :: rest) (v0 :: vs) Hwf)
    as (elems' & r1 & Hne' & Hwf1 & Hsuf1 & Hall & Hstr).
  { by constructor. }
  { apply Hlcp. }
  rewrite Hne'. cbn [mbind res_bind].
  destruct (ConvertFromVector_spec r1 p Hwf1) as (Hp & Hwf2 & Hsuf2).
  destruct (ConvertFromVector r1 p) as [common_str r2] eqn:Hc. simpl in *.
  exists elems', common_str, r2, p. split_and!; [done|done|done| |done|by etrans].
  eapply normalized_from_combine; [by constructor|done|].
  eapply Forall2_impl; [done|]. intros v e' (v' & ? & ?). exists v'.
  split; [done|]. by eapply ConvertToVector_suffix.
Qed.
End NormalizeSubsetFacts.

Section NormalizeSubsetClaims.
Context {W : Type} `{!WeightOps W}.
Implicit Types (r : Repo) (elems : list (Element.t W)).

(** C4.  On a non-empty subset whose [Plus]-total is not [Zero],
    [NormalizeSubset] returns; the weight it extracts is the [Plus]-sum of
    the weights of the elements, the string it extracts reads as the
    longest common prefix of the strings of the elements, and every
    element keeps its state, has its weight left-divided by the sum, and
    has as string its old string without that prefix. *)
Theorem NormalizeSubset_postcondition r elems :
  repo_wf r → strings_alive r elems →
  elems ≠ [] → subset_sum elems ≠ Zero →
  ∃ elems' common_str r' p vs,
    NormalizeSubset r elems = Done (elems', common_str, subset_sum elems, r')
    ∧ strings_are r elems vs
    ∧ ConvertToVector r' common_str = Some p
    ∧ longest_common_prefix p vs
    ∧ Forall2 (normalized_from r r' (subset_sum elems) p) elems elems'.
Proof.
  intros Hwf Halive Hne Hsum.
  destruct (strings_alive_are r elems Halive) as [vs Hvs].
  destruct (NormalizeSubset_Done r elems vs Hwf Hvs Hne Hsum)
    as (elems' & common_str & r' & p & Hn & Hp & Hlcp & Hall & _ & _).
  by exists elems', common_str, r', p, vs.
Qed.

(** C7.  [NormalizeSubset] ends in a failed assertion exactly when the
    subset is empty or its [Plus]-total is [Zero]; on every other subset
    it returns. *)
Theorem NormalizeSubset_assertions r elems :
  repo_wf r → strings_alive r elems →
  (NormalizeSubset r elems = Aborted ↔ elems = [] ∨ subset_sum elems = Zero)
  ∧ (elems ≠ [] → subset_sum elems ≠ Zero → is_done (NormalizeSubset r elems)).
Proof.
  intros Hwf Halive.
  destruct (strings_alive_are r elems Halive) as [vs Hvs].
  assert (Hok : elems ≠ [] → subset_sum elems ≠ Zero →
                is_done (NormalizeSubset r elems)).
  { intros Hne Hsum.
    destruct (NormalizeSubset_Done r elems vs Hwf Hvs Hne Hsum)
      as (elems' & common_str & r' & p & Hn & _). rewrite Hn. by eexists. }
  split; [|done]. split.
  - intros Habort. destruct (decide (elems = [])) as [|Hne]; [by left|].
    destruct (decide (subset_sum elems = Zero)) as [|Hsum]; [by right|].
    destruct (Hok Hne Hsum) as [? Hd]. congruence.
  - intros [->|Hsum]; [done|].
    destruct Hvs as [|e0 v0 rest vs Hv0 Hs]; [done|].
    unfold NormalizeSubset. rewrite Hv0. cbn [deref mbind res_bind].
    rewrite (normalize_sum_spec _ _ _ _ vs Hs). cbn [mbind res_bind].
    simpl in Hsum. rewrite Hsum. by rewrite bool_decide_false by auto.
Qed.

End NormalizeSubsetClaims.

Lemma NormalizeSubset_postcondition_witness :
  ∃ elems' common_str r' p vs,
    NormalizeSubset Examples.repo4 Examples.subset2
      = Done (elems', common_str, subset_sum Examples.subset2, r')
    ∧ strings_are Examples.repo4 Examples.subset2 vs
    ∧ ConvertToVector r' common_str = Some p
    ∧ longest_common_prefix p vs
    ∧ Forall2 (normalized_from Examples.repo4 r'
                 (subset_sum Examples.subset2) p) Examples.subset2 elems'.
Proof.
  apply (NormalizeSubset_postcondition Examples.repo4 Examples.subset2).
  - unfold Examples.repo4. solve_repo_wf.
  - repeat constructor; by eexists.
  - done.
  - done.
Defined.

Lemma NormalizeSubset_assertions_witness :
  (NormalizeSubset Examples.repo4 Examples.subset2 = Aborted
   ↔ Examples.subset2 = [] ∨ subset_sum Examples.subset2 = Zero)
  ∧ (Examples.subset2 ≠ [] → subset_sum Examples.subset2 ≠ Zero →
     is_done (NormalizeSubset Examples.repo4 Examples.subset2)).
Proof.
  apply (NormalizeSubset_assertions Examples.repo4 Examples.subset2).
  - unfold Examples.repo4. solve_repo_wf.
  - repeat constructor; by eexists.
Defined.

(** ** ConvertToMinimal *)

Section ConvertToMinimalFacts.
Context {W : Type} `{!WeightOps W}.
Variable ifst_ : Fst.t W.
Implicit Types (cache : list OsymbolOrFinal) (subset : list (Element.t W)).

Lemma cache_consistent_insert cache n :
  cache_consistent ifst_ cache →
  cache_consistent ifst_
    (<[n := if has_output_label ifst_ (Z.of_nat n) then OSF_YES else OSF_NO]>
       cache).
Proof.
  intros Hc m c Hm. destruct (decide (n = m)) as [->|Hne].
  - apply list_lookup_insert_Some in Hm as [(_ & <- & _)|[? _]]; [by right|done].
  - rewrite list_lookup_insert_ne in Hm by done. by apply Hc.
Qed.

Lemma cache_consistent_resize cache n :
  cache_consistent ifst_ cache →
  cache_consistent ifst_ (resize n OSF_UNKNOWN cache).
Proof.
  intros Hc m c Hm. destruct (decide (m < length cache)) as [Hlt|Hge].
  - destruct (decide (m < n)) as [Hn|Hn].
    + rewrite lookup_resize in Hm by done. by apply Hc.
    + apply lookup_lt_Some in Hm. rewrite length_resize in Hm. lia.
  - destruct (decide (m < n)) as [Hn|Hn].
    + rewrite lookup_resize_new in Hm by lia. injection Hm as <-. by left.
    + apply lookup_lt_Some in Hm. rewrite length_resize in Hm. lia.
Qed.

(** [IsOsymbolOrFinal] answers whether the state has an arc with an
    output label; the final weight of the state has no part in it. *)
Lemma IsOsymbolOrFinal_has_output_label cache (state : StateId) :
  (0 ≤ state)%Z → cache_consistent ifst_ cache →
  ∃ cache',
    IsOsymbolOrFinal ifst_ cache state
    = Done (has_output_label ifst_ state, cache')
    ∧ cache_consistent ifst_ cache'.
Proof.
  intros Hs Hc. unfold IsOsymbolOrFinal.
  rewrite bool_decide_true by done. cbn [assert mbind res_bind].
  set (n := Z.to_nat state).
  assert (Hn : Z.of_nat n = state) by (unfold n; lia).
  set (c1 := if decide (length cache ≤ n) then _ else cache).
  assert (Hc1 : cache_consistent ifst_ c1).
  { unfold c1. case_decide; [by apply cache_consistent_resize|done]. }
  assert (Hlt : n < length c1).
  { unfold c1. case_decide; [rewrite length_resize|]; lia. }
  destruct (lookup_lt_is_Some_2 _ _ Hlt) as [c Hlook]. rewrite Hlook.
  cbn [deref mbind res_bind].
  pose proof (Hc1 _ _ Hlook) as Hflag. rewrite Hn in Hflag.
  fold (has_output_label ifst_ state).
  destruct (decide (c = OSF_NO)) as [->|Hno].
  { exists c1. split; [|done]. destruct Hflag as [|Hflag]; [done|].
    by destruct (has_output_label ifst_ state). }
  destruct (decide (c = OSF_YES)) as [->|Hyes].
  { exists c1. split; [|done]. destruct Hflag as [|Hflag]; [done|].
    by destruct (has_output_label ifst_ state). }
  set (c2 := if decide (Fst.Final Zero ifst_ state ≠ Zero)
             then <[n := OSF_YES]> c1 else c1).
  assert (Hc2 : ∀ flag, <[n := flag]> c2 = <[n := flag]> c1).
  { intros flag. unfold c2. case_decide; [|done]. apply list_insert_insert_eq. }
  rewrite !Hc2.
  pose proof (cache_consistent_insert c1 n Hc1) as Hins. rewrite Hn in Hins.
  destruct (has_output_label ifst_ state); by eexists.
Qed.

(** [ConvertToMinimal] keeps the elements whose state has an arc with an
    output label, and only those. *)
Lemma ConvertToMinimal_keeps_output_labelled cache subset :
  subset ≠ [] → Forall (λ e, (0 ≤ Element.state e)%Z) subset →
  cache_consistent ifst_ cache →
  ∃ cache',
    ConvertToMinimal ifst_ cache subset
    = Done (filter (λ e, has_output_label ifst_ (Element.state e)) subset,
            cache')
    ∧ cache_consistent ifst_ cache'.
Proof.
  intros Hne Hstates Hc. unfold ConvertToMinimal.
  rewrite bool_decide_true by done. cbn [assert mbind res_bind]. clear Hne.
  revert cache Hc. induction Hstates as [|e subset He _ IH]; intros cache Hc.
  { by exists cache. }
  cbn [ConvertToMinimal_loop].
  destruct (IsOsymbolOrFinal_has_output_label cache _ He Hc)
    as (cache1 & -> & Hc1).
  cbn [mbind res_bind].
  destruct (IH cache1 Hc1) as (cache2 & -> & Hc2). cbn [mbind res_bind].
  exists cache2. split; [|done]. f_equal. f_equal.
  destruct (has_output_label ifst_ (Element.state e)) eqn:Hl.
  - rewrite filter_cons_True; [done|]. by apply Is_true_true.
  - rewrite filter_cons_False; [done|]. by apply Is_true_false.
Qed.
End ConvertToMinimalFacts.

(** C3, at a failing input.  State 0 of [final_only] is accepting, yet
    [ConvertToMinimal] removes the element of state 0: the flag set for
    the final weight is overwritten once the scan of the arcs finds no
    output label. *)
Theorem ConvertToMinimal_drops_final_state :
  Fst.Final Zero Inputs.final_only 0 ≠ Zero
  ∧ ConvertToMinimal Inputs.final_only [] [Inputs.start_elem]
    = Done ([], [OSF_NO]).
Proof. split; [discriminate|reflexivity]. Qed.

(** ** ProcessFinal *)

(** Whatever the weight type: an element with the empty string whose
    final weight compares equal to a default-constructed weight is not
    taken, although nothing has been taken before it. *)
Lemma final_loop_skips_first_candidate {W : Type} `{!WeightOps W}
    (ifst_ : Fst.t W) (r : Repo) (elem : Element.t W) :
  Fst.Final Zero ifst_ (Element.state elem) ≠ Zero →
  Element.string elem = 0 →
  Compare (Fst.Final Zero ifst_ (Element.state elem)) DefaultWeight = 0%Z →
  final_loop ifst_ r [elem] false 0 DefaultWeight
  = Done (false, 0, DefaultWeight).
Proof.
  intros Hfinal Hstr Hcmp. cbn [final_loop].
  rewrite decide_True by done. unfold ComparePair.
  rewrite Hcmp, Hstr. by decide_known.
Qed.

(** C5, at a failing input.  The only output state of [self_loop] stores
    the element of state 0, whose final weight is [One]; [ProcessFinal]
    compares it with the default-constructed [final_weight], finds it no
    greater, and records no final-marker. *)
Theorem ProcessFinal_misses_final_weight :
  ∃ det,
    LatticeDeterminizer Inputs.self_loop false 4 Examples.no_string = Done det
    ∧ output_states_ det = [[Inputs.start_elem]]
    ∧ Fst.Final Zero Inputs.self_loop (Element.state Inputs.start_elem) ≠ Zero
    ∧ ProcessFinal Inputs.self_loop det 0 = Done det
    ∧ Forall (Forall (λ temp_arc, TempArc.nextstate temp_arc ≠ kNoStateId))
             (output_arcs_ det).
Proof.
  eexists. split; [vm_compute; reflexivity|].
  split_and!; [reflexivity|discriminate|reflexivity|].
  repeat constructor; discriminate.
Qed.

(** ** Weight of the accepted sequences *)

(** C1, at a failing input.  [final_only] accepts the empty sequence with
    weight [One]; its determinization has one state, which is not final,
    so the output accepts the empty sequence with weight [Zero].  On
    [one_arc], which accepts the sequence [1], the determinizer stops at
    the assertion of [NormalizeSubset]: the subset of the final state 1
    is empty after [ConvertToMinimal]. *)
Theorem determinized_loses_accepted_sequence :
  (∃ ofst,
     DeterminizeLattice Inputs.final_only false 4 Examples.no_string
                        (Fst.mk kNoStateId []) = Done ofst
     ∧ (∀ n, accept_weight n Inputs.final_only
                           (Fst.start Inputs.final_only) [] = One)
     ∧ (∀ n, accept_weight n ofst (Fst.start ofst) [] = Zero))
  ∧ accept_weight 1 Inputs.one_arc (Fst.start Inputs.one_arc) [1%Z]
    = Tropical.Cost 2
  ∧ LatticeDeterminizer Inputs.one_arc false 4 Examples.no_string = Aborted.
Proof.
  split; [|split; reflexivity].
  eexists. split; [vm_compute; reflexivity|].
  split; intros [|n]; reflexivity.
Qed.

(** ** Output *)

(** C8, at a failing input.  The determinizer of [two_paths] holds, for
    output state 1, a transition whose string [7 9] has length 2.
    [DeterminizeLattice] calls [Output] with [destroy = true];
    [FreeMostMemory] then deletes the entries of the repository before
    the loop reads the string of the transition, so no chain is
    produced.  With [destroy = false] the transition becomes a chain of
    two arcs through the state created for it, state 3. *)
Theorem Output_reads_destroyed_strings :
  ∃ det final_arc arc1 temp_arc ofst',
    LatticeDeterminizer Inputs.two_paths false 4 Examples.no_string = Done det
    ∧ output_arcs_ det !! 1 = Some [final_arc; arc1; temp_arc]
    ∧ is_transition temp_arc
    ∧ ConvertToVector (repository_ det) (TempArc.string temp_arc)
      = Some [7; 9]%Z
    ∧ Output det (Fst.mk kNoStateId []) true = Undef
    ∧ DeterminizeLattice Inputs.two_paths false 4 Examples.no_string
                         (Fst.mk kNoStateId []) = Undef
    ∧ Output det (Fst.mk kNoStateId []) false = Done (ofst', det)
    ∧ last (Fst.Arcs ofst' 1)
      = Some (Arc.mk (TempArc.ilabel temp_arc) 7
                     (TempArc.weight temp_arc) 3)
    ∧ Fst.Arcs ofst' 3
      = [Arc.mk 0 9 One (TempArc.nextstate temp_arc)].
Proof.
  eexists _, _, _, _, _. split; [vm_compute; reflexivity|].
  split; [reflexivity|]. split; [discriminate|].
  split; [reflexivity|]. split; [reflexivity|]. split; [reflexivity|].
  split; [vm_compute; reflexivity|]. split; reflexivity.
Qed.

(** C10.  When the input has no start state, the determinizer creates no
    output state, and each of the two [Output] functions, whatever
    [destroy] is and whatever the destination holds, leaves the
    destination with no state and no start state. *)
Theorem no_start_state_gives_empty_output {W : Type} `{!WeightOps W}
    (ifst_ : Fst.t W) (sorted : bool) (fuel : nat)
    (uninitialized : StateId → Label → StringId) (destroy : bool)
    (ofst : Fst.t W) (cofst : Fst.t (@CompactWeight W)) :
  Fst.start ifst_ = kNoStateId →
  ∃ det,
    LatticeDeterminizer ifst_ sorted fuel uninitialized = Done det
    ∧ output_states_ det = [] ∧ output_arcs_ det = []
    ∧ (∃ det', Output det ofst destroy = Done (Fst.mk kNoStateId [], det'))
    ∧ (∃ det', Output_compact det cofst destroy
               = Done (Fst.mk kNoStateId [], det')).
Proof.
  intros Hstart. exists empty_det.
  unfold LatticeDeterminizer, Initialize. rewrite Hstart.
  rewrite decide_False by (intros Hne; by apply Hne).
  cbn [mbind res_bind]. unfold Determinize.
  split_and!; [by destruct fuel|done|done| |].
  - eexists. reflexivity.
  - destruct destroy; eexists; reflexivity.
Qed.

Lemma no_start_state_gives_empty_output_witness :
  ∃ det,
    LatticeDeterminizer Inputs.no_start false 4 Examples.no_string = Done det
    ∧ output_states_ det = [] ∧ output_arcs_ det = []
    ∧ (∃ det', Output det Inputs.self_loop true
               = Done (Fst.mk kNoStateId [], det'))
    ∧ (∃ det', Output_compact det (Fst.mk 0%Z []) true
               = Done (Fst.mk kNoStateId [], det')).
Proof.
  apply (no_start_state_gives_empty_output Inputs.no_start false 4
           Examples.no_string true Inputs.self_loop (Fst.mk 0%Z [])).
  reflexivity.
Defined.

(** ** Determinism of the result *)

Section Runs.
Context {W : Type}.
Implicit Types (l : list (Label * Element.t W)) (p q : Label * Element.t W).

Lemma PairComparator_true p q : PairComparator p q = true → label_le p q.
Proof.
  unfold PairComparator, label_le. repeat case_decide; try lia; done.
Qed.

Lemma PairComparator_false p q : PairComparator p q = false → label_le q p.
Proof.
  unfold PairComparator, label_le. repeat case_decide; try lia; done.
Qed.

Lemma sort_insert_HdRel p q l :
  label_le q p → HdRel label_le q l → HdRel label_le q (sort_insert p l).
Proof.
  intros Hqp Hl. destruct l as [|x l]; simpl; [by constructor|].
  destruct (PairComparator x p); constructor; [|done]. by inversion Hl.
Qed.

Lemma sort_insert_sorted p l :
  Sorted label_le l → Sorted label_le (sort_insert p l).
Proof.
  induction 1 as [|x l Hl IH Hx]; simpl; [by repeat constructor|].
  destruct (PairComparator x p) eqn:Hc.
  - constructor; [done|].
    apply sort_insert_HdRel; [by apply PairComparator_true|done].
  - constructor; [by constructor|].
    constructor. by apply PairComparator_false.
Qed.

Lemma sort_pairs_sorted l : Sorted label_le (sort_pairs l).
Proof.
  induction l as [|p l IH]; simpl; [constructor|]. by apply sort_insert_sorted.
Qed.

Lemma label_runs_head l : head (label_runs l).*1 = head l.*1.
Proof.
  destruct l as [|[il e] l]; [done|]. simpl.
  destruct (label_runs l) as [|[il' es] runs]; [done|]. by case_decide.
Qed.

Lemma label_runs_sorted l :
  Sorted label_le l → Sorted Z.lt (label_runs l).*1.
Proof.
  induction 1 as [|[il e] l Hl IH Hhd]; [constructor|]. simpl.
  pose proof (label_runs_head l) as Hh.
  destruct (label_runs l) as [|[il' es] runs]; [by repeat constructor|].
  case_decide as Heq; simpl in *.
  - subst. done.
  - constructor; [done|]. constructor.
    destruct l as [|[il0 e0] l]; [done|]. simpl in Hh. injection Hh as ->.
    inversion Hhd as [|? ? Hle]; subst. unfold label_le in Hle. simpl in Hle. lia.
Qed.

Lemma Sorted_lt_NoDup (ls : list Z) : Sorted Z.lt ls → NoDup ls.
Proof.
  intros Hs. apply Sorted_StronglySorted in Hs; [|apply _].
  induction Hs as [|x ls _ IH Hx]; constructor; [|done].
  intros Hin. rewrite Forall_forall in Hx. specialize (Hx _ Hin). lia.
Qed.

(** The ranges [ProcessTransitions] hands to [ProcessTransition] have
    pairwise different input symbols. *)
Lemma label_runs_NoDup l : NoDup (label_runs (sort_pairs l)).*1.
Proof. apply Sorted_lt_NoDup, label_runs_sorted, sort_pairs_sorted. Qed.

(** The candidates come from arcs that read a symbol. *)
Lemma collect_arcs_labels `{!WeightOps W} r (elem : Element.t W) arcs :
  Forall (λ p, p.1 ≠ 0%Z) (collect_arcs r elem arcs).1.
Proof.
  revert r. induction arcs as [|arc arcs IH]; intros r; simpl; [constructor|].
  destruct (bool_decide (Arc.ilabel arc ≠ 0%Z)) eqn:Hl; simpl; [|apply IH].
  destruct (bool_decide (Arc.weight arc ≠ Zero)); simpl; [|apply IH].
  destruct (next_string r elem arc) as [str r1].
  specialize (IH r1). destruct (collect_arcs r1 elem arcs) as [more r2].
  simpl in *. constructor; [|done]. simpl. by apply bool_decide_eq_true in Hl.
Qed.

Lemma collect_elems_labels `{!WeightOps W} (ifst_ : Fst.t W) r subset :
  Forall (λ p, p.1 ≠ 0%Z) (collect_elems ifst_ r subset).1.
Proof.
  revert r. induction subset as [|elem subset IH]; intros r; simpl; [constructor|].
  pose proof (collect_arcs_labels r elem (Fst.Arcs ifst_ (Element.state elem)))
    as Hhere.
  destruct (collect_arcs _ _ _) as [here r1]. specialize (IH r1).
  destruct (collect_elems _ _ _) as [more r2]. simpl in *.
  by apply Forall_app.
Qed.

Lemma sort_insert_Forall (P : Label * Element.t W → Prop) p l :
  P p → Forall P l → Forall P (sort_insert p l).
Proof.
  intros Hp. induction 1 as [|q l Hq Hl IH]; simpl; [by constructor|].
  destruct (PairComparator q p); constructor; try done. by constructor.
Qed.

Lemma sort_pairs_Forall (P : Label * Element.t W → Prop) l :
  Forall P l → Forall P (sort_pairs l).
Proof.
  induction 1 as [|p l Hp _ IH]; simpl; [constructor|].
  by apply sort_insert_Forall.
Qed.

Lemma label_runs_Forall (P : Label → Prop) l :
  Forall (λ p, P p.1) l → Forall P (label_runs l).*1.
Proof.
  induction 1 as [|[il e] l Hp _ IH]; simpl; [constructor|].
  destruct (label_runs l) as [|[il' es] runs]; [by repeat constructor|].
  case_decide; simpl in *; [|by constructor].
  inversion IH; subst. by constructor.
Qed.
End Runs.

Section Invariant.
Context {W : Type} `{!WeightOps W}.
Variable ifst_ : Fst.t W.
Variable sorted : bool.
Variable fuel : nat.
Variable uninitialized : StateId → Label → StringId.

Implicit Types (det : Det W) (s q : StateId) (table : list (list (TempArc.t W))).

Lemma hash_find_elem {V} (h : list (list (Element.t W) * V)) subset v :
  hash_find h subset = Some v → ∃ k, (k, v) ∈ h.
Proof.
  induction h as [|[k v'] h IH]; simpl; [done|].
  destruct (SubsetEqual k subset).
  - intros [= ->]. exists k. left.
  - intros (k' & ?)%IH. exists k'. by right.
Qed.

Lemma row_ok_deterministic (row : list (TempArc.t W)) :
  row_ok row → NoDup (transition_labels row).
Proof.
  intros (fin & tas & -> & _ & Hfin & Htas & Hnd). unfold transition_labels.
  rewrite filter_app, fmap_app.
  replace (filter is_transition fin) with ([] : list (TempArc.t W)).
  - simpl. eapply sublist_NoDup; [done|]. apply fmap_sublist, sublist_filter.
  - symmetry. clear -Hfin. induction Hfin as [|t fin Ht _ IH]; [done|].
    by rewrite filter_cons_False.
Qed.

Lemma MinimalToStateId_expanding s det subset :
  expanding s det →
  expanding s (MinimalToStateId det subset).2
  ∧ output_arcs_ (MinimalToStateId det subset).2 !! Z.to_nat s
    = output_arcs_ det !! Z.to_nat s
  ∧ (0 ≤ (MinimalToStateId det subset).1)%Z.
Proof.
  intros Hex. pose proof Hex as ((Hs & Hsome & Hnd & Hq & Hdet) & Hmin & Hini).
  unfold MinimalToStateId.
  destruct (hash_find _ _) as [ans|] eqn:Hfind; simpl.
  { split_and!; [done|done|]. apply hash_find_elem in Hfind as [k Hk].
    rewrite Forall_forall in Hmin. apply (Hmin _ Hk). }
  pose proof Hsome as Hlt. apply lookup_lt_is_Some in Hlt.
  split_and!; [|by rewrite lookup_app_l|lia].
  split; [|split; simpl; [constructor; [simpl; lia|done]|done]].
  unfold expanding_at; simpl. split_and!.
  - done.
  - rewrite lookup_app_l; done.
  - constructor; [|done]. intros Hin. destruct (Hq _ Hin) as (_ & _ & Hl).
    apply lookup_lt_Some in Hl. lia.
  - intros q [->|Hin]%elem_of_cons.
    + split_and!; [lia|lia|]. rewrite Nat2Z.id.
      by rewrite lookup_app_r, Nat.sub_diag.
    + destruct (Hq _ Hin) as (? & ? & Hl). split_and!; [done|done|].
      rewrite lookup_app_l; [done|]. by eapply lookup_lt_Some.
  - intros n arcs Hn [[_ Hl]|[_ <-]]%lookup_snoc_Some; [eauto|].
    exists [], []. split_and!; by try constructor.
Qed.

Lemma InitialToStateId_expanding s det subset_in ans out det' :
  expanding s det →
  InitialToStateId ifst_ sorted fuel det subset_in = Done (ans, out, det') →
  expanding s det'
  ∧ output_arcs_ det' !! Z.to_nat s = output_arcs_ det !! Z.to_nat s
  ∧ (0 ≤ ans)%Z.
Proof.
  intros Hex. unfold InitialToStateId.
  destruct (hash_find _ _) as [elem|] eqn:Hfind.
  { intros [= <- <- <-]. split_and!; [done|done|].
    apply hash_find_elem in Hfind as [k Hk].
    destruct Hex as (_ & _ & Hini). rewrite Forall_forall in Hini.
    apply (Hini _ Hk). }
  destruct (EpsilonClosure _ _ _ _ _) as [[r subset]| | |]; try done.
  cbn [mbind res_bind].
  destruct (ConvertToMinimal _ _ _) as [[subset1 cache]| | |]; try done.
  cbn [mbind res_bind].
  destruct (NormalizeSubset _ _) as [[[[subset2 str] w] r2]| | |]; try done.
  cbn [mbind res_bind].
  set (det1 := set_osymbol_or_final (set_repository det r2) cache).
  pose proof (MinimalToStateId_expanding s det1 subset2 Hex) as (H1 & H2 & H3).
  destruct (MinimalToStateId det1 subset2) as [ans' det2].
  intros [= <- <- <-]. simpl in *. split_and!; [|done|done].
  destruct H1 as (Htab & Hmin & Hini). split; [done|].
  split; simpl; [done|]. by constructor.
Qed.

Lemma push_arc_expanding s det temp_arc old det' :
  expanding s det →
  output_arcs_ det !! Z.to_nat s = Some old →
  push_arc det s temp_arc = Done det' →
  expanding s det'
  ∧ output_arcs_ det' !! Z.to_nat s = Some (old ++ [temp_arc]).
Proof.
  intros ((Hs & Hsome & Hnd & Hq & Hdet) & Hhash) Hold. unfold push_arc.
  rewrite bool_decide_true by done. rewrite Hold. cbn.
  intros [= <-]. simpl.
  pose proof Hsome as Hlt. apply lookup_lt_is_Some in Hlt.
  split; [|by rewrite list_lookup_insert_eq].
  split; [|done].
  unfold expanding_at; simpl. split_and!; [done| |done| |].
  - by rewrite list_lookup_insert_eq.
  - intros q Hin. destruct (Hq _ Hin) as (? & ? & Hl). split_and!; [done|done|].
    rewrite list_lookup_insert_ne; [done|]. lia.
  - intros n arcs Hn. rewrite list_lookup_insert_ne by done. eauto.
Qed.

Lemma ProcessTransition_expanding s det ilabel subset old det' :
  expanding s det →
  output_arcs_ det !! Z.to_nat s = Some old →
  ProcessTransition ifst_ sorted fuel uninitialized det s ilabel subset
    = Done det' →
  expanding s det'
  ∧ ∃ temp_arc, output_arcs_ det' !! Z.to_nat s = Some (old ++ [temp_arc])
                ∧ TempArc.ilabel temp_arc = ilabel
                ∧ is_transition temp_arc.
Proof.
  intros Hex Hold. unfold ProcessTransition.
  destruct (MakeSubsetUnique _ _) as [subset1| | |]; try done.
  cbn [mbind res_bind].
  destruct (NormalizeSubset _ _) as [[[[subset2 str] w] r2]| | |]; try done.
  cbn [mbind res_bind].
  destruct (InitialToStateId _ _ _ _ _) as [[[ans out] det1]| | |] eqn:Hi;
    try done.
  cbn [mbind res_bind].
  apply InitialToStateId_expanding with (s := s) in Hi as (Hex1 & Hs1 & Hans);
    [|done].
  simpl in Hs1. rewrite Hold in Hs1.
  destruct (match out with
            | Assigned w0 s0 => (w0, s0)
            | Unassigned => (DefaultWeight, uninitialized s ilabel)
            end) as [next_w next_str].
  destruct (Concatenate _ _ _) as [[str' r3]| | |]; try done.
  cbn [mbind res_bind]. intros Hpush.
  eapply push_arc_expanding in Hpush as [Hex2 Hs2]; [|done|done].
  split; [done|]. eexists. split_and!; [done|done|].
  unfold is_transition, kNoStateId. simpl. lia.
Qed.

Lemma process_runs_expanding s runs det old det' :
  expanding s det →
  output_arcs_ det !! Z.to_nat s = Some old →
  process_runs ifst_ sorted fuel uninitialized det s runs = Done det' →
  expanding s det'
  ∧ ∃ new, output_arcs_ det' !! Z.to_nat s = Some (old ++ new)
           ∧ TempArc.ilabel <$> new = runs.*1
           ∧ Forall is_transition new.
Proof.
  revert det old. induction runs as [|[ilabel this_subset] runs IH];
    intros det old Hex Hold; simpl.
  { intros [= <-]. split; [done|]. exists []. by rewrite app_nil_r. }
  destruct (ProcessTransition _ _ _ _ _ _ _ _) as [det1| | |] eqn:Hp; try done.
  cbn [mbind res_bind]. intros Hrest.
  eapply ProcessTransition_expanding in Hp as (Hex1 & ta & Hs1 & Hta & Htr);
    [|done|done].
  destruct (IH _ _ Hex1 Hs1 Hrest) as (Hex2 & new & Hs2 & Hnew & Hall).
  split; [done|]. exists (ta :: new). rewrite <-app_assoc in Hs2.
  split_and!; [done| |by constructor]. rewrite fmap_cons. by rewrite Hta, Hnew.
Qed.

Lemma ProcessFinal_expanding s det old det' :
  expanding s det →
  output_arcs_ det !! Z.to_nat s = Some old →
  ProcessFinal ifst_ det s = Done det' →
  expanding s det'
  ∧ ∃ fin, output_arcs_ det' !! Z.to_nat s = Some (old ++ fin)
           ∧ length fin ≤ 1 ∧ Forall (λ t, ¬ is_transition t) fin.
Proof.
  intros Hex Hold. unfold ProcessFinal.
  destruct (deref _) as [minimal_subset| | |]; try done. cbn [mbind res_bind].
  destruct (final_loop _ _ _ _ _ _) as [[[is_final str] w]| | |]; try done.
  cbn [mbind res_bind]. destruct is_final.
  - intros Hpush. eapply push_arc_expanding in Hpush as [Hex1 Hs1]; [|done|done].
    split; [done|]. eexists [_]. split_and!; [done|done|].
    constructor; [|done]. unfold is_transition. simpl. auto.
  - intros [= <-]. split; [done|]. exists []. rewrite app_nil_r.
    split_and!; [done|simpl; lia|done].
Qed.

Lemma ProcessState_expanding s det det' :
  expanding s det →
  output_arcs_ det !! Z.to_nat s = Some [] →
  ProcessState ifst_ sorted fuel uninitialized det s = Done det' →
  expanding s det'
  ∧ ∃ arcs, output_arcs_ det' !! Z.to_nat s = Some arcs ∧ row_ok arcs.
Proof.
  intros Hex Hold. unfold ProcessState.
  destruct (ProcessFinal _ _ _) as [det1| | |] eqn:Hf; try done.
  cbn [mbind res_bind].
  eapply ProcessFinal_expanding in Hf as (Hex1 & fin & Hs1 & Hlen & Hfin);
    [|done|done].
  unfold ProcessTransitions.
  destruct (deref _) as [minimal_subset| | |]; try done. cbn [mbind res_bind].
  pose proof (collect_elems_labels ifst_ (repository_ det1) minimal_subset)
    as Hlabels.
  destruct (collect_elems _ _ _) as [all_elems r]. simpl in Hlabels.
  intros Hruns.
  eapply process_runs_expanding in Hruns as (Hex2 & new & Hs2 & Hnew & Htr);
    [|exact Hex1|exact Hs1].
  split; [done|]. eexists. split; [done|].
  exists fin, new. split_and!; [done|done|done| |].
  - apply sort_pairs_Forall in Hlabels.
    apply (label_runs_Forall (λ il, il ≠ 0%Z)) in Hlabels as Hne.
    rewrite <-Hnew in Hne. clear -Htr Hne.
    induction Htr as [|t new Ht _ IH]; [constructor|].
    apply Forall_cons in Hne as [? ?]. constructor; auto.
  - rewrite Hnew. apply label_runs_NoDup.
Qed.

Lemma Determinize_loop_between n det det' :
  between_states det →
  Determinize_loop ifst_ sorted fuel uninitialized n det = Done det' →
  between_states det'.
Proof.
  revert det. induction n as [|n IH]; intros det (Hnd & Hq & Hdet & Hhash);
    simpl; destruct (queue_ det) as [|s queue'] eqn:Hqueue;
    try done; try (by intros [= <-]; split_and!; rewrite ?Hqueue).
  destruct (ProcessState _ _ _ _ _ _) as [det1| | |] eqn:Hp; try done.
  cbn [mbind res_bind]. intros Hloop. apply IH in Hloop; [done|].
  apply NoDup_cons in Hnd as [Hs Hnd'].
  destruct (Hq s) as [Hs0 Hsl]; [left|].
  assert (Hex : expanding s (set_queue det queue')).
  { split; [|done].
    unfold expanding_at; simpl. split_and!; [done|by eexists|done| |].
    - intros q Hin. destruct (Hq q) as [? ?]; [by right|].
      split_and!; [done|by intros ->|done].
    - intros n' arcs _ Hl. by eapply (Forall_lookup_1 _ _ _ _ Hdet). }
  eapply ProcessState_expanding in Hp as (Hex1 & arcs & Hs1 & Harcs);
    [|done|done].
  destruct Hex1 as ((_ & _ & Hnd1 & Hq1 & Hdet1) & Hhash1).
  split_and!; [done| | |done].
  - intros q Hin. destruct (Hq1 _ Hin) as (? & _ & ?). done.
  - apply Forall_lookup_2. intros n' arcs' Hl.
    destruct (decide (n' = Z.to_nat s)) as [->|Hne]; [|eauto].
    rewrite Hs1 in Hl. by injection Hl as <-.
Qed.

Lemma Initialize_between det :
  Initialize ifst_ sorted fuel empty_det = Done det → between_states det.
Proof.
  unfold Initialize. case_decide.
  - destruct (EpsilonClosure _ _ _ _ _) as [[r subset]| | |]; try done.
    cbn [mbind res_bind].
    destruct (ConvertToMinimal _ _ _) as [[subset1 cache]| | |]; try done.
    cbn. intros [= <-]. unfold between_states; simpl. split_and!.
    + apply NoDup_singleton.
    + by intros q ->%list_elem_of_singleton.
    + constructor; [|done]. exists [], []. split_and!; by try constructor.
    + split; simpl; [by repeat constructor|done].
  - intros [= <-]. unfold between_states; simpl.
    split_and!; [constructor|by intros q ?%elem_of_nil|constructor|by split].
Qed.

(** The table of a finished determinizer. *)
Lemma LatticeDeterminizer_rows det :
  LatticeDeterminizer ifst_ sorted fuel uninitialized = Done det →
  Forall row_ok (output_arcs_ det).
Proof.
  unfold LatticeDeterminizer, Determinize.
  destruct (Initialize _ _ _ _) as [det0| | |] eqn:Hi; try done.
  cbn [mbind res_bind]. intros Hd. apply Initialize_between in Hi.
  by apply (Determinize_loop_between _ _ _ Hi) in Hd as (_ & _ & ? & _).
Qed.

Lemma LatticeDeterminizer_deterministic det :
  LatticeDeterminizer ifst_ sorted fuel uninitialized = Done det →
  deterministic_table (output_arcs_ det).
Proof.
  intros Hrows%LatticeDeterminizer_rows. unfold deterministic_table.
  eapply Forall_impl; [done|]. apply row_ok_deterministic.
Qed.
End Invariant.

Section CompactOutput.
Context {W : Type} `{!WeightOps W}.
Implicit Types (ofst : Fst.t (@CompactWeight W)) (row : list (TempArc.t W)).

Lemma add_states_states {A} (zero : A) n s (f f' : Fst.t A) :
  add_states zero n s f = Done f' →
  Fst.states f' = Fst.states f ++ replicate n (Fst.mkState zero [])
  ∧ Fst.start f' = Fst.start f.
Proof.
  revert s f. induction n as [|n IH]; intros s f; simpl.
  { intros [= <-]. by rewrite app_nil_r. }
  destruct (assert _); try done. cbn [mbind res_bind]. intros Hn.
  apply IH in Hn as [-> ->]. simpl. by rewrite <-app_assoc.
Qed.

Lemma output_compact_arcs_states r ofst s row ofst' :
  output_compact_arcs r ofst s row = Done ofst' →
  length (Fst.states ofst') = length (Fst.states ofst)
  ∧ (∀ j, j ≠ Z.to_nat s → Fst.states ofst' !! j = Fst.states ofst !! j)
  ∧ (∀ st, Fst.states ofst !! Z.to_nat s = Some st →
       ∃ st', Fst.states ofst' !! Z.to_nat s = Some st'
              ∧ Arc.ilabel <$> Fst.arcs st'
                = (Arc.ilabel <$> Fst.arcs st) ++ transition_labels row).
Proof.
  revert ofst. induction row as [|temp_arc row IH]; intros ofst; simpl.
  { intros [= <-]. split_and!; [done|done|]. intros st Hst. exists st.
    by rewrite app_nil_r. }
  destruct (deref _) as [seq| | |]; try done. cbn [mbind res_bind].
  unfold transition_labels. case_decide as Hfinal; intros Hrest;
    apply IH in Hrest as (Hlen & Hother & Hthis); simpl in *;
    rewrite length_alter in Hlen.
  - rewrite filter_cons_False by (unfold is_transition; auto).
    split_and!; [done| |].
    + intros j Hj. rewrite Hother by done. by rewrite list_lookup_alter_ne.
    + intros st Hst.
      destruct (Hthis (Fst.mkState (TempArc.weight temp_arc, seq) (Fst.arcs st)))
        as (st' & ? & ?); [|by exists st'].
      by rewrite list_lookup_alter_eq, Hst.
  - rewrite filter_cons_True by done.
    split_and!; [done| |].
    + intros j Hj. rewrite Hother by done. by rewrite list_lookup_alter_ne.
    + intros st Hst.
      edestruct Hthis as (st' & Hst' & Hl).
      { by rewrite list_lookup_alter_eq, Hst. }
      exists st'. split; [done|]. rewrite Hl. simpl.
      rewrite fmap_app, fmap_cons. simpl. by rewrite <-app_assoc.
Qed.

Lemma output_compact_states_deterministic r ofst i rows ofst' :
  (0 ≤ i)%Z →
  (∀ j st, Fst.states ofst !! j = Some st →
           if decide (j < Z.to_nat i) then NoDup (Arc.ilabel <$> Fst.arcs st)
           else Fst.arcs st = []) →
  deterministic_table rows →
  output_compact_states r ofst i rows = Done ofst' →
  deterministic_fst ofst'.
Proof.
  revert ofst i. induction rows as [|row rows IH]; intros ofst i Hi Hst Hdet; simpl.
  { intros [= <-]. apply Forall_lookup_2. intros j st Hj.
    specialize (Hst j st Hj). case_decide; [done|]. rewrite Hst. constructor. }
  destruct (output_compact_arcs _ _ _ _) as [ofst1| | |] eqn:Hrow; try done.
  cbn [mbind res_bind]. apply Forall_cons in Hdet as [Hrow_det Hdet].
  apply output_compact_arcs_states in Hrow as (Hlen & Hother & Hthis).
  apply IH; [lia| |done].
  intros j st Hj. destruct (decide (j = Z.to_nat i)) as [->|Hne].
  - rewrite decide_True by lia.
    destruct (lookup_lt_is_Some_2 (Fst.states ofst) (Z.to_nat i)) as [st0 Hst0].
    { rewrite <-Hlen. by eapply lookup_lt_Some. }
    destruct (Hthis _ Hst0) as (st' & Hst' & Hl). simplify_eq.
    rewrite Hl. specialize (Hst _ _ Hst0). rewrite decide_False in Hst by lia.
    by rewrite Hst.
  - rewrite Hother in Hj by done. specialize (Hst _ _ Hj).
    repeat case_decide; try done; try lia.
Qed.

Lemma Output_compact_deterministic (det : Det W) ofst destroy ofst' det' :
  deterministic_table (output_arcs_ det) →
  Output_compact det ofst destroy = Done (ofst', det') →
  deterministic_fst ofst'.
Proof.
  intros Hdet. unfold Output_compact. case_decide.
  { intros [= <- _]. constructor. }
  destruct (add_states _ _ _ _) as [ofst1| | |] eqn:Hadd; try done.
  cbn [mbind res_bind]. apply add_states_states in Hadd as [Hst _].
  destruct (output_compact_states _ _ _ _) as [ofst2| | |] eqn:Hout; try done.
  cbn [mbind res_bind]. intros [= <- _].
  eapply output_compact_states_deterministic in Hout; [done|done| |].
  - intros j st Hj. simpl in Hj. rewrite Hst in Hj. simpl in Hj.
    apply lookup_replicate_1 in Hj as [-> _].
    destruct (decide _); [constructor|done].
  - by destruct destroy.
Qed.
End CompactOutput.

Section Chains.
Context {W : Type} `{!WeightOps W}.
Implicit Types (ofst : Fst.t W) (seq : list Z) (cur dest : StateId).

Lemma arc_chain_states ilabel w dest seq ofst cur i :
  seq ≠ [] → (0 ≤ cur)%Z → Z.to_nat cur < length (Fst.states ofst) →
  ∃ a0 rest,
    chain_arcs (length (Fst.states ofst)) i ilabel w dest seq = a0 :: rest
    ∧ Fst.states
        (Fst.AddArc (arc_chain ofst cur i ilabel w seq).1
           (arc_chain ofst cur i ilabel w seq).2
           (Arc.mk (if decide (i + (length seq - 1) = 0) then ilabel else 0%Z)
                   (List.last seq 0%Z)
                   (if decide (i + (length seq - 1) = 0) then w else One)
                   dest))
      = alter (Fst.push_arc a0) (Z.to_nat cur) (Fst.states ofst)
        ++ (chain_state <$> rest).
Proof.
  revert ofst cur i. induction seq as [|l seq IH]; intros ofst cur i Hne Hcur Hlt;
    [done|].
  destruct seq as [|l2 seq].
  { eexists _, []. split; [reflexivity|]. simpl. rewrite app_nil_r.
    by rewrite Nat.add_0_r. }
  set (n := length (Fst.states ofst)).
  set (a0 := Arc.mk (if decide (i = 0) then ilabel else 0%Z) l
                    (if decide (i = 0) then w else One) (Z.of_nat n)).
  set (ofst1 := Fst.AddArc (Fst.AddState Zero ofst).2 cur a0).
  assert (Hst1 : Fst.states ofst1
            = alter (Fst.push_arc a0) (Z.to_nat cur) (Fst.states ofst)
              ++ [Fst.mkState Zero []]).
  { unfold ofst1. simpl. by rewrite alter_app_l. }
  assert (Hn1 : length (Fst.states ofst1) = S n).
  { rewrite Hst1, length_app, length_alter. simpl. fold n. lia. }
  assert (Harc : arc_chain ofst cur i ilabel w (l :: l2 :: seq)
                 = arc_chain ofst1 (Z.of_nat n) (S i) ilabel w (l2 :: seq))
    by reflexivity.
  clearbody ofst1.
  destruct (IH ofst1 (Z.of_nat n) (S i)) as (a1 & rest & Hchain & Hstates).
  { done. } { lia. } { rewrite Hn1, Nat2Z.id. lia. }
  exists (Arc.mk (if decide (i + 0 = 0) then ilabel else 0%Z) l
                 (if decide (i + 0 = 0) then w else One) (Z.of_nat (n + 0))),
         (a1 :: rest).
  split.
  - unfold chain_arcs in *. rewrite imap_cons. f_equal.
    rewrite <-Hchain, Hn1. apply imap_ext. intros k x _. simpl.
    repeat case_decide; try lia; f_equal; lia.
  - rewrite Harc.
    replace (i + (length (l :: l2 :: seq) - 1))
      with (S i + (length (l2 :: seq) - 1)) by (simpl; lia).
    change (List.last (l :: l2 :: seq) 0%Z) with (List.last (l2 :: seq) 0%Z).
    rewrite Hstates, Hst1, Nat2Z.id.
    rewrite alter_app_r_alt by (rewrite length_alter; fold n; lia).
    rewrite length_alter. fold n. rewrite Nat.sub_diag. simpl.
    rewrite <-app_assoc. simpl. by rewrite !Nat.add_0_r.
Qed.
Lemma final_chain_arcs_cons n i w l seq :
  final_chain_arcs n i w (l :: seq)
  = Arc.mk 0%Z l (if decide (i = 0) then w else One) (Z.of_nat n)
    :: final_chain_arcs (S n) (S i) w seq.
Proof.
  unfold final_chain_arcs. rewrite imap_cons. f_equal.
  - by rewrite !Nat.add_0_r.
  - apply imap_ext. intros k x _. simpl.
    repeat case_decide; try lia; f_equal; lia.
Qed.

Lemma final_chain_states w fw seq ofst cur i :
  (0 ≤ cur)%Z → Z.to_nat cur < length (Fst.states ofst) →
  Fst.states
    (Fst.SetFinal (final_chain ofst cur i w seq).1
                  (final_chain ofst cur i w seq).2 fw)
  = match final_chain_arcs (length (Fst.states ofst)) i w seq with
    | [] => alter (Fst.set_final fw) (Z.to_nat cur) (Fst.states ofst)
    | a0 :: rest =>
        alter (Fst.push_arc a0) (Z.to_nat cur) (Fst.states ofst)
        ++ (chain_state <$> rest) ++ [Fst.mkState fw []]
    end.
Proof.
  revert ofst cur i. induction seq as [|l seq IH]; intros ofst cur i Hcur Hlt;
    [done|].
  set (n := length (Fst.states ofst)).
  set (a0 := Arc.mk 0%Z l (if decide (i = 0) then w else One) (Z.of_nat n)).
  set (ofst1 := Fst.AddArc (Fst.AddState Zero ofst).2 cur a0).
  assert (Hst1 : Fst.states ofst1
            = alter (Fst.push_arc a0) (Z.to_nat cur) (Fst.states ofst)
              ++ [Fst.mkState Zero []]).
  { unfold ofst1. simpl. by rewrite alter_app_l. }
  assert (Hn1 : length (Fst.states ofst1) = S n).
  { rewrite Hst1, length_app, length_alter. simpl. fold n. lia. }
  assert (Hchain : final_chain ofst cur i w (l :: seq)
                   = final_chain ofst1 (Z.of_nat n) (S i) w seq)
    by reflexivity.
  clearbody ofst1.
  rewrite Hchain, IH; [|lia|rewrite Hn1, Nat2Z.id; lia].
  rewrite final_chain_arcs_cons, Hn1, Hst1, Nat2Z.id. fold a0.
  destruct (final_chain_arcs (S n) (S i) w seq) as [|a1 rest].
  - rewrite alter_app_r_alt by (rewrite length_alter; fold n; lia).
    rewrite length_alter. fold n. by rewrite Nat.sub_diag.
  - rewrite alter_app_r_alt by (rewrite length_alter; fold n; lia).
    rewrite length_alter. fold n. rewrite Nat.sub_diag. simpl.
    by rewrite <-app_assoc.
Qed.

(** How [Output] lays out one [TempArc] in the destination FST. *)
Lemma output_temp_arc_chain ofst this_state (temp_arc : TempArc.t W) seq :
  (0 ≤ this_state)%Z → Z.to_nat this_state < length (Fst.states ofst) →
  let n := length (Fst.states ofst) in
  Fst.states (output_temp_arc ofst this_state temp_arc seq)
  = if decide (TempArc.nextstate temp_arc = kNoStateId) then
      match final_chain_arcs n 0 (TempArc.weight temp_arc) seq with
      | [] => alter (Fst.set_final (TempArc.weight temp_arc))
                    (Z.to_nat this_state) (Fst.states ofst)
      | a0 :: rest =>
          alter (Fst.push_arc a0) (Z.to_nat this_state) (Fst.states ofst)
          ++ (chain_state <$> rest) ++ [Fst.mkState One []]
      end
    else
      match chain_arcs n 0 (TempArc.ilabel temp_arc) (TempArc.weight temp_arc)
                       (TempArc.nextstate temp_arc) seq with
      | [] => alter (Fst.push_arc
                       (Arc.mk (TempArc.ilabel temp_arc) 0%Z
                               (TempArc.weight temp_arc)
                               (TempArc.nextstate temp_arc)))
                    (Z.to_nat this_state) (Fst.states ofst)
      | a0 :: rest =>
          alter (Fst.push_arc a0) (Z.to_nat this_state) (Fst.states ofst)
          ++ (chain_state <$> rest)
      end.
Proof.
  intros Hs Hlt n. unfold output_temp_arc. case_decide as Hfinal.
  - pose proof (final_chain_states (TempArc.weight temp_arc)
                  (if decide (length seq = 0) then TempArc.weight temp_arc
                   else One) seq ofst this_state 0 Hs Hlt) as Hch.
    destruct (final_chain _ _ _ _ _) as [ofst' cur'].
    cbn [fst snd] in Hch. cbn beta iota. rewrite Hch. fold n.
    destruct seq; done.
  - destruct (decide (seq = [])) as [->|Hne]; [done|].
    destruct (arc_chain_states (TempArc.ilabel temp_arc)
                (TempArc.weight temp_arc) (TempArc.nextstate temp_arc)
                seq ofst this_state 0 Hne Hs Hlt) as (a0 & rest & Hch & Hst).
    fold n in Hch. rewrite Hch.
    destruct (arc_chain _ _ _ _ _ _) as [ofst' cur'].
    cbn [fst snd] in Hst. cbn beta iota. rewrite <-Hst.
    destruct seq as [|l seq]; [done|].
    repeat f_equal; repeat case_decide; simpl in *; try lia; done.
Qed.
End Chains.

Section ExpandedOutput.
Context {W : Type} `{!WeightOps W}.
Implicit Types (ofst : Fst.t W) (row : list (TempArc.t W)) (seq : list Z).

Lemma state_labels_set_final (w : W) st :
  state_labels (Fst.set_final w st) = state_labels st ++ [].
Proof. by rewrite app_nil_r. Qed.

Lemma state_labels_push_arc (a : Arc.t W) st :
  state_labels (Fst.push_arc a st) = state_labels st ++ [Arc.ilabel a].
Proof. unfold state_labels. simpl. by rewrite fmap_app. Qed.

Lemma chain_state_labels (arcs : list (Arc.t W)) :
  Forall (λ ls : list Label, length ls ≤ 1)
         (state_labels <$> (chain_state <$> arcs)).
Proof. induction arcs; simpl; constructor; [simpl; lia|done]. Qed.

Lemma output_temp_arc_labels ofst this_state (temp_arc : TempArc.t W) seq :
  (0 ≤ this_state)%Z → Z.to_nat this_state < length (Fst.states ofst) →
  ∃ new fresh,
    state_labels <$> Fst.states (output_temp_arc ofst this_state temp_arc seq)
    = alter (λ ls, ls ++ new) (Z.to_nat this_state)
            (state_labels <$> Fst.states ofst) ++ fresh
    ∧ new `sublist_of` [first_label temp_arc]
    ∧ Forall (λ ls : list Label, length ls ≤ 1) fresh.
Proof.
  intros Hs Hlt. rewrite output_temp_arc_chain by done.
  unfold first_label, is_transition. case_decide as Hfinal.
  - rewrite decide_False by auto.
    destruct seq as [|l seq].
    + simpl. exists [], []. rewrite app_nil_r. split_and!; [|by constructor|done].
      apply list_fmap_alter, Forall_forall. intros st _.
      apply state_labels_set_final.
    + rewrite final_chain_arcs_cons.
      eexists [0%Z], _. rewrite !fmap_app. split_and!; [| |].
      * f_equal. apply list_fmap_alter, Forall_forall. intros st _.
        by rewrite state_labels_push_arc.
      * done.
      * apply Forall_app. split; [apply chain_state_labels|].
        constructor; [simpl; lia|done].
  - rewrite decide_True by done.
    destruct seq as [|l seq].
    + exists [TempArc.ilabel temp_arc], []. rewrite app_nil_r.
      split_and!; [|done|done].
      apply list_fmap_alter, Forall_forall. intros st _.
      by rewrite state_labels_push_arc.
    + unfold chain_arcs. rewrite imap_cons.
      eexists [TempArc.ilabel temp_arc], _. rewrite !fmap_app.
      split_and!; [| |apply chain_state_labels]; [|done].
      f_equal. apply list_fmap_alter, Forall_forall. intros st _.
      by rewrite state_labels_push_arc.
Qed.

Lemma output_arcs_labels r ofst this_state row ofst' :
  (0 ≤ this_state)%Z → Z.to_nat this_state < length (Fst.states ofst) →
  output_arcs r ofst this_state row = Done ofst' →
  ∃ new fresh,
    state_labels <$> Fst.states ofst'
    = alter (λ ls, ls ++ new) (Z.to_nat this_state)
            (state_labels <$> Fst.states ofst) ++ fresh
    ∧ new `sublist_of` (first_label <$> row)
    ∧ Forall (λ ls : list Label, length ls ≤ 1) fresh.
Proof.
  intros Hs. revert ofst. induction row as [|temp_arc row IH]; intros ofst Hlt; simpl.
  { intros [= <-]. exists [], []. rewrite app_nil_r. split_and!; [|done|done].
    symmetry. apply list_alter_id. intros ls. by rewrite app_nil_r. }
  destruct (deref _) as [seq| | |]; try done. cbn [mbind res_bind]. intros Hrest.
  destruct (output_temp_arc_labels ofst this_state temp_arc seq Hs Hlt)
    as (new1 & fresh1 & Hl1 & Hsub1 & Hf1).
  apply IH in Hrest as (new2 & fresh2 & Hl2 & Hsub2 & Hf2).
  - exists (new1 ++ new2), (fresh1 ++ fresh2). split_and!.
    + rewrite Hl2, Hl1. rewrite alter_app_l by (rewrite length_alter, length_fmap; lia).
      rewrite list_alter_alter_eq, <-app_assoc. f_equal.
      apply list_alter_ext; [|done]. intros ls _. simpl. by rewrite <-app_assoc.
    + by apply (sublist_app _ [_]).
    + by apply Forall_app.
  - apply (f_equal length) in Hl1.
    rewrite length_fmap, length_app, length_alter, length_fmap in Hl1. lia.
Qed.

Lemma row_ok_first_labels row : row_ok row → NoDup (first_label <$> row).
Proof.
  intros (fin & tas & -> & Hlen & Hfin & Htas & Hnd). rewrite fmap_app.
  assert (Hf : first_label <$> fin = replicate (length fin) 0%Z).
  { clear Hlen. induction Hfin as [|t fin Ht _ IH]; [done|].
    rewrite fmap_cons, IH. simpl. unfold first_label.
    by rewrite decide_False. }
  assert (Ht : first_label <$> tas = TempArc.ilabel <$> tas).
  { clear Hnd. induction Htas as [|t tas [Ht _] _ IH]; [done|].
    rewrite !fmap_cons, IH. unfold first_label. by rewrite decide_True. }
  rewrite Hf, Ht. apply NoDup_app. split_and!; [| |done].
  - destruct fin as [|? [|? ?]]; simpl in *; [constructor|apply NoDup_singleton|lia].
  - intros x [-> _]%elem_of_replicate (t & Hx & Hin)%list_elem_of_fmap.
    rewrite Forall_forall in Htas. destruct (Htas _ Hin) as [_ Hne]. auto.
Qed.

Lemma short_NoDup (ls : list Label) : length ls ≤ 1 → NoDup ls.
Proof.
  destruct ls as [|? [|? ?]]; simpl; [constructor|intros; apply NoDup_singleton|lia].
Qed.

Lemma output_states_deterministic r N rows ofst i ofst' :
  (0 ≤ i)%Z → Z.to_nat i + length rows = N → N ≤ length (Fst.states ofst) →
  (∀ j ls, (state_labels <$> Fst.states ofst) !! j = Some ls →
           if decide (j < Z.to_nat i) then NoDup ls
           else if decide (j < N) then ls = [] else length ls ≤ 1) →
  Forall row_ok rows →
  output_states r ofst i rows = Done ofst' →
  deterministic_fst ofst'.
Proof.
  revert ofst i. induction rows as [|row rows IH];
    intros ofst i Hi HN Hlen Hst Hrows; simpl.
  { intros [= <-]. apply Forall_lookup_2. intros j st Hj.
    specialize (Hst j (state_labels st)). rewrite list_lookup_fmap, Hj in Hst.
    specialize (Hst eq_refl). simpl in HN.
    repeat case_decide; try lia; [done|by apply short_NoDup]. }
  destruct (output_arcs _ _ _ _) as [ofst1| | |] eqn:Hrow; try done.
  cbn [mbind res_bind]. apply Forall_cons in Hrows as [Hrow_ok Hrows].
  simpl in HN.
  apply output_arcs_labels in Hrow as (new & fresh & Hl & Hsub & Hfresh);
    [|done|lia].
  assert (Hlen1 : length (Fst.states ofst1)
                  = length (Fst.states ofst) + length fresh).
  { apply (f_equal length) in Hl.
    by rewrite length_fmap, length_app, length_alter, length_fmap in Hl. }
  apply IH; [lia|lia|lia| |done].
  intros j ls. rewrite Hl. intros Hj.
  apply lookup_app_Some in Hj as [Hj|[Hge Hj]].
  - destruct (decide (j = Z.to_nat i)) as [->|Hne].
    + rewrite list_lookup_alter_eq in Hj.
      destruct ((state_labels <$> Fst.states ofst) !! Z.to_nat i) as [ls0|] eqn:H0;
        [|done].
      injection Hj as <-. specialize (Hst _ _ H0).
      rewrite decide_False in Hst by lia. rewrite decide_True in Hst by lia.
      subst ls0. simpl. rewrite decide_True by lia.
      eapply sublist_NoDup; [|done]. by apply row_ok_first_labels.
    + rewrite list_lookup_alter_ne in Hj by done. specialize (Hst _ _ Hj).
      repeat case_decide; try lia; done.
  - rewrite length_alter, length_fmap in Hge, Hj.
    apply (Forall_lookup_1 _ _ _ _ Hfresh) in Hj.
    repeat case_decide; try lia; done.
Qed.

Lemma Output_deterministic (det : Det W) ofst destroy ofst' det' :
  Forall row_ok (output_arcs_ det) →
  Output det ofst destroy = Done (ofst', det') →
  deterministic_fst ofst'.
Proof.
  intros Hrows. unfold Output. case_decide.
  { intros [= <- _]. constructor. }
  destruct (add_states _ _ _ _) as [ofst1| | |] eqn:Hadd; try done.
  cbn [mbind res_bind]. apply add_states_states in Hadd as [Hst _].
  destruct (output_states _ _ _ _) as [ofst2| | |] eqn:Hout; try done.
  cbn [mbind res_bind]. intros [= <- _].
  assert (Hrows' : output_arcs_ (if destroy then FreeMostMemory det else det)
                   = output_arcs_ det) by by destruct destroy.
  rewrite Hrows' in Hout.
  eapply (output_states_deterministic _ (length (output_arcs_ det))) in Hout;
    [done|done|done| | |done].
  - simpl. rewrite Hst. simpl. by rewrite length_replicate.
  - intros j ls. simpl. rewrite Hst. simpl. rewrite list_lookup_fmap.
    destruct (replicate _ _ !! j) as [st|] eqn:Hj; [|done].
    apply lookup_replicate_1 in Hj as [-> Hj]. intros [= <-].
    repeat case_decide; try lia; done.
Qed.
End ExpandedOutput.

(** C2.  Whenever the determinizer finishes, no two transitions of an
    output state carry the same input label: in the table of the
    determinizer, in the acceptor that the compact [Output] builds from
    it, and in the transducer that the expanded [Output] builds from it
    (where the states created for the chains have one arc at most). *)
Theorem determinized_is_deterministic {W : Type} `{!WeightOps W}
    (ifst_ : Fst.t W) (sorted : bool) (fuel : nat)
    (uninitialized : StateId → Label → StringId) (det : Det W) :
  LatticeDeterminizer ifst_ sorted fuel uninitialized = Done det →
  deterministic_table (output_arcs_ det)
  ∧ (∀ ofst destroy ofst' det',
       Output_compact det ofst destroy = Done (ofst', det') →
       deterministic_fst ofst')
  ∧ (∀ ofst destroy ofst' det',
       Output det ofst destroy = Done (ofst', det') →
       deterministic_fst ofst').
Proof.
  intros Hdet. pose proof (LatticeDeterminizer_rows _ _ _ _ _ Hdet) as Hrows.
  apply LatticeDeterminizer_deterministic in Hdet.
  split_and!; [done| |].
  - intros ofst destroy ofst' det'. by apply Output_compact_deterministic.
  - intros ofst destroy ofst' det'. by apply Output_deterministic.
Qed.

Lemma determinized_is_deterministic_witness :
  ∃ det,
    LatticeDeterminizer Inputs.two_paths false 4 Examples.no_string = Done det
    ∧ length (output_arcs_ det) = 2
    ∧ deterministic_table (output_arcs_ det)
    ∧ (∀ ofst destroy ofst' det',
         Output_compact det ofst destroy = Done (ofst', det') →
         deterministic_fst ofst')
    ∧ (∀ ofst destroy ofst' det',
         Output det ofst destroy = Done (ofst', det') →
         deterministic_fst ofst').
Proof.
  eexists. split; [vm_compute; reflexivity|]. split; [reflexivity|].
  apply (determinized_is_deterministic Inputs.two_paths false 4
           Examples.no_string).
  vm_compute; reflexivity.
Defined.
(** * Further properties *)

(** Facts about the inputs of the examples. *)

Lemma repo4_wf : repo_wf Examples.repo4.
Proof. unfold Examples.repo4. solve_repo_wf. Defined.

Lemma Tropical_ApproxEqual_refl (w : Tropical.t) : ApproxEqual w w = true.
Proof. by apply bool_decide_eq_true. Defined.

Lemma cache_consistent_nil {W} (ifst_ : Fst.t W) : cache_consistent ifst_ [].
Proof. intros n c Hn. by rewrite lookup_nil in Hn. Defined.

(** ** More about the string repository *)

Section RepositoryOperations.
Implicit Types (r k : Repo) (h a p : StringId) (v w u : list Z) (e : Entry).

Lemma suffix_preserves r r' : r `suffix_of` r' → preserves r r'.
Proof. intros Hs h v. by apply ConvertToVector_suffix. Qed.

Lemma Successors_known r a v u h :
  repo_wf r → ConvertToVector r a = Some u →
  ConvertToVector r h = Some (u ++ v) →
  Successors r a v = (h, r).
Proof.
  intros Hwf. revert a u. induction v as [|x v IH]; intros a u Ha Hh; simpl.
  - rewrite app_nil_r in Hh. f_equal. by eapply ConvertToVector_inj.
  - assert (∃ m, ConvertToVector r m = Some (u ++ [x])) as [m Hm].
    { clear IH Ha. revert h Hh.
      induction v as [|y v IHv] using rev_ind; intros h Hh; [by eauto|].
      destruct (decide (h = 0)) as [->|Hne].
      { rewrite ConvertToVector_null in Hh. injection Hh as Hh.
        by destruct u. }
      destruct (ConvertToVector_nonnull _ _ _ Hh Hne) as (e & out & _ & Heq & Hp).
      replace (u ++ x :: v ++ [y]) with ((u ++ x :: v) ++ [y]) in Heq
        by by rewrite <-app_assoc.
      apply app_inj_tail in Heq as [<- _]. by eapply IHv. }
    assert (Successor r a x = (m, r)) as ->.
    { destruct (decide (m = 0)) as [->|Hne].
      { rewrite ConvertToVector_null in Hm. injection Hm as Hm.
        by destruct u. }
      destruct (ConvertToVector_nonnull _ _ _ Hm Hne) as (e & out & He & Heq & Hp).
      apply app_inj_tail in Heq as [<- Hx].
      assert (parent e = a) as Hpa by by eapply ConvertToVector_inj.
      pose proof (Successor_vector r a x u Hwf Ha) as Hs.
      unfold Successor in *.
      destruct e as [pe ie]; simpl in *; subst pe ie.
      destruct (find r (mkEntry a x)) as [h'|] eqn:Hf.
      - simpl in Hs. f_equal. by eapply ConvertToVector_inj.
      - by apply find_None in Hf. }
    apply (IH m (u ++ [x])); [done|]. by rewrite <-app_assoc.
Qed.

Lemma ConvertFromVector_known r h v :
  repo_wf r → ConvertToVector r h = Some v → ConvertFromVector r v = (h, r).
Proof.
  intros Hwf Hh. apply (Successors_known r 0 v []); [done| |done].
  apply ConvertToVector_null.
Qed.

(** X1.  [ConvertFromVector] and [ConvertToVector] are inverse to each
    other: the handle that [ConvertFromVector] returns for [v] reads back
    as [v], and interning the sequence that a handle reads as returns that
    very handle and allocates nothing. *)
Theorem ConvertFromVector_round_trip r v h w :
  repo_wf r → ConvertToVector r h = Some w →
  ConvertToVector (ConvertFromVector r v).2 (ConvertFromVector r v).1 = Some v
  ∧ ConvertFromVector r w = (h, r).
Proof.
  intros Hwf Hh. split.
  - by apply ConvertFromVector_spec.
  - by apply ConvertFromVector_known.
Qed.

(** X2.  [Successor(parent, i)] returns a handle that reads as the
    sequence of [parent] followed by [i]; it allocates at most one entry,
    and every handle read before reads the same afterwards. *)
Theorem Successor_appends r p x u :
  repo_wf r → ConvertToVector r p = Some u →
  let hr := Successor r p x in
  ConvertToVector hr.2 hr.1 = Some (u ++ [x])
  ∧ repo_wf hr.2
  ∧ preserves r hr.2
  ∧ length hr.2 ≤ S (length r).
Proof.
  intros Hwf Hp hr. subst hr. split_and!.
  - by apply Successor_vector.
  - apply Successor_wf; [done|]. by eapply ConvertToVector_alive.
  - apply suffix_preserves, Successor_suffix.
  - unfold Successor. destruct (find r _); simpl; lia.
Qed.

(** X3.  [Concatenate(a, b)] returns a handle that reads as the sequence
    of [a] followed by that of [b], and keeps what the other handles
    read.  With [a] or [b] [NULL] it returns the other handle as it is and
    allocates nothing. *)
Theorem Concatenate_appends r a b va vb :
  repo_wf r → ConvertToVector r a = Some va → ConvertToVector r b = Some vb →
  ∃ h r', Concatenate r a b = Done (h, r')
          ∧ ConvertToVector r' h = Some (va ++ vb)
          ∧ repo_wf r' ∧ preserves r r'
          ∧ (a = 0 → h = b ∧ r' = r) ∧ (b = 0 → h = a ∧ r' = r).
Proof.
  intros Hwf Ha Hb. unfold Concatenate.
  destruct (decide (a = 0)) as [->|Hna].
  { exists b, r. rewrite ConvertToVector_null in Ha. injection Ha as <-.
    split_and!; try done. by intros ??. }
  destruct (decide (b = 0)) as [->|Hnb].
  { exists a, r. rewrite ConvertToVector_null in Hb. injection Hb as <-.
    rewrite app_nil_r. split_and!; try done. by intros ??. }
  rewrite Hb. cbn [deref mbind res_bind].
  destruct (Successors_spec r a vb va Hwf Ha) as (Hv & Hwf' & Hsuf).
  destruct (Successors r a vb) as [h r'] eqn:Hs. simpl in *.
  exists h, r'. split_and!; try done. by apply suffix_preserves.
Qed.

(** X4.  [CommonPrefix(a, b)] returns a handle that reads as the longest
    common prefix of the sequences of [a] and [b], and keeps what the
    other handles read. *)
Theorem CommonPrefix_longest r a b va vb :
  repo_wf r → ConvertToVector r a = Some va → ConvertToVector r b = Some vb →
  ∃ h r' u, CommonPrefix r a b = Done (h, r')
            ∧ ConvertToVector r' h = Some u
            ∧ longest_common_prefix u [va; vb]
            ∧ repo_wf r' ∧ preserves r r'.
Proof.
  intros Hwf Ha Hb. unfold CommonPrefix. rewrite Ha, Hb.
  cbn [deref mbind res_bind].
  destruct (ConvertFromVector_spec r (common_prefix va vb) Hwf)
    as (Hv & Hwf' & Hsuf).
  unfold ConvertFromVector in *.
  destruct (Successors r EmptyString (common_prefix va vb)) as [h r'].
  simpl in *. exists h, r', (common_prefix va vb).
  split_and!; try done; [|by apply suffix_preserves].
  split.
  - repeat constructor.
    + apply common_prefix_prefix_l.
    + apply common_prefix_prefix_r.
  - intros q Hq. inversion_clear Hq as [|?? Hqa Hq'].
    inversion_clear Hq' as [|?? Hqb _].
    by apply common_prefix_greatest.
Qed.

(** X5.  [RemovePrefix(a, n)] returns a handle that reads as the sequence
    of [a] without its first [n] labels, and keeps what the other handles
    read; with [n = 0] it returns [a] itself and allocates nothing.  When
    the sequence of [a] has fewer than [n] labels, the assertion
    fails. *)
Theorem RemovePrefix_drops r a n v :
  repo_wf r → ConvertToVector r a = Some v →
  (n ≤ length v →
   ∃ h r', RemovePrefix r a n = Done (h, r')
           ∧ ConvertToVector r' h = Some (drop n v)
           ∧ repo_wf r' ∧ preserves r r'
           ∧ (n = 0 → h = a ∧ r' = r))
  ∧ (length v < n → RemovePrefix r a n = Aborted).
Proof.
  intros Hwf Ha. split.
  - intros Hn.
    destruct (RemovePrefix_spec r a n v Hwf Ha Hn)
      as (h & r' & Heq & Hv & Hwf' & Hsuf).
    exists h, r'. split_and!; try done; [by apply suffix_preserves|].
    intros ->. unfold RemovePrefix in Heq. simpl in Heq. by injection Heq as <- <-.
  - intros Hn. unfold RemovePrefix.
    rewrite decide_False by lia. rewrite Ha. cbn [deref mbind res_bind].
    by rewrite bool_decide_false by lia.
Qed.

Lemma IsPrefixOf_walk r' r a b va vb :
  repo_wf r' → r `suffix_of` r' →
  ConvertToVector r' a = Some va → ConvertToVector r b = Some vb →
  IsPrefixOf r a b = Done (bool_decide (va `prefix_of` vb)).
Proof.
  intros Hwf Hsuf Ha. revert b vb Hsuf.
  induction r as [|e tl IH]; intros b vb Hsuf Hb.
  - destruct b; [|done]. simpl in Hb. injection Hb as <-.
    simpl. destruct (decide (a = 0)) as [->|Hna].
    + rewrite ConvertToVector_null in Ha. injection Ha as <-.
      by rewrite bool_decide_true by apply prefix_nil.
    + rewrite bool_decide_false; [done|].
      intros Hp. apply prefix_nil_inv in Hp. subst va.
      by apply ConvertToVector_nil_inv in Ha.
  - assert (Hb' : ConvertToVector r' b = Some vb)
      by by eapply ConvertToVector_suffix.
    assert (Htl : tl `suffix_of` r').
    { etrans; [|exact Hsuf]. by apply suffix_cons_r. }
    cbn [IsPrefixOf].
    destruct (decide (a = 0)) as [->|Hna].
    { rewrite ConvertToVector_null in Ha. injection Ha as <-.
      by rewrite bool_decide_true by apply prefix_nil. }
    destruct (decide (a = b)) as [->|Hab].
    { rewrite Ha in Hb'. injection Hb' as <-. by rewrite bool_decide_true. }
    destruct (decide (b = 0)) as [->|Hnb].
    { rewrite ConvertToVector_null in Hb. injection Hb as <-.
      rewrite bool_decide_false; [done|].
      intros Hp. apply prefix_nil_inv in Hp. subst va.
      by apply ConvertToVector_nil_inv in Ha. }
    rewrite ConvertToVector_cons in Hb by done.
    destruct (decide (b = S (length tl))) as [->|Hnew].
    + destruct (ConvertToVector tl (parent e)) as [out|] eqn:Hout; [|done].
      simpl in Hb. injection Hb as <-.
      rewrite (IH (parent e) out Htl Hout).
      f_equal. apply bool_decide_ext. split.
      * intros Hp. by apply prefix_app_r.
      * intros [k Hk].
        destruct k as [|y k _] using rev_ind.
        { rewrite app_nil_r in Hk. subst va.
          destruct Hab. by eapply ConvertToVector_inj. }
        rewrite app_assoc in Hk. apply app_inj_tail in Hk as [-> _].
        by apply prefix_app_r.
    + by apply IH.
Qed.

(** X6.  [IsPrefixOf(a, b)] returns [true] exactly when the sequence of
    [a] is a prefix of the sequence of [b]. *)
Theorem IsPrefixOf_prefix r a b va vb :
  repo_wf r → ConvertToVector r a = Some va → ConvertToVector r b = Some vb →
  IsPrefixOf r a b = Done (bool_decide (va `prefix_of` vb)).
Proof. intros Hwf Ha Hb. by apply (IsPrefixOf_walk r r). Qed.

(** X7.  [ReduceToCommonPrefix(a, b)] cuts the vector [b] down to the
    longest common prefix of [b] and the sequence of [a]; reading a
    handle that has been deleted is the only way it fails. *)
Theorem ReduceToCommonPrefix_longest r a b :
  (∀ va, ConvertToVector r a = Some va →
         ∃ u, ReduceToCommonPrefix r a b = Done u
              ∧ longest_common_prefix u [b; va])
  ∧ (ConvertToVector r a = None → ReduceToCommonPrefix r a b = Undef).
Proof.
  split.
  - intros va Ha. exists (common_prefix b va). split.
    + by apply ReduceToCommonPrefix_eq.
    + split.
      * repeat constructor.
        -- apply common_prefix_prefix_l.
        -- apply common_prefix_prefix_r.
      * intros q Hq. inversion_clear Hq as [|?? Hqa Hq'].
        inversion_clear Hq' as [|?? Hqb _].
        by apply common_prefix_greatest.
  - intros Ha. unfold ReduceToCommonPrefix. by rewrite Ha.
Qed.

End RepositoryOperations.

Lemma ConvertFromVector_round_trip_witness :
  ConvertToVector (ConvertFromVector Examples.repo4 [1; 2; 5]%Z).2
                  (ConvertFromVector Examples.repo4 [1; 2; 5]%Z).1
  = Some [1; 2; 5]%Z
  ∧ ConvertFromVector Examples.repo4 [1; 2; 3]%Z = (3, Examples.repo4).
Proof.
  apply (ConvertFromVector_round_trip Examples.repo4 [1; 2; 5]%Z 3 [1; 2; 3]%Z).
  - exact repo4_wf.
  - reflexivity.
Defined.

Lemma Successor_appends_witness :
  ConvertToVector (Successor Examples.repo4 2 5).2 (Successor Examples.repo4 2 5).1
  = Some ([1; 2] ++ [5])%Z
  ∧ repo_wf (Successor Examples.repo4 2 5).2
  ∧ preserves Examples.repo4 (Successor Examples.repo4 2 5).2
  ∧ length (Successor Examples.repo4 2 5).2 ≤ S (length Examples.repo4).
Proof.
  apply (Successor_appends Examples.repo4 2 5 [1; 2]%Z).
  - exact repo4_wf.
  - reflexivity.
Defined.

Lemma Concatenate_appends_witness :
  ∃ h r', Concatenate Examples.repo4 3 2 = Done (h, r')
          ∧ ConvertToVector r' h = Some ([1; 2; 3] ++ [1; 2])%Z
          ∧ repo_wf r' ∧ preserves Examples.repo4 r'
          ∧ (3 = 0 → h = 2 ∧ r' = Examples.repo4)
          ∧ (2 = 0 → h = 3 ∧ r' = Examples.repo4).
Proof.
  apply (Concatenate_appends Examples.repo4 3 2).
  - exact repo4_wf.
  - reflexivity.
  - reflexivity.
Defined.

Lemma CommonPrefix_longest_witness :
  ∃ h r' u, CommonPrefix Examples.repo4 3 4 = Done (h, r')
            ∧ ConvertToVector r' h = Some u
            ∧ longest_common_prefix u [[1; 2; 3]; [1; 2; 4]]%Z
            ∧ repo_wf r' ∧ preserves Examples.repo4 r'.
Proof.
  apply (CommonPrefix_longest Examples.repo4 3 4).
  - exact repo4_wf.
  - reflexivity.
  - reflexivity.
Defined.

Lemma RemovePrefix_drops_witness :
  (2 ≤ length [1; 2; 3]%Z →
   ∃ h r', RemovePrefix Examples.repo4 3 2 = Done (h, r')
           ∧ ConvertToVector r' h = Some (drop 2 [1; 2; 3]%Z)
           ∧ repo_wf r' ∧ preserves Examples.repo4 r'
           ∧ (2 = 0 → h = 3 ∧ r' = Examples.repo4))
  ∧ (length [1; 2; 3]%Z < 2 → RemovePrefix Examples.repo4 3 2 = Aborted).
Proof.
  apply (RemovePrefix_drops Examples.repo4 3 2 [1; 2; 3]%Z).
  - exact repo4_wf.
  - reflexivity.
Defined.

Lemma IsPrefixOf_prefix_witness :
  IsPrefixOf Examples.repo4 2 4
  = Done (bool_decide ([1; 2]%Z `prefix_of` [1; 2; 4]%Z)).
Proof.
  apply (IsPrefixOf_prefix Examples.repo4 2 4).
  - exact repo4_wf.
  - reflexivity.
  - reflexivity.
Defined.

(** ** Comparison of (weight, string) pairs *)

Section CompareFacts.
Context {W : Type} `{!WeightOps W}.
Implicit Types (r : Repo) (va vb : list Z) (e : Element.t W).

Lemma compare_vectors_differ va vb :
  length va = length vb → va ≠ vb →
  ∃ c, compare_vectors va vb = Done c ∧ (c = (-1)%Z ∨ c = 1%Z).
Proof.
  revert vb. induction va as [|x va IH]; intros [|y vb] Hlen Hne; try done.
  simpl. repeat case_decide; eauto.
  apply IH; [by simplify_eq/=|].
  intros ->. apply Hne. f_equal. lia.
Qed.

Lemma compare_vectors_swap va vb :
  compare_vectors vb va = c ← compare_vectors va vb; Done (- c)%Z.
Proof.
  revert vb. induction va as [|x va IH]; intros [|y vb]; try done.
  simpl. repeat case_decide; done || lia.
Qed.

Lemma ComparePair_Done r (a_w b_w : W) (a_str b_str : StringId) va vb :
  repo_wf r →
  ConvertToVector r a_str = Some va → ConvertToVector r b_str = Some vb →
  ∃ c, ComparePair r a_w a_str b_w b_str = Done c
       ∧ (c = 0%Z ↔ Compare a_w b_w = 0%Z ∧ a_str = b_str)
       ∧ (Compare a_w b_w ≠ 0%Z → c = Compare a_w b_w)
       ∧ (Compare a_w b_w = 0%Z → length va < length vb → c = (-1)%Z)
       ∧ (Compare a_w b_w = 0%Z → length vb < length va → c = 1%Z).
Proof.
  intros Hwf Ha Hb. unfold ComparePair.
  destruct (decide (Compare a_w b_w ≠ 0%Z)) as [Hw|Hw].
  { eexists. split; [done|]. split_and!; intros; try (done || lia);
      try (split; [done|by intros []]). }
  apply dec_stable in Hw.
  destruct (decide (a_str = b_str)) as [->|Hs].
  { exists 0%Z. rewrite Ha in Hb. injection Hb as <-.
    split; [done|]. split_and!; intros; done || lia. }
  rewrite Ha, Hb. cbn [deref mbind res_bind].
  destruct (decide (length va < length vb)).
  { eexists. split; [done|]. split_and!; intros; try (done || lia);
      try (split; [done|by intros []]). }
  destruct (decide (length vb < length va)).
  { eexists. split; [done|]. split_and!; intros; try (done || lia);
      try (split; [done|by intros []]). }
  destruct (compare_vectors_differ va vb) as (c & -> & Hc); [lia| |].
  { intros ->. apply Hs. by eapply ConvertToVector_inj. }
  exists c. split; [done|]. split_and!; intros; try (done || lia);
    try (split; [lia|by intros []]).
Qed.

(** X8.  On handles that are alive, the comparison of two
    (weight, string) pairs returns: its [assert(0)] is not reached.  The
    result is that of the comparison of the weights when that is not [0];
    otherwise the shorter string is the smaller, and the result is [0]
    only when the two handles are the same. *)
Theorem ComparePair_never_asserts r (a_w b_w : W) (a_str b_str : StringId) va vb :
  repo_wf r →
  ConvertToVector r a_str = Some va → ConvertToVector r b_str = Some vb →
  ∃ c, ComparePair r a_w a_str b_w b_str = Done c
       ∧ (c = 0%Z ↔ Compare a_w b_w = 0%Z ∧ a_str = b_str)
       ∧ (Compare a_w b_w ≠ 0%Z → c = Compare a_w b_w)
       ∧ (Compare a_w b_w = 0%Z → length va < length vb → c = (-1)%Z)
       ∧ (Compare a_w b_w = 0%Z → length vb < length va → c = 1%Z).
Proof. apply ComparePair_Done. Qed.

(** X9.  When the comparison of weights is antisymmetric, so is the
    comparison of (weight, string) pairs: with the arguments exchanged it
    ends the same way, and a returned value has its sign reversed. *)
Theorem ComparePair_antisymmetric r (a_w b_w : W) (a_str b_str : StringId) :
  (∀ a b : W, Compare b a = (- Compare a b)%Z) →
  ComparePair r b_w b_str a_w a_str
  = c ← ComparePair r a_w a_str b_w b_str; Done (- c)%Z.
Proof.
  intros Hanti. unfold ComparePair. rewrite (Hanti a_w b_w).
  destruct (decide (Compare a_w b_w ≠ 0%Z)) as [Hw|Hw].
  { by rewrite decide_True by lia. }
  rewrite decide_False by lia.
  destruct (decide (a_str = b_str)) as [->|Hs].
  { by rewrite decide_True. }
  rewrite decide_False by done.
  destruct (ConvertToVector r a_str) as [va|], (ConvertToVector r b_str) as [vb|];
    try done.
  cbn [deref mbind res_bind].
  repeat case_decide; try done; try lia.
  apply compare_vectors_swap.
Qed.

End CompareFacts.

Lemma Tropical_compare_antisymmetric (a b : Tropical.t) :
  Tropical.compare b a = (- Tropical.compare a b)%Z.
Proof.
  destruct a as [x|], b as [y|]; simpl; try done.
  repeat case_decide; lia.
Qed.

(** ** MakeSubsetUnique *)

Section MakeSubsetUniqueFacts.
Context {W : Type} `{!WeightOps W}.
Implicit Types (r : Repo) (e c : Element.t W) (subset rest out : list (Element.t W)).

Lemma unique_loop_Done r c rest :
  repo_wf r → strings_alive r (c :: rest) →
  ∃ out, unique_loop r c rest = Done out.
Proof.
  intros Hwf. revert c. induction rest as [|x rest IH]; intros c Halive; simpl.
  { eauto. }
  apply Forall_cons in Halive as [[vc Hc] Halive].
  pose proof Halive as Halive'.
  apply Forall_cons in Halive as [[vx Hx] Hrest].
  case_decide.
  - destruct (ComparePair_Done r (Element.weight x) (Element.weight c)
                _ _ vx vc Hwf Hx Hc) as (comp & -> & _).
    cbn [mbind res_bind]. apply IH. apply Forall_cons. split; [|done].
    case_decide; simpl; eauto.
  - destruct (IH x Halive') as [out ->]. cbn [mbind res_bind]. eauto.
Qed.

Lemma unique_loop_sublist r c rest out :
  unique_loop r c rest = Done out → out `sublist_of` c :: rest.
Proof.
  revert c out. induction rest as [|x rest IH]; intros c out; simpl.
  { by intros [= <-]. }
  case_decide as Hst.
  - destruct (ComparePair _ _ _ _ _) as [comp| | |]; try done.
    cbn [mbind res_bind]. intros Hout. apply IH in Hout.
    case_decide.
    + replace (Element.mk (Element.state c) (Element.string x) (Element.weight x))
        with x in Hout by (destruct x; simpl in *; by subst).
      by apply sublist_cons.
    + etrans; [exact Hout|]. apply sublist_skip, sublist_cons. done.
  - destruct (unique_loop r x rest) as [out'| | |] eqn:Hout'; try done.
    cbn [mbind res_bind]. intros [= <-]. apply sublist_skip. by apply IH.
Qed.

Lemma unique_loop_sorted r c rest out :
  Sorted state_le (c :: rest) →
  unique_loop r c rest = Done out →
  ∃ c' out', out = c' :: out' ∧ Element.state c' = Element.state c
             ∧ Sorted Z.lt (Element.state <$> out).
Proof.
  revert c out. induction rest as [|x rest IH]; intros c out Hsorted; simpl.
  { intros [= <-]. exists c, []. split_and!; try done. repeat constructor. }
  apply Sorted_inv in Hsorted as [Hsorted Hhd].
  apply HdRel_inv in Hhd. unfold state_le in Hhd.
  case_decide as Hst.
  - destruct (ComparePair _ _ _ _ _) as [comp| | |]; try done.
    cbn [mbind res_bind]. intros Hout.
    apply IH in Hout as (c' & out' & -> & Hc' & Hs).
    + exists c', out'. split_and!; try done.
      rewrite Hc'. by case_decide.
    + apply Sorted_inv in Hsorted as [Hsorted Hhd'].
      constructor; [done|].
      destruct Hhd' as [|y rest' Hxy]; constructor.
      unfold state_le in *. case_decide; simpl; lia.
  - destruct (unique_loop r x rest) as [out'| | |] eqn:Hout'; try done.
    cbn [mbind res_bind]. intros [= <-].
    apply IH in Hout' as (c' & out'' & -> & Hc' & Hs); [|done].
    exists c, (c' :: out''). split_and!; try done.
    rewrite fmap_cons. constructor; [done|].
    rewrite fmap_cons. constructor. lia.
Qed.

Lemma unique_loop_states r c rest out :
  unique_loop r c rest = Done out →
  ∀ e, e ∈ c :: rest → Element.state e ∈ Element.state <$> out.
Proof.
  revert c out. induction rest as [|x rest IH]; intros c out; simpl.
  { intros [= <-] e ->%list_elem_of_singleton. simpl. apply list_elem_of_here. }
  case_decide as Hst.
  - destruct (ComparePair _ _ _ _ _) as [comp| | |]; try done.
    cbn [mbind res_bind]. intros Hout e He.
    assert (∀ e', e' ∈ (if decide (comp = 1%Z)
                         then Element.mk (Element.state c) (Element.string x)
                                         (Element.weight x)
                         else c) :: rest →
                  Element.state e' ∈ Element.state <$> out) as Hall
      by by apply IH.
    assert (Element.state c ∈ Element.state <$> out) as Hc.
    { replace (Element.state c) with
        (Element.state (if decide (comp = 1%Z)
                        then Element.mk (Element.state c) (Element.string x)
                                        (Element.weight x)
                        else c)) by by case_decide.
      apply Hall, list_elem_of_here. }
    apply elem_of_cons in He as [->|He]; [done|].
    apply elem_of_cons in He as [->|He]; [by rewrite Hst|].
    apply Hall. by apply list_elem_of_further.
  - destruct (unique_loop r x rest) as [out'| | |] eqn:Hout'; try done.
    cbn [mbind res_bind]. intros [= <-] e He. rewrite fmap_cons.
    apply elem_of_cons in He as [->|He]; [apply list_elem_of_here|].
    apply list_elem_of_further. by eapply IH.
Qed.

(** X10.  On a subset that is sorted on state and whose strings are
    alive, [MakeSubsetUnique] returns; what is left is taken from the
    subset in its order, has strictly increasing states, and has an
    element for every state of the subset. *)
Theorem MakeSubsetUnique_one_per_state r subset :
  repo_wf r → strings_alive r subset → Sorted state_le subset →
  ∃ out, MakeSubsetUnique r subset = Done out
         ∧ out `sublist_of` subset
         ∧ Sorted Z.lt (Element.state <$> out)
         ∧ ∀ e, e ∈ subset → Element.state e ∈ Element.state <$> out.
Proof.
  intros Hwf Halive Hsorted. unfold MakeSubsetUnique.
  destruct subset as [|c rest].
  { exists []. simpl. split_and!; try done; try constructor.
    by intros e ?%elem_of_nil. }
  assert ((match c :: rest with
           | e0 :: e1 :: _ =>
               bool_decide (Element.state e0 ≤ Element.state e1)%Z
           | _ => true
           end) = true) as ->.
  { destruct rest as [|x rest]; [done|].
    apply bool_decide_eq_true.
    apply Sorted_inv in Hsorted as [_ Hhd]. by apply HdRel_inv in Hhd. }
  cbn [assert mbind res_bind].
  destruct (unique_loop_Done r c rest Hwf Halive) as [out Hout].
  exists out. split_and!; try done.
  - by eapply unique_loop_sublist.
  - by destruct (unique_loop_sorted r c rest out Hsorted Hout) as (? & ? & _ & _ & ?).
  - by eapply unique_loop_states.
Qed.

End MakeSubsetUniqueFacts.

(** ** The hash tables *)

Section HashFacts.
Context {W : Type} `{!WeightOps W}.
Variable ifst_ : Fst.t W.
Variable sorted : bool.
Variable fuel : nat.
Implicit Types (det : Det W) (subset : list (Element.t W)).

Lemma SubsetKey_loop_equal address hash factor (s1 s2 : list (Element.t W)) :
  SubsetEqual s1 s2 = true →
  SubsetKey_loop address hash factor s1 = SubsetKey_loop address hash factor s2.
Proof.
  revert s2 hash factor.
  induction s1 as [|e1 s1 IH]; intros [|e2 s2] hash factor; try done.
  simpl. destruct (bool_decide (Element.state e1 ≠ Element.state e2)) eqn:Hst;
    [done|].
  destruct (bool_decide (Element.string e1 ≠ Element.string e2)) eqn:Hstr;
    [done|].
  apply bool_decide_eq_false in Hst, Hstr.
  apply dec_stable in Hst, Hstr.
  destruct (ApproxEqual _ _); [|done]. simpl. intros Heq.
  rewrite Hst, Hstr. by apply IH.
Qed.

(** X11.  Two subsets that [SubsetEqual] accepts have the same
    [SubsetKey]: the hash does not look at the weights, which are the
    only place where such subsets can differ. *)
Theorem SubsetEqual_same_key address (s1 s2 : list (Element.t W)) :
  SubsetEqual s1 s2 = true →
  SubsetKey address s1 = SubsetKey address s2
  ∧ Element.state <$> s1 = Element.state <$> s2
  ∧ Element.string <$> s1 = Element.string <$> s2
  ∧ SubsetEqualStates s1 s2 = true.
Proof.
  intros Heq. split; [by apply SubsetKey_loop_equal|].
  revert s2 Heq. induction s1 as [|e1 s1 IH]; intros [|e2 s2] Heq; try done.
  simpl in Heq.
  destruct (bool_decide (Element.state e1 ≠ Element.state e2)) eqn:Hst;
    [done|].
  destruct (bool_decide (Element.string e1 ≠ Element.string e2)) eqn:Hstr;
    [done|].
  apply bool_decide_eq_false in Hst, Hstr.
  apply dec_stable in Hst, Hstr.
  destruct (ApproxEqual _ _); [|done]. simpl in Heq.
  destruct (IH s2 Heq) as (Hs1 & Hs2 & Hs3).
  rewrite !fmap_cons, Hs1, Hs2, Hst, Hstr. split_and!; try done.
  cbn [SubsetEqualStates]. by rewrite bool_decide_false by (by intros []).
Qed.

Lemma SubsetEqual_refl subset :
  (∀ w : W, ApproxEqual w w = true) → SubsetEqual subset subset = true.
Proof.
  intros Hrefl. induction subset as [|e subset IH]; [done|].
  simpl. rewrite !bool_decide_false by (by intros []). by rewrite Hrefl.
Qed.

Lemma hash_find_None {V} (h : list (list (Element.t W) * V)) subset k v :
  hash_find h subset = None → (k, v) ∈ h → SubsetEqual k subset = false.
Proof.
  induction h as [|[k' v'] h IH]; simpl; [by intros _ ?%elem_of_nil|].
  destruct (SubsetEqual k' subset) eqn:Heq; [done|].
  intros Hnone [[= -> ->]|Hin]%elem_of_cons; [done|]. by apply IH.
Qed.

Lemma hash_find_Some {V} (h : list (list (Element.t W) * V)) subset v :
  hash_find h subset = Some v → ∃ k, (k, v) ∈ h.
Proof.
  induction h as [|[k' v'] h IH]; simpl; [done|].
  destruct (SubsetEqual k' subset).
  - intros [= ->]. exists k'. apply list_elem_of_here.
  - intros [k Hk]%IH. exists k. by apply list_elem_of_further.
Qed.

Lemma hash_find_match {V} (h : list (list (Element.t W) * V)) subset v :
  hash_find h subset = Some v →
  ∃ k, (k, v) ∈ h ∧ SubsetEqual k subset = true.
Proof.
  induction h as [|[k' v'] h IH]; simpl; [done|].
  destruct (SubsetEqual k' subset) eqn:Heq.
  - intros [= ->]. exists k'. split; [apply list_elem_of_here|done].
  - intros (k & Hk & Hm)%IH. exists k.
    split; [by apply list_elem_of_further|done].
Qed.

(** X12.  [MinimalToStateId] on a subset that no key of the table
    matches gives it the next state number, records the subset and an
    empty row of arcs under that number, and queues it; on a subset that
    some key of the table matches it changes nothing and returns the
    state of a key that matches.  When a weight is [ApproxEqual] to
    itself, asking again for the same subset returns the same state and
    changes nothing. *)
Theorem MinimalToStateId_lookup det subset :
  (∀ w : W, ApproxEqual w w = true) →
  length (output_states_ det) = length (output_arcs_ det) →
  let ans := (MinimalToStateId det subset).1 in
  let det' := (MinimalToStateId det subset).2 in
  MinimalToStateId det' subset = (ans, det')
  ∧ ((∀ k s, (k, s) ∈ minimal_hash_ det → SubsetEqual k subset = false) →
     ans = Z.of_nat (length (output_arcs_ det))
     ∧ output_states_ det' !! Z.to_nat ans = Some subset
     ∧ output_arcs_ det' !! Z.to_nat ans = Some []
     ∧ queue_ det' = ans :: queue_ det)
  ∧ ((∃ k s, (k, s) ∈ minimal_hash_ det ∧ SubsetEqual k subset = true) →
     det' = det
     ∧ ∃ k, (k, ans) ∈ minimal_hash_ det ∧ SubsetEqual k subset = true).
Proof.
  intros Hrefl Hlen ans det'. subst ans det'. unfold MinimalToStateId.
  destruct (hash_find (minimal_hash_ det) subset) as [s|] eqn:Hfind; simpl.
  - rewrite Hfind. pose proof Hfind as (k & Hk & Hm)%hash_find_match.
    split_and!; [done| |].
    + intros Hnone. by rewrite (Hnone k s Hk) in Hm.
    + intros _. split; [done|]. by exists k.
  - rewrite SubsetEqual_refl by done. split_and!; [done| |].
    + intros _. rewrite Nat2Z.id. split_and!; try done.
      * rewrite <-Hlen. by rewrite lookup_app_r, Nat.sub_diag by lia.
      * by rewrite lookup_app_r, Nat.sub_diag by lia.
    + intros (k & s & Hk & Hm).
      by rewrite (hash_find_None _ _ _ _ Hfind Hk) in Hm.
Qed.

(** X13.  After [InitialToStateId] has returned for a subset, asking
    again for the same subset returns the same state from the table,
    assigns the two out-parameters and changes nothing, given that a
    weight is [ApproxEqual] to itself.  The first call, when the subset
    was not in the table, returns without assigning the
    out-parameters. *)
Theorem InitialToStateId_second_call det subset_in ans out det' :
  (∀ w : W, ApproxEqual w w = true) →
  InitialToStateId ifst_ sorted fuel det subset_in = Done (ans, out, det') →
  (∃ w s, InitialToStateId ifst_ sorted fuel det' subset_in
          = Done (ans, Assigned w s, det'))
  ∧ (hash_find (initial_hash_ det) subset_in = None → out = Unassigned).
Proof.
  intros Hrefl. unfold InitialToStateId at 1.
  destruct (hash_find (initial_hash_ det) subset_in) as [elem|] eqn:Hfind.
  - intros [= <- <- <-]. split; [|done].
    exists (Element.weight elem), (Element.string elem).
    unfold InitialToStateId. by rewrite Hfind.
  - destruct (EpsilonClosure _ _ _ _ _) as [[r subset]| | |]; try done.
    cbn [mbind res_bind].
    destruct (ConvertToMinimal _ _ _) as [[subset' cache]| | |]; try done.
    cbn [mbind res_bind].
    destruct (NormalizeSubset _ _) as [[[[subset'' str] w] r']| | |]; try done.
    cbn [mbind res_bind].
    destruct (MinimalToStateId _ _) as [ans' det''] eqn:Hmin.
    intros [= <- <- <-]. split; [|done].
    exists w, str. unfold InitialToStateId. simpl.
    by rewrite SubsetEqual_refl by done.
Qed.

End HashFacts.

Lemma ComparePair_never_asserts_witness :
  ∃ c, ComparePair Examples.repo4 (Tropical.Cost 1) 3 (Tropical.Cost 1) 4
       = Done c
       ∧ (c = 0%Z ↔ Compare (Tropical.Cost 1) (Tropical.Cost 1) = 0%Z ∧ 3 = 4)
       ∧ (Compare (Tropical.Cost 1) (Tropical.Cost 1) ≠ 0%Z →
          c = Compare (Tropical.Cost 1) (Tropical.Cost 1))
       ∧ (Compare (Tropical.Cost 1) (Tropical.Cost 1) = 0%Z →
          length [1; 2; 3]%Z < length [1; 2; 4]%Z → c = (-1)%Z)
       ∧ (Compare (Tropical.Cost 1) (Tropical.Cost 1) = 0%Z →
          length [1; 2; 4]%Z < length [1; 2; 3]%Z → c = 1%Z).
Proof.
  apply (ComparePair_never_asserts Examples.repo4).
  - exact repo4_wf.
  - reflexivity.
  - reflexivity.
Defined.

Lemma ComparePair_antisymmetric_witness :
  ComparePair Examples.repo4 (Tropical.Cost 1) 4 (Tropical.Cost 1) 3
  = c ← ComparePair Examples.repo4 (Tropical.Cost 1) 3 (Tropical.Cost 1) 4;
    Done (- c)%Z.
Proof.
  apply (ComparePair_antisymmetric Examples.repo4).
  exact Tropical_compare_antisymmetric.
Defined.

Lemma MakeSubsetUnique_one_per_state_witness :
  ∃ out, MakeSubsetUnique Examples.repo4
           (Element.mk 0 4 (Tropical.Cost 1) :: Examples.subset2) = Done out
         ∧ out `sublist_of` Element.mk 0 4 (Tropical.Cost 1) :: Examples.subset2
         ∧ Sorted Z.lt (Element.state <$> out)
         ∧ ∀ e, e ∈ Element.mk 0 4 (Tropical.Cost 1) :: Examples.subset2 →
                Element.state e ∈ Element.state <$> out.
Proof.
  apply MakeSubsetUnique_one_per_state.
  - exact repo4_wf.
  - repeat constructor; by eexists.
  - repeat constructor; unfold state_le; simpl; lia.
Defined.

Lemma SubsetEqual_same_key_witness :
  SubsetKey Z.of_nat Examples.subset2
  = SubsetKey Z.of_nat MoreExamples.subset2_near
  ∧ Element.state <$> Examples.subset2
    = Element.state <$> MoreExamples.subset2_near
  ∧ Element.string <$> Examples.subset2
    = Element.string <$> MoreExamples.subset2_near
  ∧ SubsetEqualStates Examples.subset2 MoreExamples.subset2_near = true.
Proof.
  apply (@SubsetEqual_same_key _ (MoreExamples.approx_ops 1)).
  reflexivity.
Defined.

Lemma MinimalToStateId_lookup_witness :
  (MinimalToStateId (MinimalToStateId MoreExamples.looping_det
                       [Inputs.start_elem]).2 [Inputs.start_elem]
   = ((MinimalToStateId MoreExamples.looping_det [Inputs.start_elem]).1,
      (MinimalToStateId MoreExamples.looping_det [Inputs.start_elem]).2)
   ∧ ((∀ k s, (k, s) ∈ minimal_hash_ MoreExamples.looping_det →
              SubsetEqual k [Inputs.start_elem] = false) →
      (MinimalToStateId MoreExamples.looping_det [Inputs.start_elem]).1
      = Z.of_nat (length (output_arcs_ MoreExamples.looping_det))
      ∧ output_states_
          (MinimalToStateId MoreExamples.looping_det [Inputs.start_elem]).2
          !! Z.to_nat
               (MinimalToStateId MoreExamples.looping_det
                  [Inputs.start_elem]).1
        = Some [Inputs.start_elem]
      ∧ output_arcs_
          (MinimalToStateId MoreExamples.looping_det [Inputs.start_elem]).2
          !! Z.to_nat
               (MinimalToStateId MoreExamples.looping_det
                  [Inputs.start_elem]).1
        = Some []
      ∧ queue_
          (MinimalToStateId MoreExamples.looping_det [Inputs.start_elem]).2
        = (MinimalToStateId MoreExamples.looping_det [Inputs.start_elem]).1
          :: queue_ MoreExamples.looping_det)
   ∧ ((∃ k s, (k, s) ∈ minimal_hash_ MoreExamples.looping_det
              ∧ SubsetEqual k [Inputs.start_elem] = true) →
      (MinimalToStateId MoreExamples.looping_det [Inputs.start_elem]).2
      = MoreExamples.looping_det
      ∧ ∃ k, (k, (MinimalToStateId MoreExamples.looping_det
                    [Inputs.start_elem]).1)
             ∈ minimal_hash_ MoreExamples.looping_det
             ∧ SubsetEqual k [Inputs.start_elem] = true))
  ∧ (∃ k s, (k, s) ∈ minimal_hash_ MoreExamples.looping_det
            ∧ SubsetEqual k [Inputs.start_elem] = true)
  ∧ MinimalToStateId MoreExamples.looping_det [Inputs.start_elem]
    = (0%Z, MoreExamples.looping_det)
  ∧ (∀ k s, (k, s) ∈ minimal_hash_ (@empty_det Tropical.t) →
            SubsetEqual k [Inputs.start_elem] = false)
  ∧ (MinimalToStateId empty_det [Inputs.start_elem]).1 = 0%Z
  ∧ queue_ (MinimalToStateId empty_det [Inputs.start_elem]).2 = [0%Z].
Proof.
  split; [|split_and!].
  - apply (MinimalToStateId_lookup MoreExamples.looping_det
             [Inputs.start_elem]).
    + exact Tropical_ApproxEqual_refl.
    + reflexivity.
  - exists [Inputs.start_elem], 0%Z.
    split; [apply list_elem_of_here|reflexivity].
  - reflexivity.
  - intros k s Hk. by apply elem_of_nil in Hk.
  - pose proof (MinimalToStateId_lookup empty_det [Inputs.start_elem]
                  Tropical_ApproxEqual_refl eq_refl) as Hrun.
    cbv zeta in Hrun. destruct Hrun as (_ & Hmiss & _).
    destruct Hmiss as (Hans & _); [|exact Hans].
    intros k s Hk. by apply elem_of_nil in Hk.
  - pose proof (MinimalToStateId_lookup empty_det [Inputs.start_elem]
                  Tropical_ApproxEqual_refl eq_refl) as Hrun.
    cbv zeta in Hrun. destruct Hrun as (_ & Hmiss & _).
    destruct Hmiss as (_ & _ & _ & Hqueue); [|exact Hqueue].
    intros k s Hk. by apply elem_of_nil in Hk.
Defined.

Lemma InitialToStateId_second_call_witness :
  ∃ ans out det',
    InitialToStateId Inputs.self_loop false 4 empty_det [Inputs.start_elem]
    = Done (ans, out, det')
    ∧ (∃ w s, InitialToStateId Inputs.self_loop false 4 det'
                               [Inputs.start_elem]
              = Done (ans, Assigned w s, det'))
    ∧ (hash_find (initial_hash_ (@empty_det Tropical.t)) [Inputs.start_elem]
       = None → out = Unassigned).
Proof.
  eexists _, _, _. split; [vm_compute; reflexivity|].
  apply (InitialToStateId_second_call Inputs.self_loop false 4 empty_det).
  - exact Tropical_ApproxEqual_refl.
  - vm_compute; reflexivity.
Defined.

Section ClosureFacts.
Context {W : Type} `{!WeightOps W}.
Variable ifst_ : Fst.t W.
Variable sorted : bool.
Implicit Types (r : Repo) (e x elem : Element.t W)
  (cur queue subset : list (Element.t W)) (arcs : list (Arc.t W)).

Lemma set_insert_new cur e cur' :
  set_insert cur e = (cur', None) →
  (Sorted Z.lt (Element.state <$> cur) → Sorted Z.lt (Element.state <$> cur'))
  ∧ (∀ s, s ∈ Element.state <$> cur'
          ↔ s = Element.state e ∨ s ∈ Element.state <$> cur)
  ∧ (∀ s, HdRel Z.lt s (Element.state <$> cur) → (s < Element.state e)%Z →
          HdRel Z.lt s (Element.state <$> cur')).
Proof.
  revert cur'. induction cur as [|x cur IH]; intros cur'; simpl.
  { intros [= <-]. simpl. split_and!.
    - intros _. repeat constructor.
    - intros s. rewrite list_elem_of_singleton. rewrite elem_of_nil. tauto.
    - intros s _ Hs. by constructor. }
  case_decide as Hlt.
  { intros [= <-]. split_and!.
    - intros Hs. rewrite fmap_cons. constructor; [done|]. by constructor.
    - intros s. rewrite fmap_cons, elem_of_cons. tauto.
    - intros s _ Hs. by constructor. }
  case_decide as Hgt; [|done].
  destruct (set_insert cur e) as [tl' found] eqn:Hins.
  intros [= <- ->]. destruct (IH tl' eq_refl) as (IH1 & IH2 & IH3).
  split_and!.
  - intros Hs. apply Sorted_inv in Hs as [Hs Hhd].
    rewrite fmap_cons. constructor; [by apply IH1|]. by apply IH3.
  - intros s. rewrite !fmap_cons, !elem_of_cons, IH2. tauto.
  - intros s Hhd Hs. apply HdRel_inv in Hhd. rewrite fmap_cons.
    by constructor.
Qed.

Lemma set_insert_found cur e cur' x :
  set_insert cur e = (cur', Some x) →
  cur' = cur ∧ Element.state x = Element.state e ∧ x ∈ cur.
Proof.
  revert cur'. induction cur as [|y cur IH]; intros cur'; simpl; [done|].
  case_decide as Hlt; [done|].
  case_decide as Hgt.
  - destruct (set_insert cur e) as [tl' found] eqn:Hins.
    intros [= <- ->]. destruct (IH tl' eq_refl) as (-> & ? & ?).
    split_and!; try done. by apply list_elem_of_further.
  - intros [= <- <-]. split_and!; [done|lia|apply list_elem_of_here].
Qed.

Lemma set_assign_states cur e :
  Element.state <$> set_assign cur e = Element.state <$> cur.
Proof.
  induction cur as [|x cur IH]; [done|]. simpl.
  case_decide; [done|]. by rewrite !fmap_cons, IH.
Qed.

Lemma set_insert_fst_sorted cur e :
  Sorted Z.lt (Element.state <$> cur) →
  Sorted Z.lt (Element.state <$> (set_insert cur e).1).
Proof.
  intros Hs. destruct (set_insert cur e) as [cur' [x|]] eqn:Hins; simpl.
  - by apply set_insert_found in Hins as (-> & _).
  - apply set_insert_new in Hins as (Hs' & _). by apply Hs'.
Qed.

Lemma set_insert_fst_states cur e s :
  s ∈ Element.state <$> (set_insert cur e).1
  ↔ s = Element.state e ∨ s ∈ Element.state <$> cur.
Proof.
  destruct (set_insert cur e) as [cur' [x|]] eqn:Hins; simpl.
  - apply set_insert_found in Hins as (-> & Hx & Hin). split; [tauto|].
    intros [->|?]; [|done]. rewrite <-Hx. by apply list_elem_of_fmap_2.
  - by apply set_insert_new in Hins as (_ & Hs' & _).
Qed.

Lemma foldl_set_insert_spec subset cur :
  Sorted Z.lt (Element.state <$> cur) →
  let cur_subset := foldl (λ s e, (set_insert s e).1) cur subset in
  Sorted Z.lt (Element.state <$> cur_subset)
  ∧ ∀ s, s ∈ Element.state <$> cur_subset
         ↔ s ∈ Element.state <$> subset ∨ s ∈ Element.state <$> cur.
Proof.
  revert cur. induction subset as [|e subset IH]; intros cur Hs; simpl.
  { split; [done|]. intros s. rewrite elem_of_nil. tauto. }
  destruct (IH (set_insert cur e).1) as [IH1 IH2].
  { by apply set_insert_fst_sorted. }
  split; [done|]. intros s.
  rewrite IH2, set_insert_fst_states, elem_of_cons. tauto.
Qed.

Lemma next_string_suffix r elem arc : r `suffix_of` (next_string r elem arc).2.
Proof.
  unfold next_string. case_decide; [done|]. apply Successor_suffix.
Qed.

(** One pass over the arcs of [elem.state]. *)
Lemma closure_arcs_spec elem arcs r cur queue r' cur' queue' :
  closure_arcs sorted elem arcs r cur queue = Done (r', cur', queue') →
  Sorted Z.lt (Element.state <$> cur) →
  Sorted Z.lt (Element.state <$> cur')
  ∧ r `suffix_of` r'
  ∧ (∀ s, s ∈ (Element.state <$> cur) → s ∈ (Element.state <$> cur'))
  ∧ (∀ s, s ∈ (Element.state <$> queue) → s ∈ (Element.state <$> queue'))
  ∧ (∀ arc, arc ∈ followed_arcs sorted arcs →
            Arc.nextstate arc ∈ (Element.state <$> cur'))
  ∧ (∀ s, s ∈ (Element.state <$> cur') →
          s ∈ (Element.state <$> cur)
          ∨ s ∈ (Element.state <$> queue')
            ∧ ∃ arc, arc ∈ followed_arcs sorted arcs ∧ Arc.nextstate arc = s)
  ∧ (∀ s, s ∈ (Element.state <$> queue') →
          s ∈ (Element.state <$> queue)
          ∨ ∃ arc, arc ∈ followed_arcs sorted arcs ∧ Arc.nextstate arc = s).
Proof.
  revert r cur queue.
  induction arcs as [|arc arcs IH]; intros r cur queue; simpl.
  { intros [= <- <- <-] Hs. split_and!; try done.
    - by intros arc ?%elem_of_nil.
    - by left.
    - by left. }
  destruct (sorted && bool_decide (Arc.ilabel arc ≠ 0%Z)) eqn:Hbreak.
  { intros [= <- <- <-] Hs. split_and!; try done.
    - by intros a ?%elem_of_nil.
    - by left.
    - by left. }
  destruct (bool_decide (Arc.ilabel arc = 0%Z)
            && bool_decide (Arc.weight arc ≠ Zero)) eqn:Heps; [|by apply IH].
  pose proof (next_string_suffix r elem arc) as Hsuf.
  destruct (next_string r elem arc) as [str r1]. simpl in Hsuf.
  set (next_elem := Element.mk (Arc.nextstate arc) str
                      (Times (Element.weight elem) (Arc.weight arc))).
  destruct (set_insert cur next_elem) as [cur1 [x|]] eqn:Hins.
  - apply set_insert_found in Hins as (_ & Hx & Hin).
    assert (Arc.nextstate arc ∈ (Element.state <$> cur)) as Hnext.
    { change (Arc.nextstate arc) with (Element.state next_elem).
      rewrite <-Hx. by apply list_elem_of_fmap_2. }
    destruct (ComparePair r1 _ _ _ _) as [comp| | |]; try done.
    cbn [mbind res_bind]. destruct (decide (comp = 1%Z)) as [Hcomp|Hcomp].
    + intros Hrun Hs.
      apply IH in Hrun as (H1 & H2 & H3 & H4 & H5 & H6 & H7);
        [|by rewrite set_assign_states].
      setoid_rewrite set_assign_states in H3.
      setoid_rewrite set_assign_states in H6.
      split_and!; try done.
      * by etrans.
      * intros s Hq. apply H4. rewrite fmap_cons. by apply list_elem_of_further.
      * intros a [->|Ha]%elem_of_cons; [by apply H3|by apply H5].
      * intros s Hin'. destruct (H6 s Hin') as [?|(? & a & ? & ?)]; [by left|].
        right. split; [done|]. exists a. split; [|done].
        by apply list_elem_of_further.
      * intros s Hin'. destruct (H7 s Hin') as [Hq|(a & ? & ?)].
        -- rewrite fmap_cons in Hq. apply elem_of_cons in Hq as [->|Hq];
             [|by left].
           right. exists arc. split; [apply list_elem_of_here|done].
        -- right. exists a. split; [|done]. by apply list_elem_of_further.
    + intros Hrun Hs.
      apply IH in Hrun as (H1 & H2 & H3 & H4 & H5 & H6 & H7); [|done].
      split_and!; try done.
      * by etrans.
      * intros a [->|Ha]%elem_of_cons; [by apply H3|by apply H5].
      * intros s Hin'. destruct (H6 s Hin') as [?|(? & a & ? & ?)]; [by left|].
        right. split; [done|]. exists a. split; [|done].
        by apply list_elem_of_further.
      * intros s Hin'. destruct (H7 s Hin') as [Hq|(a & ? & ?)]; [by left|].
        right. exists a. split; [|done]. by apply list_elem_of_further.
  - apply set_insert_new in Hins as (Hs1 & Hst1 & _).
    intros Hrun Hs.
    apply IH in Hrun as (H1 & H2 & H3 & H4 & H5 & H6 & H7); [|by apply Hs1].
    assert (Arc.nextstate arc ∈ (Element.state <$> queue')) as Hq.
    { apply H4. rewrite fmap_cons. apply list_elem_of_here. }
    split_and!; try done.
    + by etrans.
    + intros s Hin. apply H3, Hst1. by right.
    + intros s Hin. apply H4. rewrite fmap_cons. by apply list_elem_of_further.
    + intros a [->|Ha]%elem_of_cons; [|by apply H5].
      apply H3, Hst1. by left.
    + intros s Hin'. destruct (H6 s Hin') as [Hc|(? & a & ? & ?)].
      * apply Hst1 in Hc as [->|Hc]; [|by left].
        right. split; [done|]. exists arc.
        split; [apply list_elem_of_here|done].
      * right. split; [done|]. exists a. split; [|done].
        by apply list_elem_of_further.
    + intros s Hin'. destruct (H7 s Hin') as [Hq'|(a & ? & ?)].
      * rewrite fmap_cons in Hq'. apply elem_of_cons in Hq' as [->|Hq'];
          [|by left].
        right. exists arc. split; [apply list_elem_of_here|done].
      * right. exists a. split; [|done]. by apply list_elem_of_further.
Qed.

Lemma closure_loop_spec from n r cur queue r' out :
  closure_loop ifst_ sorted n r cur queue = Done (r', out) →
  closure_inv ifst_ sorted from cur queue →
  closure_inv ifst_ sorted from out [] ∧ r `suffix_of` r'.
Proof.
  revert r cur queue. induction n as [|n IH]; intros r cur queue; simpl.
  { destruct queue; [|done]. by intros [= <- <-] ?. }
  destruct queue as [|elem queue]; [by intros [= <- <-] ?|].
  destruct (closure_arcs sorted elem _ r cur queue)
    as [[[r1 cur1] queue1]| | |] eqn:Harcs; try done.
  cbn [mbind res_bind]. intros Hloop (Hs & Hclosed & Hrc & Hrq & Hfrom).
  apply closure_arcs_spec in Harcs as (H1 & H2 & H3 & H4 & H5 & H6 & H7);
    [|done].
  assert (eps_reach ifst_ sorted from (Element.state elem)) as Helem.
  { apply Hrq. rewrite fmap_cons. apply list_elem_of_here. }
  apply IH in Hloop as [Hinv Hsuf]; [split; [done|by etrans]|].
  split_and!; try done.
  - intros s Hin. destruct (H6 s Hin) as [Hc|[Hq _]]; [|by left].
    destruct (Hclosed s Hc) as [Hq|Hcl].
    + rewrite fmap_cons in Hq. apply elem_of_cons in Hq as [->|Hq].
      * right. intros arc Ha. by apply H5.
      * left. by apply H4.
    + right. intros arc Ha. by apply H3, Hcl.
  - intros s Hin. destruct (H6 s Hin) as [Hc|[_ (a & Ha & <-)]].
    + by apply Hrc.
    + by eapply eps_reach_step.
  - intros s Hin. destruct (H7 s Hin) as [Hq|(a & Ha & <-)].
    + apply Hrq. rewrite fmap_cons. by apply list_elem_of_further.
    + by eapply eps_reach_step.
  - intros s Hin. by apply H3, Hfrom.
Qed.

Lemma EpsilonClosure_spec (fuel : nat) r subset r' out :
  EpsilonClosure ifst_ sorted fuel r subset = Done (r', out) →
  Sorted Z.lt (Element.state <$> out)
  ∧ (∀ s, s ∈ Element.state <$> out
          ↔ eps_reach ifst_ sorted (Element.state <$> subset) s)
  ∧ r `suffix_of` r'.
Proof.
  unfold EpsilonClosure. intros Hloop.
  destruct (foldl_set_insert_spec subset []) as [Hs0 Hst0]; [constructor|].
  apply (closure_loop_spec (Element.state <$> subset)) in Hloop
    as [(Hs & Hclosed & Hrc & _ & Hfrom) Hsuf].
  - split_and!; try done. intros s. split; [by apply Hrc|].
    induction 1 as [s Hin|s arc _ IH Harc]; [by apply Hfrom|].
    destruct (Hclosed s IH) as [?%elem_of_nil|Hcl]; [done|]. by apply Hcl.
  - split_and!; try done.
    + intros s Hin. left. apply Hst0 in Hin as [Hin|?%elem_of_nil]; [|done].
      by rewrite fmap_reverse, elem_of_reverse.
    + intros s Hin. apply eps_reach_here.
      by apply Hst0 in Hin as [Hin|?%elem_of_nil].
    + intros s Hin. apply eps_reach_here.
      by rewrite fmap_reverse, elem_of_reverse in Hin.
    + intros s Hin. apply Hst0. by left.
Qed.

(** X14.  When [EpsilonClosure] returns, the subset it leaves has one
    element for each state that is reached from a state of the input
    subset along followed arcs, and for no other state; the elements are
    in increasing order of state.  The repository has only grown. *)
Theorem EpsilonClosure_reached_states (fuel : nat) r subset r' out :
  EpsilonClosure ifst_ sorted fuel r subset = Done (r', out) →
  Sorted Z.lt (Element.state <$> out)
  ∧ (∀ s, s ∈ Element.state <$> out
          ↔ eps_reach ifst_ sorted (Element.state <$> subset) s)
  ∧ r `suffix_of` r'.
Proof. apply EpsilonClosure_spec. Qed.

End ClosureFacts.

Lemma EpsilonClosure_reached_states_witness :
  ∃ r' out,
    EpsilonClosure MoreExamples.eps_chain false 5 [] [Inputs.start_elem]
    = Done (r', out)
    ∧ Element.state <$> out = [0; 1; 2]%Z
    ∧ Sorted Z.lt (Element.state <$> out)
    ∧ (∀ s, s ∈ Element.state <$> out
            ↔ eps_reach MoreExamples.eps_chain false
                        (Element.state <$> [Inputs.start_elem]) s)
    ∧ [] `suffix_of` r'.
Proof.
  eexists _, _. split; [vm_compute; reflexivity|]. split; [reflexivity|].
  apply (EpsilonClosure_reached_states _ false 5).
  vm_compute; reflexivity.
Defined.

Section MinimalFacts.
Context {W : Type} `{!WeightOps W}.
Variable ifst_ : Fst.t W.
Variable sorted : bool.
Variable fuel : nat.
Implicit Types (cache : list OsymbolOrFinal) (subset : list (Element.t W))
  (det : Det W) (r : Repo).

Lemma ConvertToMinimal_loop_negative cache subset :
  cache_consistent ifst_ cache →
  Exists (λ e, (Element.state e < 0)%Z) subset →
  ConvertToMinimal_loop ifst_ cache subset = Aborted.
Proof.
  revert cache. induction subset as [|e subset IH]; intros cache Hc Hex.
  { by apply Exists_nil in Hex. }
  simpl. destruct (decide (0 ≤ Element.state e)%Z) as [Hpos|Hneg].
  - destruct (IsOsymbolOrFinal_has_output_label ifst_ cache _ Hpos Hc)
      as (cache' & -> & Hc').
    cbn [mbind res_bind]. apply Exists_cons in Hex as [?|Hex]; [lia|].
    by rewrite (IH cache' Hc' Hex).
  - unfold IsOsymbolOrFinal. by rewrite bool_decide_false by done.
Qed.

(** X15.  [ConvertToMinimal] keeps exactly the elements whose state has
    an arc with an output label, in their order; whether a state is final
    plays no part.  The flags it leaves in the cache are right again, so
    that a later call is answered the same way.  On the empty subset, or
    when a state number is negative, an assertion fails. *)
Theorem ConvertToMinimal_filters cache subset :
  cache_consistent ifst_ cache →
  (subset ≠ [] → Forall (λ e, (0 ≤ Element.state e)%Z) subset →
   ∃ cache',
     ConvertToMinimal ifst_ cache subset
     = Done (filter (λ e, has_output_label ifst_ (Element.state e)) subset,
             cache')
     ∧ cache_consistent ifst_ cache')
  ∧ (subset = [] ∨ Exists (λ e, (Element.state e < 0)%Z) subset →
     ConvertToMinimal ifst_ cache subset = Aborted).
Proof.
  intros Hc. split.
  - intros Hne Hpos. by apply ConvertToMinimal_keeps_output_labelled.
  - intros [->|Hex]; [done|]. unfold ConvertToMinimal.
    destruct subset as [|e subset]; [done|].
    rewrite bool_decide_true by done. cbn [assert mbind res_bind].
    by apply ConvertToMinimal_loop_negative.
Qed.

(** X16.  When the subset is not in the table and no state of its
    epsilon closure has an arc with an output label, [InitialToStateId]
    does not return: the subset that is left for [NormalizeSubset] is
    empty, and its assertion fails. *)
Theorem InitialToStateId_aborts_without_output_labels det subset_in r subset :
  hash_find (initial_hash_ det) subset_in = None →
  EpsilonClosure ifst_ sorted fuel (repository_ det) subset_in
    = Done (r, subset) →
  cache_consistent ifst_ (osymbol_or_final_ det) →
  Forall (λ e, (0 ≤ Element.state e)%Z
               ∧ has_output_label ifst_ (Element.state e) = false) subset →
  InitialToStateId ifst_ sorted fuel det subset_in = Aborted.
Proof.
  intros Hfind Hclosure Hc Hall. unfold InitialToStateId.
  rewrite Hfind, Hclosure. cbn [mbind res_bind].
  destruct (decide (subset = [])) as [->|Hne]; [done|].
  destruct (ConvertToMinimal_keeps_output_labelled ifst_
              (osymbol_or_final_ det) subset Hne)
    as (cache' & -> & _); [|done|].
  { eapply Forall_impl; [done|]. by intros e []. }
  cbn [mbind res_bind].
  replace (filter _ subset) with (@nil (Element.t W)); [done|].
  symmetry. clear Hne Hclosure. induction Hall as [|e subset [_ He] _ IH]; [done|].
  rewrite filter_cons_False by (rewrite He; intros []). done.
Qed.

End MinimalFacts.

Section NormalizedFacts.
Context {W : Type} `{!WeightOps W}.
Implicit Types (r : Repo) (elems : list (Element.t W)).

(** X17.  After [NormalizeSubset] the strings of the elements have no
    common prefix left: their longest common prefix is the empty
    sequence.  The elements keep their states and their order, and their
    strings are alive in the repository that is returned. *)
Theorem NormalizeSubset_leaves_no_common_prefix r elems :
  repo_wf r → strings_alive r elems →
  elems ≠ [] → subset_sum elems ≠ Zero →
  ∃ elems' common_str r' vs',
    NormalizeSubset r elems = Done (elems', common_str, subset_sum elems, r')
    ∧ strings_are r' elems' vs'
    ∧ longest_common_prefix [] vs'
    ∧ Element.state <$> elems' = Element.state <$> elems
    ∧ repo_wf r'.
Proof.
  intros Hwf Halive Hne Hsum.
  destruct (strings_alive_are r elems Halive) as [vs Hvs].
  destruct (NormalizeSubset_Done r elems vs Hwf Hvs Hne Hsum)
    as (elems' & common_str & r' & p & Heq & Hp & [Hpre Hlong] & Hnorm & Hwf' & _).
  assert (∃ vs', strings_are r' elems' vs' ∧ vs = (p ++.) <$> vs')
    as (vs' & Hvs' & ->).
  { clear Heq Hpre Hlong Hne Hsum Halive. revert vs Hvs.
    induction Hnorm as [|e e' es es' (_ & _ & v' & He & He') _ IH];
      intros vs Hvs.
    - inversion Hvs. exists []. split; [constructor|done].
    - inversion Hvs as [|?? v vs0 Hv Hvs0]; subst.
      destruct (IH vs0 Hvs0) as (vs' & Hvs' & ->).
      exists (v' :: vs'). split; [by constructor|].
      rewrite fmap_cons. f_equal. congruence. }
  exists elems', common_str, r', vs'. split_and!; try done.
  - split.
    + apply Forall_forall. intros v _. apply prefix_nil.
    + intros q Hq.
      assert (p ++ q `prefix_of` p) as Hpq.
      { apply Hlong. apply Forall_fmap. eapply Forall_impl; [exact Hq|].
        intros v Hv. simpl. by apply prefix_app. }
      destruct Hpq as [k Hk]. rewrite <-app_assoc in Hk.
      rewrite <-(app_nil_r p) in Hk at 1. apply app_inv_head in Hk.
      symmetry in Hk. apply app_eq_nil in Hk as [-> _]. done.
  - clear -Hnorm. induction Hnorm as [|e e' es es' (He & _) _ IH]; [done|].
    rewrite !fmap_cons. by f_equal.
Qed.

End NormalizedFacts.

Lemma ConvertToMinimal_filters_witness :
  ([Inputs.start_elem] ≠ [] →
   Forall (λ e : Element.t Tropical.t, (0 ≤ Element.state e)%Z)
          [Inputs.start_elem] →
   ∃ cache',
     ConvertToMinimal Inputs.final_only [] [Inputs.start_elem]
     = Done (filter (λ e, has_output_label Inputs.final_only (Element.state e))
                    [Inputs.start_elem], cache')
     ∧ cache_consistent Inputs.final_only cache')
  ∧ ([Inputs.start_elem] = []
     ∨ Exists (λ e : Element.t Tropical.t, (Element.state e < 0)%Z)
              [Inputs.start_elem] →
     ConvertToMinimal Inputs.final_only [] [Inputs.start_elem] = Aborted).
Proof.
  apply (ConvertToMinimal_filters Inputs.final_only [] [Inputs.start_elem]).
  apply cache_consistent_nil.
Defined.

Lemma InitialToStateId_aborts_without_output_labels_witness :
  InitialToStateId Inputs.one_arc false 4 empty_det
                   [Element.mk 1 0 (Tropical.Cost 0)] = Aborted.
Proof.
  apply (InitialToStateId_aborts_without_output_labels Inputs.one_arc false 4
           empty_det [Element.mk 1 0 (Tropical.Cost 0)] []
           [Element.mk 1 0 (Tropical.Cost 0)]).
  - reflexivity.
  - vm_compute; reflexivity.
  - apply cache_consistent_nil.
  - repeat constructor. simpl. lia.
Defined.

Lemma NormalizeSubset_leaves_no_common_prefix_witness :
  ∃ elems' common_str r' vs',
    NormalizeSubset Examples.repo4 Examples.subset2
    = Done (elems', common_str, subset_sum Examples.subset2, r')
    ∧ strings_are r' elems' vs'
    ∧ longest_common_prefix [] vs'
    ∧ Element.state <$> elems' = Element.state <$> Examples.subset2
    ∧ repo_wf r'.
Proof.
  apply NormalizeSubset_leaves_no_common_prefix.
  - exact repo4_wf.
  - repeat constructor; by eexists.
  - discriminate.
  - discriminate.
Defined.

Section TableFacts.
Context {W : Type} `{!WeightOps W}.
Variable ifst_ : Fst.t W.
Variable sorted : bool.
Variable fuel : nat.
Variable uninitialized : StateId → Label → StringId.
Implicit Types (det : Det W) (s : StateId) (subset : list (Element.t W)).

Lemma state_table_elem (l : list (list (Element.t W))) k (v : StateId) :
  (k, v) ∈ reverse (imap (λ i subset, (subset, Z.of_nat i)) l) ↔
  ∃ i, v = Z.of_nat i ∧ l !! i = Some k.
Proof.
  rewrite elem_of_reverse, elem_of_lookup_imap. split.
  - intros (i & x & [= -> ->] & Hx). eauto.
  - intros (i & -> & Hi). eauto.
Qed.

Lemma state_in_range_mono det det' s :
  length (output_arcs_ det) ≤ length (output_arcs_ det') →
  state_in_range det s → state_in_range det' s.
Proof. unfold state_in_range. lia. Qed.

Lemma tables_ok_same det det' :
  output_states_ det' = output_states_ det →
  output_arcs_ det' = output_arcs_ det →
  minimal_hash_ det' = minimal_hash_ det →
  initial_hash_ det' = initial_hash_ det →
  queue_ det' = queue_ det →
  tables_ok det → tables_ok det'.
Proof.
  unfold tables_ok, state_in_range. by intros -> -> -> -> ->.
Qed.

Lemma MinimalToStateId_tables det subset :
  tables_ok det →
  tables_ok (MinimalToStateId det subset).2
  ∧ state_in_range (MinimalToStateId det subset).2
                   (MinimalToStateId det subset).1
  ∧ length (output_arcs_ det)
    ≤ length (output_arcs_ (MinimalToStateId det subset).2).
Proof.
  intros (Hlen & Hhash & Harcs & Hinit & Hqueue & Hdist).
  unfold MinimalToStateId.
  destruct (hash_find (minimal_hash_ det) subset) as [ans|] eqn:Hfind; simpl.
  - split_and!; try done.
    apply hash_find_Some in Hfind as [k Hk]. rewrite Hhash in Hk.
    apply state_table_elem in Hk as (i & -> & Hi).
    apply lookup_lt_Some in Hi. unfold state_in_range. lia.
  - assert (∀ s, state_in_range det s →
                 (0 ≤ s < Z.of_nat (length (output_arcs_ det ++ [[]])))%Z)
      as Hmono.
    { unfold state_in_range. intros s. rewrite length_app. simpl. lia. }
    split_and!.
    + unfold tables_ok, state_in_range; simpl. split_and!.
      * rewrite !length_app. simpl. lia.
      * rewrite imap_app, reverse_app. simpl.
        rewrite Hhash, Hlen, Nat.add_0_r. done.
      * apply Forall_app. split; [|by repeat constructor].
        eapply Forall_impl; [exact Harcs|]. intros row Hrow.
        eapply Forall_impl; [exact Hrow|]. intros t Ht Htr. by apply Hmono, Ht.
      * eapply Forall_impl; [exact Hinit|]. intros kv. apply Hmono.
      * constructor.
        -- rewrite length_app. simpl. lia.
        -- eapply Forall_impl; [exact Hqueue|]. intros s. apply Hmono.
      * intros i j si sj Hij Hi Hj.
        assert (i < length (output_states_ det)) as Hi'.
        { apply lookup_lt_Some in Hj. rewrite length_app in Hj. simpl in Hj.
          lia. }
        rewrite lookup_app_l in Hi by done.
        destruct (decide (j < length (output_states_ det))) as [Hj'|Hj'].
        { rewrite lookup_app_l in Hj by done. by apply (Hdist i j). }
        rewrite lookup_app_r in Hj by lia.
        apply list_lookup_singleton_Some in Hj as [_ <-].
        eapply hash_find_None; [exact Hfind|].
        rewrite Hhash. apply state_table_elem. eauto.
    + unfold state_in_range; simpl. rewrite length_app. simpl. lia.
    + rewrite length_app. lia.
Qed.

Lemma InitialToStateId_tables det subset_in ans out det' :
  tables_ok det →
  InitialToStateId ifst_ sorted fuel det subset_in = Done (ans, out, det') →
  tables_ok det' ∧ state_in_range det' ans.
Proof.
  intros Hok. unfold InitialToStateId.
  destruct (hash_find (initial_hash_ det) subset_in) as [elem|] eqn:Hfind.
  - intros [= <- <- <-]. split; [done|].
    apply hash_find_Some in Hfind as [k Hk].
    destruct Hok as (_ & _ & _ & Hinit & _).
    rewrite Forall_forall in Hinit. by apply (Hinit _ Hk).
  - destruct (EpsilonClosure _ _ _ _ _) as [[r subset]| | |]; try done.
    cbn [mbind res_bind].
    destruct (ConvertToMinimal _ _ _) as [[subset' cache]| | |]; try done.
    cbn [mbind res_bind].
    destruct (NormalizeSubset _ _) as [[[[subset'' str] w] r']| | |]; try done.
    cbn [mbind res_bind].
    set (det1 := set_osymbol_or_final (set_repository det r') cache).
    assert (tables_ok det1) as Hok1 by by eapply tables_ok_same.
    destruct (MinimalToStateId_tables det1 subset'' Hok1) as (Hok2 & Hans & _).
    destruct (MinimalToStateId det1 subset'') as [ans' det2].
    simpl in Hok2, Hans. intros [= <- <- <-].
    split; [|done].
    destruct Hok2 as (Hlen & Hhash & Harcs & Hinit & Hqueue & Hdist).
    unfold tables_ok, state_in_range in *; simpl. split_and!; try done.
    by constructor.
Qed.

Lemma push_arc_tables det s temp_arc det' :
  tables_ok det →
  (is_transition temp_arc → state_in_range det (TempArc.nextstate temp_arc)) →
  push_arc det s temp_arc = Done det' →
  tables_ok det'.
Proof.
  intros (Hlen & Hhash & Harcs & Hinit & Hqueue & Hdist) Harc. unfold push_arc.
  destruct (assert _); try done. cbn [mbind res_bind].
  destruct (output_arcs_ det !! Z.to_nat s) as [this_vec|] eqn:Hrow; try done.
  cbn [deref mbind res_bind]. intros [= <-].
  unfold tables_ok, state_in_range in *; simpl.
  rewrite !length_insert. split_and!; try done.
  apply Forall_insert; [done|]. apply Forall_app.
  split; [|constructor; [exact Harc|constructor]].
  by eapply Forall_lookup_1 in Harcs.
Qed.

Lemma ProcessTransition_tables det s ilabel subset det' :
  tables_ok det →
  ProcessTransition ifst_ sorted fuel uninitialized det s ilabel subset
    = Done det' →
  tables_ok det'.
Proof.
  intros Hok. unfold ProcessTransition.
  destruct (MakeSubsetUnique _ _) as [subset1| | |]; try done.
  cbn [mbind res_bind].
  destruct (NormalizeSubset _ _) as [[[[subset2 str] w] r1]| | |]; try done.
  cbn [mbind res_bind].
  destruct (InitialToStateId _ _ _ _ _) as [[[nextstate out] det1]| | |] eqn:Hinit;
    try done.
  cbn [mbind res_bind].
  apply InitialToStateId_tables in Hinit as [Hok1 Hnext];
    [|by eapply tables_ok_same].
  destruct out as [w' s'|].
  - destruct (Concatenate _ _ _) as [[str' r2]| | |]; try done.
    cbn [mbind res_bind]. intros Hpush.
    eapply push_arc_tables in Hpush; [done| |done].
    by eapply tables_ok_same.
  - destruct (Concatenate _ _ _) as [[str' r2]| | |]; try done.
    cbn [mbind res_bind]. intros Hpush.
    eapply push_arc_tables in Hpush; [done| |done].
    by eapply tables_ok_same.
Qed.

Lemma process_runs_tables det s runs det' :
  tables_ok det →
  process_runs ifst_ sorted fuel uninitialized det s runs = Done det' →
  tables_ok det'.
Proof.
  revert det. induction runs as [|[ilabel this_subset] runs IH]; intros det Hok;
    simpl; [by intros [= <-]|].
  destruct (ProcessTransition _ _ _ _ _ _ _ _) as [det1| | |] eqn:Hp; try done.
  cbn [mbind res_bind]. apply IH. by eapply ProcessTransition_tables.
Qed.

Lemma ProcessFinal_tables det s det' :
  tables_ok det → ProcessFinal ifst_ det s = Done det' → tables_ok det'.
Proof.
  intros Hok. unfold ProcessFinal.
  destruct (deref _) as [minimal_subset| | |]; try done. cbn [mbind res_bind].
  destruct (final_loop _ _ _ _ _ _) as [[[is_final str] w]| | |]; try done.
  cbn [mbind res_bind]. destruct is_final; [|by intros [= <-]].
  intros Hpush. eapply push_arc_tables in Hpush; [done|done|].
  intros Htr. by destruct Htr.
Qed.

Lemma ProcessState_tables det s det' :
  tables_ok det →
  ProcessState ifst_ sorted fuel uninitialized det s = Done det' →
  tables_ok det'.
Proof.
  intros Hok. unfold ProcessState.
  destruct (ProcessFinal _ _ _) as [det1| | |] eqn:Hf; try done.
  cbn [mbind res_bind]. apply ProcessFinal_tables in Hf; [|done].
  unfold ProcessTransitions.
  destruct (deref _) as [minimal_subset| | |]; try done. cbn [mbind res_bind].
  destruct (collect_elems _ _ _) as [all_elems r].
  apply process_runs_tables. by eapply tables_ok_same.
Qed.

Lemma Determinize_loop_tables n det det' :
  tables_ok det →
  Determinize_loop ifst_ sorted fuel uninitialized n det = Done det' →
  tables_ok det' ∧ queue_ det' = [].
Proof.
  revert det. induction n as [|n IH]; intros det Hok; simpl;
    destruct (queue_ det) as [|s queue'] eqn:Hqueue;
    try done; try (by intros [= <-]).
  destruct (ProcessState _ _ _ _ _ _) as [det1| | |] eqn:Hp; try done.
  cbn [mbind res_bind]. apply IH. eapply ProcessState_tables; [|done].
  destruct Hok as (Hlen & Hhash & Harcs & Hinit & Hq & Hdist).
  unfold tables_ok, state_in_range in *; simpl. split_and!; try done.
  rewrite Hqueue in Hq. by apply Forall_cons in Hq as [_ ?].
Qed.

Lemma Initialize_tables det :
  Initialize ifst_ sorted fuel empty_det = Done det → tables_ok det.
Proof.
  unfold Initialize. case_decide.
  - destruct (EpsilonClosure _ _ _ _ _) as [[r subset]| | |]; try done.
    cbn [mbind res_bind].
    destruct (ConvertToMinimal _ _ _) as [[subset1 cache]| | |]; try done.
    cbn. intros [= <-]. unfold tables_ok, state_in_range; simpl.
    split_and!; try done.
    + by repeat constructor.
    + by repeat constructor.
    + intros [|i] [|j] si sj Hij; try done; lia.
  - intros [= <-]. unfold tables_ok; simpl. split_and!; try done.
Qed.

Lemma LatticeDeterminizer_tables det :
  LatticeDeterminizer ifst_ sorted fuel uninitialized = Done det →
  tables_ok det ∧ queue_ det = [].
Proof.
  unfold LatticeDeterminizer, Determinize.
  destruct (Initialize _ _ _ _) as [det0| | |] eqn:Hi; try done.
  cbn [mbind res_bind]. intros Hd. apply Initialize_tables in Hi.
  by eapply Determinize_loop_tables.
Qed.

(** X18.  When the determinizer has run to its end, the queue is empty,
    the state table and the table of arcs have a row for every output
    state, and every transition leads to an output state. *)
Theorem determinized_arcs_lead_to_states det :
  LatticeDeterminizer ifst_ sorted fuel uninitialized = Done det →
  queue_ det = []
  ∧ length (output_states_ det) = length (output_arcs_ det)
  ∧ ∀ row temp_arc,
      row ∈ output_arcs_ det → temp_arc ∈ row → is_transition temp_arc →
      (0 ≤ TempArc.nextstate temp_arc
         < Z.of_nat (length (output_arcs_ det)))%Z.
Proof.
  intros [(Hlen & _ & Harcs & _) Hq]%LatticeDeterminizer_tables.
  split_and!; try done. intros row t Hrow Ht Htr.
  rewrite Forall_forall in Harcs. specialize (Harcs row Hrow).
  rewrite Forall_forall in Harcs. by apply Harcs.
Qed.

(** X19.  When the determinizer has run to its end, [minimal_hash_]
    holds the subset of every output state with the number of that
    state, and nothing else; and the subsets of two different output
    states are told apart by [SubsetEqual], the later one compared with
    the earlier one. *)
Theorem determinized_states_are_distinct det :
  LatticeDeterminizer ifst_ sorted fuel uninitialized = Done det →
  (∀ subset s,
     (subset, s) ∈ minimal_hash_ det
     ↔ ∃ i, s = Z.of_nat i ∧ output_states_ det !! i = Some subset)
  ∧ ∀ i j si sj, i < j →
      output_states_ det !! i = Some si → output_states_ det !! j = Some sj →
      SubsetEqual si sj = false.
Proof.
  intros [(_ & Hhash & _ & _ & _ & Hdist) _]%LatticeDeterminizer_tables.
  split; [|done]. intros subset s. rewrite Hhash. apply state_table_elem.
Qed.

End TableFacts.

Lemma determinized_arcs_lead_to_states_witness :
  ∃ det,
    LatticeDeterminizer Inputs.two_paths false 4 Examples.no_string = Done det
    ∧ queue_ det = []
    ∧ length (output_states_ det) = length (output_arcs_ det)
    ∧ ∀ row temp_arc,
        row ∈ output_arcs_ det → temp_arc ∈ row → is_transition temp_arc →
        (0 ≤ TempArc.nextstate temp_arc
           < Z.of_nat (length (output_arcs_ det)))%Z.
Proof.
  eexists. split; [vm_compute; reflexivity|].
  apply (determinized_arcs_lead_to_states Inputs.two_paths false 4
           Examples.no_string).
  vm_compute; reflexivity.
Defined.

Lemma determinized_states_are_distinct_witness :
  ∃ det,
    LatticeDeterminizer Inputs.two_paths false 4 Examples.no_string = Done det
    ∧ (∀ subset s,
         (subset, s) ∈ minimal_hash_ det
         ↔ ∃ i, s = Z.of_nat i ∧ output_states_ det !! i = Some subset)
    ∧ ∀ i j si sj, i < j →
        output_states_ det !! i = Some si →
        output_states_ det !! j = Some sj →
        SubsetEqual si sj = false.
Proof.
  eexists. split; [vm_compute; reflexivity|].
  apply (determinized_states_are_distinct Inputs.two_paths false 4
           Examples.no_string).
  vm_compute; reflexivity.
Defined.

Section OutputFacts.
Context {W : Type} `{!WeightOps W}.
Implicit Types (det : Det W) (row : list (TempArc.t W))
  (rows : list (list (TempArc.t W))) (r : Repo).

Lemma add_states_Done {A} (zero : A) n (f : Fst.t A) :
  add_states zero n (Z.of_nat (length (Fst.states f))) f
  = Done (Fst.mk (Fst.start f)
                 (Fst.states f ++ replicate n (Fst.mkState zero []))).
Proof.
  revert f. induction n as [|n IH]; intros f; simpl.
  { rewrite app_nil_r. by destruct f. }
  rewrite bool_decide_true by done. cbn [assert mbind res_bind].
  replace (Z.of_nat (length (Fst.states f)) + 1)%Z
    with (Z.of_nat (length (Fst.states
            (Fst.mk (Fst.start f) (Fst.states f ++ [Fst.mkState zero []])))))
    by (simpl; rewrite length_app; simpl; lia).
  rewrite IH. simpl. by rewrite <-app_assoc.
Qed.

Lemma table_alive_null rows : strings_null rows → table_alive [] rows.
Proof.
  intros Hnull. eapply Forall_impl; [exact Hnull|]. intros row Hrow.
  eapply Forall_impl; [exact Hrow|]. intros t ->. by eexists.
Qed.

Lemma output_arcs_alive r (ofst : Fst.t W) s row :
  Forall (λ t, is_Some (ConvertToVector r (TempArc.string t))) row →
  is_done (output_arcs r ofst s row).
Proof.
  intros Hrow. revert ofst.
  induction Hrow as [|t row [seq Hseq] _ IH]; intros ofst; simpl; [by eexists|].
  rewrite Hseq. cbn [deref mbind res_bind]. apply IH.
Qed.

Lemma output_states_alive r (ofst : Fst.t W) s rows :
  table_alive r rows → is_done (output_states r ofst s rows).
Proof.
  intros Hrows. revert ofst s.
  induction Hrows as [|row rows Hrow _ IH]; intros ofst s; simpl; [by eexists|].
  destruct (output_arcs_alive r ofst s row Hrow) as [ofst' ->].
  cbn [mbind res_bind]. apply IH.
Qed.

Lemma output_compact_arcs_alive r (ofst : Fst.t (@CompactWeight W)) s row :
  Forall (λ t, is_Some (ConvertToVector r (TempArc.string t))) row →
  is_done (output_compact_arcs r ofst s row).
Proof.
  intros Hrow. revert ofst.
  induction Hrow as [|t row [seq Hseq] _ IH]; intros ofst; simpl; [by eexists|].
  rewrite Hseq. cbn [deref mbind res_bind]. case_decide; apply IH.
Qed.

Lemma output_compact_states_alive r (ofst : Fst.t (@CompactWeight W)) s rows :
  table_alive r rows → is_done (output_compact_states r ofst s rows).
Proof.
  intros Hrows. revert ofst s.
  induction Hrows as [|row rows Hrow _ IH]; intros ofst s; simpl; [by eexists|].
  destruct (output_compact_arcs_alive r ofst s row Hrow) as [ofst' ->].
  cbn [mbind res_bind]. apply IH.
Qed.

Lemma ConvertToVector_destroyed h :
  h ≠ 0 → ConvertToVector (Destroy []) h = None.
Proof. by destruct h. Qed.

Lemma output_arcs_dangling (ofst : Fst.t W) s row :
  Exists (λ t, TempArc.string t ≠ 0) row →
  output_arcs [] ofst s row = Undef.
Proof.
  intros Hrow. revert ofst.
  induction Hrow as [t row Ht|t row _ IH]; intros ofst; simpl.
  - destruct (TempArc.string t); done.
  - destruct (TempArc.string t); [|done]. simpl. apply IH.
Qed.

Lemma output_states_dangling (ofst : Fst.t W) s rows :
  some_string rows → output_states [] ofst s rows = Undef.
Proof.
  intros Hrows. revert ofst s.
  induction rows as [|row rows IH]; intros ofst s; [by apply Exists_nil in Hrows|].
  simpl. destruct (decide (Exists (λ t, TempArc.string t ≠ 0) row)) as [Hrow|Hrow].
  - by rewrite output_arcs_dangling.
  - apply Exists_cons in Hrows as [?|Hrows]; [done|].
    destruct (output_arcs_alive [] ofst s row) as [ofst' ->].
    { apply not_Exists_Forall in Hrow; [|apply _].
      eapply Forall_impl; [exact Hrow|]. intros t Ht. simpl in Ht.
      apply dec_stable in Ht. rewrite Ht. by eexists. }
    cbn [mbind res_bind]. by apply IH.
Qed.

Lemma output_compact_arcs_dangling (ofst : Fst.t (@CompactWeight W)) s row :
  Exists (λ t, TempArc.string t ≠ 0) row →
  output_compact_arcs [] ofst s row = Undef.
Proof.
  intros Hrow. revert ofst.
  induction Hrow as [t row Ht|t row _ IH]; intros ofst; simpl.
  - destruct (TempArc.string t); done.
  - destruct (TempArc.string t); [|done]. simpl. case_decide; apply IH.
Qed.

Lemma output_compact_states_dangling (ofst : Fst.t (@CompactWeight W)) s rows :
  some_string rows → output_compact_states [] ofst s rows = Undef.
Proof.
  intros Hrows. revert ofst s.
  induction rows as [|row rows IH]; intros ofst s; [by apply Exists_nil in Hrows|].
  simpl. destruct (decide (Exists (λ t, TempArc.string t ≠ 0) row)) as [Hrow|Hrow].
  - by rewrite output_compact_arcs_dangling.
  - apply Exists_cons in Hrows as [?|Hrows]; [done|].
    destruct (output_compact_arcs_alive [] ofst s row) as [ofst' ->].
    { apply not_Exists_Forall in Hrow; [|apply _].
      eapply Forall_impl; [exact Hrow|]. intros t Ht. simpl in Ht.
      apply dec_stable in Ht. rewrite Ht. by eexists. }
    cbn [mbind res_bind]. by apply IH.
Qed.

Lemma Output_unfold det (ofst : Fst.t W) destroy :
  output_arcs_ det ≠ [] →
  Output det ofst destroy
  = ofst' ← output_states
              (repository_ (if destroy then FreeMostMemory det else det))
              (Fst.mk 0%Z (replicate (length (output_arcs_ det))
                                     (Fst.mkState Zero [])))
              0%Z (output_arcs_ det);
    Done (ofst', if destroy
                 then set_output_arcs (FreeMostMemory det) [] else det).
Proof.
  intros Hne. unfold Output. cbv zeta.
  rewrite decide_False by (by intros ?%length_zero_iff_nil).
  rewrite (add_states_Done Zero (length (output_arcs_ det))
             (Fst.DeleteStates ofst)).
  cbn [mbind res_bind]. by destruct destroy.
Qed.

Lemma Output_compact_unfold det (cofst : Fst.t (@CompactWeight W)) destroy :
  output_arcs_ det ≠ [] →
  Output_compact det cofst destroy
  = ofst' ← output_compact_states
              (repository_ (if destroy then FreeMostMemory det else det))
              (Fst.mk 0%Z (replicate (length (output_arcs_ det))
                                     (Fst.mkState CompactZero [])))
              0%Z (output_arcs_ det);
    Done (ofst', if destroy
                 then set_output_arcs (FreeMostMemory det) [] else det).
Proof.
  intros Hne. unfold Output_compact. cbv zeta.
  rewrite decide_False by (by intros ?%length_zero_iff_nil).
  rewrite (add_states_Done CompactZero (length (output_arcs_ det))
             (Fst.SetStart (Fst.DeleteStates cofst) kNoStateId)).
  cbn [mbind res_bind]. by destruct destroy.
Qed.

(** X20.  With [destroy] set, which is the default, both [Output]
    functions return when every string of the table of arcs is the empty
    string; when some string is not, they read an entry of the
    repository that [FreeMostMemory] has deleted. *)
Theorem Output_destroy_needs_empty_strings det (ofst : Fst.t W)
    (cofst : Fst.t (@CompactWeight W)) :
  (strings_null (output_arcs_ det) →
   is_done (Output det ofst true) ∧ is_done (Output_compact det cofst true))
  ∧ (some_string (output_arcs_ det) →
     Output det ofst true = Undef ∧ Output_compact det cofst true = Undef).
Proof.
  destruct (decide (output_arcs_ det = [])) as [Hnil|Hne].
  { unfold Output, Output_compact. rewrite Hnil. simpl.
    split; [by split; eexists|]. by intros ?%Exists_nil. }
  rewrite Output_unfold, Output_compact_unfold by done.
  change (repository_ (FreeMostMemory det)) with (@nil Entry).
  split.
  - intros Hnull%table_alive_null. split.
    + destruct (output_states_alive [] (Fst.mk 0%Z
         (replicate (length (output_arcs_ det)) (Fst.mkState Zero []))) 0%Z
         (output_arcs_ det) Hnull) as [ofst' ->].
      by eexists.
    + destruct (output_compact_states_alive [] (Fst.mk 0%Z
         (replicate (length (output_arcs_ det)) (Fst.mkState CompactZero [])))
         0%Z (output_arcs_ det) Hnull) as [ofst' ->].
      by eexists.
  - intros Hsome.
    by rewrite output_states_dangling, output_compact_states_dangling.
Qed.

(** X21.  Without [destroy], both [Output] functions return when every
    string of the table of arcs is alive in the repository, and they
    leave the determinizer as it is. *)
Theorem Output_keeps_determinizer det (ofst : Fst.t W)
    (cofst : Fst.t (@CompactWeight W)) :
  table_alive (repository_ det) (output_arcs_ det) →
  (∃ ofst', Output det ofst false = Done (ofst', det))
  ∧ (∃ cofst', Output_compact det cofst false = Done (cofst', det)).
Proof.
  intros Halive.
  destruct (decide (output_arcs_ det = [])) as [Hnil|Hne].
  { unfold Output, Output_compact. rewrite Hnil. simpl. split; by eexists. }
  rewrite Output_unfold, Output_compact_unfold by done.
  split.
  - destruct (output_states_alive (repository_ det) (Fst.mk 0%Z
       (replicate (length (output_arcs_ det)) (Fst.mkState Zero []))) 0%Z
       (output_arcs_ det) Halive) as [ofst' ->].
    by eexists.
  - destruct (output_compact_states_alive (repository_ det) (Fst.mk 0%Z
       (replicate (length (output_arcs_ det)) (Fst.mkState CompactZero [])))
       0%Z (output_arcs_ det) Halive) as [ofst' ->].
    by eexists.
Qed.

End OutputFacts.

Lemma Output_keeps_determinizer_witness :
  (∃ ofst', Output MoreExamples.looping_det (Fst.mk kNoStateId []) false
            = Done (ofst', MoreExamples.looping_det))
  ∧ (∃ cofst', Output_compact MoreExamples.looping_det (Fst.mk kNoStateId []) false
               = Done (cofst', MoreExamples.looping_det)).
Proof.
  apply Output_keeps_determinizer.
  repeat constructor; by eexists.
Defined.

Section CompactShape.
Context {W : Type} `{!WeightOps W}.
Implicit Types (det : Det W) (row : list (TempArc.t W))
  (rows : list (list (TempArc.t W))) (r : Repo)
  (cofst : Fst.t (@CompactWeight W)).

Lemma compact_final_of_cons_final r t row old w seq :
  ¬ is_transition t →
  ConvertToVector r (TempArc.string t) = Some seq →
  compact_final_of r row (TempArc.weight t, seq) w →
  compact_final_of r (t :: row) old w.
Proof.
  intros Ht Hseq. unfold compact_final_of.
  rewrite filter_cons_True by done.
  destruct (filter _ row) as [|t' l] eqn:Hf; simpl.
  - by intros ->.
  - destruct (last (t' :: l)) eqn:Hl; [done|]. by apply last_None in Hl.
Qed.

Lemma compact_final_of_cons_transition r t row old w :
  is_transition t →
  compact_final_of r row old w → compact_final_of r (t :: row) old w.
Proof.
  intros Ht. unfold compact_final_of. by rewrite filter_cons_False by auto.
Qed.

Lemma output_compact_arcs_shape r cofst s row cofst' :
  output_compact_arcs r cofst s row = Done cofst' →
  length (Fst.states cofst') = length (Fst.states cofst)
  ∧ Fst.start cofst' = Fst.start cofst
  ∧ (∀ j, j ≠ Z.to_nat s → Fst.states cofst' !! j = Fst.states cofst !! j)
  ∧ (∀ st, Fst.states cofst !! Z.to_nat s = Some st →
       ∃ st' new, Fst.states cofst' !! Z.to_nat s = Some st'
         ∧ Fst.arcs st' = Fst.arcs st ++ new
         ∧ Forall2 (compact_arc_of r) (filter is_transition row) new
         ∧ compact_final_of r row (Fst.final st) (Fst.final st')).
Proof.
  revert cofst. induction row as [|t row IH]; intros cofst; simpl.
  { intros [= <-]. split_and!; try done. intros st Hst. exists st, [].
    rewrite app_nil_r. split_and!; try done; constructor. }
  destruct (ConvertToVector r (TempArc.string t)) as [seq|] eqn:Hseq; [|done].
  cbn [deref mbind res_bind].
  destruct (decide (TempArc.nextstate t = kNoStateId)) as [Hfinal|Htr];
    intros Hrest; apply IH in Hrest as (Hlen & Hstart & Hother & Hthis);
    simpl in *; rewrite length_alter in Hlen.
  - split_and!; try done.
    + intros j Hj. rewrite Hother by done. by rewrite list_lookup_alter_ne.
    + intros st Hst.
      destruct (Hthis (Fst.mkState (TempArc.weight t, seq) (Fst.arcs st)))
        as (st' & new & Hst' & Harcs & Hnew & Hfin).
      { by rewrite list_lookup_alter_eq, Hst. }
      exists st', new. split_and!; try done.
      * rewrite filter_cons_False; [done|]. unfold is_transition. auto.
      * eapply compact_final_of_cons_final; [|done|done].
        unfold is_transition. auto.
  - split_and!; try done.
    + intros j Hj. rewrite Hother by done. by rewrite list_lookup_alter_ne.
    + intros st Hst.
      edestruct Hthis as (st' & new & Hst' & Harcs & Hnew & Hfin).
      { by rewrite list_lookup_alter_eq, Hst. }
      simpl in *. eexists st', (_ :: new). split_and!; try done.
      * rewrite Harcs. by rewrite <-app_assoc.
      * rewrite filter_cons_True by done. constructor; [|done].
        by split_and!.
      * by apply compact_final_of_cons_transition.
Qed.

Lemma output_compact_states_shape r cofst i rows cofst' :
  (0 ≤ i)%Z →
  Z.to_nat i + length rows ≤ length (Fst.states cofst) →
  (∀ j, Z.to_nat i ≤ j → j < length (Fst.states cofst) →
        Fst.states cofst !! j = Some (Fst.mkState CompactZero [])) →
  output_compact_states r cofst i rows = Done cofst' →
  length (Fst.states cofst') = length (Fst.states cofst)
  ∧ Fst.start cofst' = Fst.start cofst
  ∧ (∀ j, j < Z.to_nat i → Fst.states cofst' !! j = Fst.states cofst !! j)
  ∧ (∀ k row, rows !! k = Some row →
       ∃ st, Fst.states cofst' !! (Z.to_nat i + k) = Some st
             ∧ compact_state_of r row st).
Proof.
  revert cofst i. induction rows as [|row rows IH]; intros cofst i Hi Hlen Hinit;
    simpl.
  { intros [= <-]. split_and!; try done. }
  destruct (output_compact_arcs _ _ _ _) as [cofst1| | |] eqn:Hrow; try done.
  cbn [mbind res_bind]. intros Hrest.
  apply output_compact_arcs_shape in Hrow as (Hlen1 & Hstart1 & Hother & Hthis).
  simpl in Hlen.
  apply IH in Hrest as (Hlen2 & Hstart2 & Hbefore & Hrows); [|lia|lia|].
  - split_and!; [congruence|congruence| |].
    + intros j Hj. rewrite Hbefore by lia. apply Hother. lia.
    + intros [|k] row' Hk; simpl in Hk.
      * injection Hk as <-. rewrite Nat.add_0_r, Hbefore by lia.
        destruct (Hthis (Fst.mkState CompactZero []))
          as (st' & new & Hst' & Harcs & Hnew & Hfin).
        { apply Hinit; lia. }
        exists st'. split; [done|]. split; [|done].
        by rewrite Harcs.
      * destruct (Hrows k row' Hk) as (st & Hst & Hspec).
        exists st. split; [|done]. rewrite <-Hst. f_equal. lia.
  - intros j Hj Hj'. rewrite Hother by lia. apply Hinit; lia.
Qed.

(** X22.  The compact output has one state for every output state of
    the determinizer, in the same order, and state 0 is its start state.
    The arcs of a state stand for the transitions of its row, one each
    and in their order: an arc reads and writes the input label of the
    transition, leads to the same state, and weighs the weight of the
    transition together with the sequence that its string reads as.  The
    final weight of a state is that of the last final weight recorded in
    the row, with its sequence, and is [Zero] with the empty sequence
    when the row records none. *)
Theorem Output_compact_one_state_per_row det cofst destroy cofst' det' :
  output_arcs_ det ≠ [] →
  Output_compact det cofst destroy = Done (cofst', det') →
  Fst.start cofst' = 0%Z
  ∧ Fst.NumStates cofst' = length (output_arcs_ det)
  ∧ ∀ s row, output_arcs_ det !! s = Some row →
      ∃ st, Fst.states cofst' !! s = Some st
            ∧ compact_state_of
                (repository_ (if destroy then FreeMostMemory det else det))
                row st.
Proof.
  intros Hne. rewrite Output_compact_unfold by done.
  destruct (output_compact_states _ _ _ _) as [cofst1| | |] eqn:Hout; try done.
  cbn [mbind res_bind]. intros [= <- _].
  apply output_compact_states_shape in Hout as (Hlen & Hstart & _ & Hrows);
    simpl; rewrite ?length_replicate; try lia.
  - simpl in Hlen, Hstart. rewrite length_replicate in Hlen.
    split_and!; try done.
  - intros j _ Hj. by apply lookup_replicate_2.
Qed.

Lemma output_arcs_length r (ofst : Fst.t W) s row ofst' :
  (0 ≤ s)%Z → Z.to_nat s < length (Fst.states ofst) →
  output_arcs r ofst s row = Done ofst' →
  length (Fst.states ofst')
  = length (Fst.states ofst) + sum_list_with (chain_length r) row
  ∧ Fst.start ofst' = Fst.start ofst.
Proof.
  intros Hs. revert ofst. induction row as [|t row IH]; intros ofst Hlt; simpl.
  { intros [= <-]. split; [lia|done]. }
  unfold chain_length at 1.
  destruct (ConvertToVector r (TempArc.string t)) as [seq|] eqn:Hseq; [|done].
  cbn [deref mbind res_bind]. intros Hrest.
  pose proof (output_temp_arc_chain ofst s t seq Hs Hlt) as Hch.
  cbv zeta in Hch.
  assert (length (Fst.states (output_temp_arc ofst s t seq))
          = length (Fst.states ofst)
            + (if decide (TempArc.nextstate t = kNoStateId) then length seq
               else length seq - 1)) as Hlen.
  { rewrite Hch. case_decide.
    - unfold final_chain_arcs. destruct seq as [|l seq]; simpl.
      + rewrite length_alter. lia.
      + rewrite !length_app, length_alter, length_fmap, length_imap. simpl. lia.
    - unfold chain_arcs. destruct seq as [|l seq]; simpl.
      + rewrite length_alter. lia.
      + rewrite !length_app, length_alter, length_fmap, length_imap. lia. }
  assert (Fst.start (output_temp_arc ofst s t seq) = Fst.start ofst) as Hstart.
  { unfold output_temp_arc. clear. case_decide.
    - generalize 0 at 1. revert ofst s.
      induction seq as [|l seq IH]; intros ofst s i; simpl; [done|].
      specialize (IH (Fst.AddArc
        (Fst.mk (Fst.start ofst) (Fst.states ofst ++ [Fst.mkState Zero []]))
        s (Arc.mk 0%Z l (if decide (i = 0) then TempArc.weight t else One)
             (Z.of_nat (length (Fst.states ofst)))))
        (Z.of_nat (length (Fst.states ofst))) (S i)).
      destruct (final_chain _ _ _ _ _) as [ofst1 cur1]. simpl in *. done.
    - generalize 0 at 1. revert ofst s.
      induction seq as [|l seq IH]; intros ofst s i; simpl; [done|].
      destruct seq as [|l' seq]; [done|].
      specialize (IH (Fst.AddArc
        (Fst.mk (Fst.start ofst) (Fst.states ofst ++ [Fst.mkState Zero []]))
        s (Arc.mk (if decide (i = 0) then TempArc.ilabel t else 0%Z) l
             (if decide (i = 0) then TempArc.weight t else One)
             (Z.of_nat (length (Fst.states ofst)))))
        (Z.of_nat (length (Fst.states ofst))) (S i)).
      destruct (arc_chain _ _ _ _ _ (l' :: seq)) as [ofst1 cur1].
      simpl in *. done. }
  apply IH in Hrest as [Hlen' Hstart']; [|lia].
  split; [|congruence]. rewrite Hlen', Hlen. by rewrite <-Nat.add_assoc.
Qed.

Lemma output_states_length r (ofst : Fst.t W) i rows ofst' :
  (0 ≤ i)%Z → Z.to_nat i + length rows ≤ length (Fst.states ofst) →
  output_states r ofst i rows = Done ofst' →
  length (Fst.states ofst')
  = length (Fst.states ofst) + sum_list_with (chain_length r) (concat rows)
  ∧ Fst.start ofst' = Fst.start ofst.
Proof.
  revert ofst i. induction rows as [|row rows IH]; intros ofst i Hi Hlen; simpl.
  { intros [= <-]. split; [lia|done]. }
  destruct (output_arcs _ _ _ _) as [ofst1| | |] eqn:Hrow; try done.
  cbn [mbind res_bind]. intros Hrest. simpl in Hlen.
  apply output_arcs_length in Hrow as [Hlen1 Hstart1]; [|done|lia].
  apply IH in Hrest as [Hlen2 Hstart2]; [|lia|lia].
  split; [|congruence].
  rewrite Hlen2, Hlen1, sum_list_with_app. lia.
Qed.

(** X23.  The expanded output has the output states of the determinizer
    as its first states, with state 0 as its start state, and after them
    the states of the chains that carry the strings: as many as its
    labels for the string of a final weight, and one less than its labels
    for the string of a transition. *)
Theorem Output_number_of_states det (ofst : Fst.t W) destroy ofst' det' :
  output_arcs_ det ≠ [] →
  Output det ofst destroy = Done (ofst', det') →
  Fst.start ofst' = 0%Z
  ∧ Fst.NumStates ofst'
    = length (output_arcs_ det)
      + sum_list_with
          (chain_length
             (repository_ (if destroy then FreeMostMemory det else det)))
          (concat (output_arcs_ det)).
Proof.
  intros Hne. rewrite Output_unfold by done.
  destruct (output_states _ _ _ _) as [ofst1| | |] eqn:Hout; try done.
  cbn [mbind res_bind]. intros [= <- _].
  apply output_states_length in Hout as [Hlen Hstart];
    simpl; rewrite ?length_replicate; try lia.
  simpl in Hlen, Hstart. rewrite length_replicate in Hlen. done.
Qed.

End CompactShape.

Lemma Output_compact_one_state_per_row_witness :
  ∃ cofst' det',
    Output_compact MoreExamples.looping_det (Fst.mk kNoStateId []) false
    = Done (cofst', det')
    ∧ Fst.start cofst' = 0%Z
    ∧ Fst.NumStates cofst' = length (output_arcs_ MoreExamples.looping_det)
    ∧ ∀ s row, output_arcs_ MoreExamples.looping_det !! s = Some row →
        ∃ st, Fst.states cofst' !! s = Some st
              ∧ compact_state_of (repository_ MoreExamples.looping_det) row st.
Proof.
  eexists _, _. split; [vm_compute; reflexivity|].
  eapply (Output_compact_one_state_per_row MoreExamples.looping_det
            (Fst.mk kNoStateId []) false).
  - discriminate.
  - vm_compute; reflexivity.
Defined.

Lemma Output_number_of_states_witness :
  ∃ ofst' det',
    Output MoreExamples.looping_det (Fst.mk kNoStateId []) false = Done (ofst', det')
    ∧ Fst.start ofst' = 0%Z
    ∧ Fst.NumStates ofst'
      = length (output_arcs_ MoreExamples.looping_det)
        + sum_list_with (chain_length (repository_ MoreExamples.looping_det))
                        (concat (output_arcs_ MoreExamples.looping_det)).
Proof.
  eexists _, _. split; [vm_compute; reflexivity|].
  eapply (Output_number_of_states MoreExamples.looping_det
            (Fst.mk kNoStateId []) false).
  - discriminate.
  - vm_compute; reflexivity.
Defined.

Section ResultFacts.
Context {W : Type} `{!WeightOps W}.
Variable ifst_ : Fst.t W.
Variable sorted : bool.
Variable fuel : nat.
Variable uninitialized : StateId → Label → StringId.
Implicit Types (det : Det W) (row : list (TempArc.t W))
  (rows : list (list (TempArc.t W))) (r : Repo)
  (l : list (Label * Element.t W)) (p q : Label * Element.t W).

(** *** The result of DeterminizeLattice *)

Lemma no_output_labels_alter {A} (f : Fst.t A) g n :
  (∀ st, Forall (λ a, Arc.olabel a = 0%Z) (Fst.arcs st) →
         Forall (λ a, Arc.olabel a = 0%Z) (Fst.arcs (g st))) →
  no_output_labels f →
  no_output_labels (Fst.mk (Fst.start f) (alter g n (Fst.states f))).
Proof.
  intros Hg Hf. unfold no_output_labels; simpl.
  apply Forall_alter; [done|]. intros st _. apply Hg.
Qed.

Lemma output_arcs_null (ofst : Fst.t W) s row ofst' :
  output_arcs [] ofst s row = Done ofst' →
  no_output_labels ofst →
  no_output_labels ofst'
  ∧ Forall (λ t, TempArc.string t = 0) row
  ∧ length (Fst.states ofst') = length (Fst.states ofst).
Proof.
  revert ofst. induction row as [|t row IH]; intros ofst; simpl.
  { by intros [= <-]. }
  destruct (TempArc.string t) as [|h] eqn:Hstr; [|done]. simpl.
  intros Hrest Hno. apply IH in Hrest as (Hno' & Hrow & Hlen).
  - split_and!; [done|by constructor|].
    rewrite Hlen. unfold output_temp_arc. simpl.
    case_decide; simpl; by rewrite length_alter.
  - unfold output_temp_arc. simpl. case_decide.
    + apply no_output_labels_alter; [|done]. by intros st.
    + apply no_output_labels_alter; [|done]. intros st Hst. simpl.
      apply Forall_app. split; [done|]. by repeat constructor.
Qed.

Lemma output_states_null (ofst : Fst.t W) s rows ofst' :
  output_states [] ofst s rows = Done ofst' →
  no_output_labels ofst →
  no_output_labels ofst'
  ∧ strings_null rows
  ∧ length (Fst.states ofst') = length (Fst.states ofst).
Proof.
  revert ofst s. induction rows as [|row rows IH]; intros ofst s; simpl.
  { intros [= <-] Hno. split_and!; try done. constructor. }
  destruct (output_arcs _ _ _ _) as [ofst1| | |] eqn:Hrow; try done.
  cbn [mbind res_bind]. intros Hrest Hno.
  apply output_arcs_null in Hrow as (Hno1 & Hrow & Hlen1); [|done].
  apply IH in Hrest as (Hno2 & Hrows & Hlen2); [|done].
  split_and!; [done|by constructor|congruence].
Qed.

(** X24.  When [DeterminizeLattice] returns, no string was left on any
    arc or final weight of the determinizer, the result has no state
    besides the output states of the determinizer, and no arc of the
    result has an output label. *)
Theorem DeterminizeLattice_result_has_no_output_labels (ofst ofst' : Fst.t W) :
  DeterminizeLattice ifst_ sorted fuel uninitialized ofst = Done ofst' →
  no_output_labels ofst'
  ∧ ∃ det,
      LatticeDeterminizer ifst_ sorted fuel uninitialized = Done det
      ∧ strings_null (output_arcs_ det)
      ∧ Fst.NumStates ofst' = length (output_arcs_ det).
Proof.
  unfold DeterminizeLattice.
  destruct (LatticeDeterminizer _ _ _ _) as [det| | |]; try done.
  cbn [mbind res_bind].
  destruct (decide (output_arcs_ det = [])) as [Hnil|Hne].
  { unfold Output. rewrite Hnil. simpl. intros [= <-].
    split; [constructor|]. exists det. rewrite Hnil.
    split_and!; [done|constructor|done]. }
  rewrite Output_unfold by done.
  change (repository_ (FreeMostMemory det)) with (@nil Entry).
  destruct (output_states _ _ _ _) as [ofst1| | |] eqn:Hout; try done.
  cbn [mbind res_bind]. intros [= <-].
  apply output_states_null in Hout as (Hno & Hnull & Hlen).
  - split; [done|]. exists det. split_and!; [done|done|].
    unfold Fst.NumStates. rewrite Hlen. simpl. by rewrite length_replicate.
  - unfold no_output_labels. simpl. apply Forall_replicate. constructor.
Qed.

(** *** The ranges of ProcessTransitions *)

Lemma PairComparator_pair_le p q : PairComparator q p = false ↔ pair_le p q.
Proof.
  unfold PairComparator, pair_le.
  repeat case_decide; rewrite ?bool_decide_eq_false;
    split; intros; done || lia.
Qed.

Lemma sort_insert_Permutation p l : sort_insert p l ≡ₚ p :: l.
Proof.
  induction l as [|q l IH]; simpl; [done|].
  destruct (PairComparator q p); [|done].
  rewrite IH. apply Permutation_swap.
Qed.

Lemma sort_pairs_Permutation l : sort_pairs l ≡ₚ l.
Proof.
  induction l as [|p l IH]; simpl; [done|].
  rewrite sort_insert_Permutation. by constructor.
Qed.

Lemma sort_insert_pair_le p l :
  Sorted pair_le l → Sorted pair_le (sort_insert p l).
Proof.
  induction l as [|q l IH]; simpl; intros Hs; [by repeat constructor|].
  destruct (PairComparator q p) eqn:Hqp.
  - apply Sorted_inv in Hs as [Hs Hhd]. constructor; [by apply IH|].
    assert (pair_le q p) as Hle.
    { unfold PairComparator, pair_le in *. repeat case_decide; try done.
      - by left.
      - apply bool_decide_eq_true in Hqp. right. lia. }
    destruct l as [|q' l]; simpl; [by constructor|].
    destruct (PairComparator q' p); constructor; [|done].
    by apply HdRel_inv in Hhd.
  - constructor; [done|]. constructor. by apply PairComparator_pair_le.
Qed.

Lemma sort_pairs_pair_le l : Sorted pair_le (sort_pairs l).
Proof.
  induction l as [|p l IH]; simpl; [constructor|].
  by apply sort_insert_pair_le.
Qed.

Lemma label_runs_flatten l : runs_flatten (label_runs l) = l.
Proof.
  unfold runs_flatten. induction l as [|[ilabel e] l IH]; simpl; [done|].
  destruct (label_runs l) as [|[ilabel' es] runs]; simpl in *.
  - by rewrite <-IH.
  - case_decide as Hl; simpl; rewrite <-IH; [by subst|done].
Qed.

Lemma label_runs_first l ilabel e es runs :
  label_runs l = (ilabel, e :: es) :: runs →
  ∃ l', l = (ilabel, e) :: l'.
Proof.
  intros Hruns. pose proof (label_runs_flatten l) as Hfl.
  rewrite Hruns in Hfl. unfold runs_flatten in Hfl. simpl in Hfl.
  rewrite <-Hfl. eauto.
Qed.

Lemma label_runs_state_sorted l :
  Sorted pair_le l →
  Forall (λ run, run.2 ≠ [] ∧ Sorted state_le run.2) (label_runs l).
Proof.
  induction l as [|[ilabel e] l IH]; simpl; intros Hs; [constructor|].
  apply Sorted_inv in Hs as [Hs Hhd]. specialize (IH Hs).
  destruct (label_runs l) as [|[ilabel' es] runs] eqn:Hruns.
  { constructor; [|done]. split; [done|]. by repeat constructor. }
  apply Forall_cons in IH as [[Hne Hes] IH]. simpl in *.
  case_decide as Hl.
  - constructor; [|done]. split; [done|]. simpl. constructor; [done|].
    destruct es as [|e' es]; [done|].
    apply label_runs_first in Hruns as [l' ->].
    apply HdRel_inv in Hhd. constructor.
    unfold pair_le, state_le in *. simpl in *. lia.
  - constructor; [|by constructor]. split; [done|]. by repeat constructor.
Qed.

(** X25.  [ProcessTransitions] calls [ProcessTransition] once for every
    input label among the candidates, in increasing order of the labels:
    the ranges it forms after sorting hold all the candidates, each range
    the candidates of one label, and each range is not empty and is sorted
    on state, as [MakeSubsetUnique] asks. *)
Theorem ProcessTransitions_ranges l :
  runs_flatten (label_runs (sort_pairs l)) ≡ₚ l
  ∧ Sorted Z.lt (label_runs (sort_pairs l)).*1
  ∧ Forall (λ run, run.2 ≠ [] ∧ Sorted state_le run.2)
           (label_runs (sort_pairs l)).
Proof.
  split_and!.
  - rewrite label_runs_flatten. apply sort_pairs_Permutation.
  - apply label_runs_sorted, sort_pairs_sorted.
  - apply label_runs_state_sorted, sort_pairs_pair_le.
Qed.

(** X26.  [PairComparator] is a strict weak ordering, as [std::sort]
    requires of its comparison: no pair is before itself, the order is
    transitive, and so is being unordered. *)
Theorem PairComparator_strict_weak_order :
  (∀ p, PairComparator p p = false)
  ∧ (∀ p q t, PairComparator p q = true → PairComparator q t = true →
              PairComparator p t = true)
  ∧ (∀ p q t,
       PairComparator p q = false → PairComparator q p = false →
       PairComparator q t = false → PairComparator t q = false →
       PairComparator p t = false ∧ PairComparator t p = false).
Proof.
  unfold PairComparator. split_and!.
  - intros p. repeat case_decide; rewrite ?bool_decide_eq_false; lia.
  - intros p q t.
    repeat case_decide; rewrite ?bool_decide_eq_true; intros; done || lia.
  - intros p q t.
    repeat case_decide; rewrite ?bool_decide_eq_false; intros; done || lia.
Qed.

(** *** The candidates of ProcessTransitions *)

Lemma candidate_of_suffix r r' v w arc p :
  r `suffix_of` r' → candidate_of r v w arc p → candidate_of r' v w arc p.
Proof.
  intros Hsuf (? & ? & ? & Hstr). split_and!; try done.
  by eapply ConvertToVector_suffix.
Qed.

Lemma collect_arcs_spec r (elem : Element.t W) v arcs :
  repo_wf r → ConvertToVector r (Element.string elem) = Some v →
  repo_wf (collect_arcs r elem arcs).2
  ∧ r `suffix_of` (collect_arcs r elem arcs).2
  ∧ Forall2 (candidate_of (collect_arcs r elem arcs).2 v (Element.weight elem))
            (filter emitting arcs) (collect_arcs r elem arcs).1.
Proof.
  revert r. induction arcs as [|arc arcs IH]; intros r Hwf Hv; simpl.
  { split_and!; [done|done|constructor]. }
  destruct (bool_decide (Arc.ilabel arc ≠ 0%Z)
            && bool_decide (Arc.weight arc ≠ Zero)) eqn:Hemit.
  - apply andb_true_iff in Hemit as [Hil%bool_decide_eq_true Hw%bool_decide_eq_true].
    rewrite filter_cons_True by done.
    assert (∃ str r1, next_string r elem arc = (str, r1)
              ∧ repo_wf r1 ∧ r `suffix_of` r1
              ∧ ConvertToVector r1 str
                = Some (v ++ if decide (Arc.olabel arc = 0%Z) then []
                             else [Arc.olabel arc]))
      as (str & r1 & -> & Hwf1 & Hsuf1 & Hstr).
    { unfold next_string. case_decide.
      - eexists _, _. split; [done|]. by rewrite app_nil_r.
      - eexists _, _. split; [apply surjective_pairing|]. split_and!.
        + apply Successor_wf; [done|]. by eapply ConvertToVector_alive.
        + apply Successor_suffix.
        + by apply Successor_vector. }
    destruct (IH r1 Hwf1) as (Hwf2 & Hsuf2 & Hall).
    { by eapply ConvertToVector_suffix. }
    destruct (collect_arcs r1 elem arcs) as [more r2]. simpl in *.
    split_and!; [done|by etrans|]. constructor; [|done].
    split_and!; try done. by eapply ConvertToVector_suffix.
  - rewrite filter_cons_False; [by apply IH|].
    intros [Hil Hw]. apply andb_false_iff in Hemit as [Hf|Hf];
      by apply bool_decide_eq_false in Hf.
Qed.

(** X27.  The candidates that [ProcessTransitions] collects are, in
    order, one for every arc of every element of the subset that has an
    input label and a weight other than [Zero]: a candidate carries the
    input label of its arc, leads where the arc leads, weighs the weight
    of the element times that of the arc, and its string reads as the
    sequence of the element followed by the output label of the arc, when
    the arc has one. *)
Theorem collect_elems_candidates r subset vs :
  repo_wf r → strings_are r subset vs →
  repo_wf (collect_elems ifst_ r subset).2
  ∧ r `suffix_of` (collect_elems ifst_ r subset).2
  ∧ Forall2 (λ eva p, candidate_of (collect_elems ifst_ r subset).2
                        eva.1.2 (Element.weight eva.1.1) eva.2 p)
      (zip subset vs ≫= λ ev,
         (ev,.) <$> filter emitting (Fst.Arcs ifst_ (Element.state ev.1)))
      (collect_elems ifst_ r subset).1.
Proof.
  intros Hwf Hvs. revert r vs Hwf Hvs.
  induction subset as [|elem subset IH]; intros r vs Hwf Hvs; simpl.
  { split_and!; [done|done|]. destruct vs; constructor. }
  destruct vs as [|v vs']; [by inversion Hvs|].
  unfold strings_are in Hvs. apply Forall2_cons in Hvs as [Hv Hvs']. simpl.
  destruct (collect_arcs_spec r elem v (Fst.Arcs ifst_ (Element.state elem))
              Hwf Hv) as (Hwf1 & Hsuf1 & Hhere).
  destruct (collect_arcs r elem _) as [here r1]. simpl in *.
  destruct (IH r1 vs' Hwf1) as (Hwf2 & Hsuf2 & Hmore).
  { by eapply strings_are_suffix. }
  destruct (collect_elems ifst_ r1 subset) as [more r2]. simpl in *.
  split_and!; [done|by etrans|].
  apply Forall2_app; [|done].
  apply Forall2_fmap_l. eapply Forall2_impl; [exact Hhere|].
  intros arc p Hc. simpl. by eapply candidate_of_suffix.
Qed.

(** *** ProcessFinal *)

Lemma final_loop_sound r elems is_final str w b str' w' :
  final_loop ifst_ r elems is_final str w = Done (b, str', w') →
  (b = is_final ∧ str' = str ∧ w' = w)
  ∨ (b = true
     ∧ ∃ elem, elem ∈ elems
         ∧ Fst.Final Zero ifst_ (Element.state elem) ≠ Zero
         ∧ w' = Fst.Final Zero ifst_ (Element.state elem)
         ∧ str' = Element.string elem).
Proof.
  revert is_final str w. induction elems as [|elem elems IH];
    intros is_final str w; simpl.
  { intros [= <- <- <-]. by left. }
  assert (∀ is_final str w,
    final_loop ifst_ r elems is_final str w = Done (b, str', w') →
    (b = is_final ∧ str' = str ∧ w' = w)
    ∨ (b = true
       ∧ ∃ elem', elem' ∈ elem :: elems
           ∧ Fst.Final Zero ifst_ (Element.state elem') ≠ Zero
           ∧ w' = Fst.Final Zero ifst_ (Element.state elem')
           ∧ str' = Element.string elem')) as IH'.
  { intros b0 s0 w0 Hl. destruct (IH _ _ _ Hl) as [?|(-> & e & ? & ?)];
      [by left|].
    right. split; [done|]. exists e. split; [|done].
    by apply list_elem_of_further. }
  destruct (decide (Fst.Final Zero ifst_ (Element.state elem) ≠ Zero))
    as [Hfin|Hfin]; [|by apply IH'].
  destruct (ComparePair _ _ _ _ _) as [comp| | |]; try done.
  cbn [mbind res_bind]. case_decide; [|by apply IH'].
  intros Hl. right. destruct (IH' _ _ _ Hl) as [(-> & -> & ->)|[-> ?]];
    [|done].
  split; [done|]. exists elem. split_and!; try done. apply list_elem_of_here.
Qed.

(** X28.  [ProcessFinal] changes nothing, or it adds one final weight to
    the row of the state: the final weight that the input automaton gives
    to the state of some element of the subset, as it is, with the string
    of that element.  When no state of the subset is final, it changes
    nothing. *)
Theorem ProcessFinal_records_a_final_weight det s det' :
  ProcessFinal ifst_ det s = Done det' →
  (det' = det
   ∨ ∃ subset elem,
       output_states_ det !! Z.to_nat s = Some subset
       ∧ elem ∈ subset
       ∧ Fst.Final Zero ifst_ (Element.state elem) ≠ Zero
       ∧ push_arc det s
           (TempArc.mk 0%Z (Element.string elem) kNoStateId
                       (Fst.Final Zero ifst_ (Element.state elem)))
         = Done det')
  ∧ (∀ subset, output_states_ det !! Z.to_nat s = Some subset →
       Forall (λ e, Fst.Final Zero ifst_ (Element.state e) = Zero) subset →
       det' = det).
Proof.
  unfold ProcessFinal.
  destruct (output_states_ det !! Z.to_nat s) as [subset|] eqn:Hsub; [|done].
  cbn [deref mbind res_bind].
  destruct (final_loop _ _ _ _ _ _) as [[[is_final str] w]| | |] eqn:Hloop;
    try done.
  cbn [mbind res_bind].
  apply final_loop_sound in Hloop
    as [(-> & -> & ->)|(-> & elem & He & Hfin & -> & ->)].
  - intros [= <-]. split; [by left|done].
  - intros Hpush. split.
    + right. by exists subset, elem.
    + intros ? [= <-] Hall. rewrite Forall_forall in Hall.
      by destruct Hfin; apply Hall.
Qed.

End ResultFacts.

Lemma DeterminizeLattice_result_has_no_output_labels_witness :
  ∃ ofst',
    DeterminizeLattice MoreExamples.silent_arc false 4 Examples.no_string
                       (Fst.mk kNoStateId []) = Done ofst'
    ∧ Fst.Arcs ofst' 0 = [Arc.mk 1 0 (Tropical.Cost 2) 0]
    ∧ no_output_labels ofst'
    ∧ ∃ det,
        LatticeDeterminizer MoreExamples.silent_arc false 4 Examples.no_string
        = Done det
        ∧ strings_null (output_arcs_ det)
        ∧ Fst.NumStates ofst' = length (output_arcs_ det).
Proof.
  eexists. split; [vm_compute; reflexivity|]. split; [reflexivity|].
  apply (DeterminizeLattice_result_has_no_output_labels MoreExamples.silent_arc
           false 4 Examples.no_string (Fst.mk kNoStateId [])).
  vm_compute; reflexivity.
Defined.

Lemma collect_elems_candidates_witness :
  repo_wf (collect_elems Inputs.two_paths Examples.repo4 Examples.subset2).2
  ∧ Examples.repo4
      `suffix_of` (collect_elems Inputs.two_paths Examples.repo4
                                 Examples.subset2).2
  ∧ Forall2
      (λ eva p,
         candidate_of
           (collect_elems Inputs.two_paths Examples.repo4 Examples.subset2).2
           eva.1.2 (Element.weight eva.1.1) eva.2 p)
      (zip Examples.subset2 [[1; 2; 3]; [1; 2; 4]]%Z ≫= λ ev,
         (ev,.) <$> filter emitting
                      (Fst.Arcs Inputs.two_paths (Element.state ev.1)))
      (collect_elems Inputs.two_paths Examples.repo4 Examples.subset2).1.
Proof.
  apply (collect_elems_candidates Inputs.two_paths Examples.repo4
           Examples.subset2 [[1; 2; 3]; [1; 2; 4]]%Z).
  - exact repo4_wf.
  - repeat constructor.
Defined.

Lemma ProcessFinal_records_a_final_weight_witness :
  ∃ det',
    ProcessFinal Inputs.self_loop MoreExamples.final_det 0 = Done det'
    ∧ output_arcs_ det' = [[TempArc.mk 0 1 kNoStateId (Tropical.Cost 0)]]
    ∧ (det' = MoreExamples.final_det
       ∨ ∃ subset elem,
           output_states_ MoreExamples.final_det !! Z.to_nat 0 = Some subset
           ∧ elem ∈ subset
           ∧ Fst.Final Zero Inputs.self_loop (Element.state elem) ≠ Zero
           ∧ push_arc MoreExamples.final_det 0
               (TempArc.mk 0%Z (Element.string elem) kNoStateId
                  (Fst.Final Zero Inputs.self_loop (Element.state elem)))
             = Done det')
    ∧ (∀ subset,
         output_states_ MoreExamples.final_det !! Z.to_nat 0 = Some subset →
         Forall (λ e, Fst.Final Zero Inputs.self_loop (Element.state e) = Zero)
                subset →
         det' = MoreExamples.final_det).
Proof.
  eexists. split; [vm_compute; reflexivity|]. split; [reflexivity|].
  apply (ProcessFinal_records_a_final_weight Inputs.self_loop
           MoreExamples.final_det 0).
  vm_compute; reflexivity.
Defined.

Section EmptyResult.
Context {W : Type} `{!WeightOps W}.
Variable ifst_ : Fst.t W.
Variable sorted : bool.
Variable uninitialized : StateId → Label → StringId.
Implicit Types (det : Det W) (r : Repo) (subset : list (Element.t W)).

Lemma filter_without_output_labels subset :
  Forall (λ e, has_output_label ifst_ (Element.state e) = false) subset →
  filter (λ e, has_output_label ifst_ (Element.state e)) subset = [].
Proof.
  induction 1 as [|e subset He _ IH]; [done|].
  rewrite filter_cons_False by (rewrite He; intros []). done.
Qed.

(** X29.  When no state in the epsilon closure of the start state has an
    arc with an output label, the determinizer ends with one output state
    that has the empty subset, no final weight and no transition; what
    [DeterminizeLattice] returns is then one state that is not final and
    has no arcs, whatever the input automaton accepts. *)
Theorem start_without_output_labels_gives_one_dead_state (n : nat) r subset :
  Fst.start ifst_ ≠ kNoStateId →
  EpsilonClosure ifst_ sorted (S n) []
    [Element.mk (Fst.start ifst_) EmptyString One] = Done (r, subset) →
  Forall (λ e, (0 ≤ Element.state e)%Z
               ∧ has_output_label ifst_ (Element.state e) = false) subset →
  (∃ det,
     LatticeDeterminizer ifst_ sorted (S n) uninitialized = Done det
     ∧ output_states_ det = [[]] ∧ output_arcs_ det = [[]])
  ∧ ∀ ofst,
      DeterminizeLattice ifst_ sorted (S n) uninitialized ofst
      = Done (Fst.mk 0%Z [Fst.mkState Zero []]).
Proof.
  intros Hstart Hclosure Hall.
  assert (subset ≠ []) as Hne.
  { apply EpsilonClosure_spec in Hclosure as (_ & Hreach & _).
    intros ->. specialize (Hreach (Fst.start ifst_)).
    destruct Hreach as [_ Hreach].
    eapply elem_of_nil, Hreach, eps_reach_here, list_elem_of_here. }
  destruct (ConvertToMinimal_keeps_output_labelled ifst_ [] subset Hne)
    as (cache' & Hmin & _).
  { eapply Forall_impl; [done|]. by intros e []. }
  { intros k c Hk. by rewrite lookup_nil in Hk. }
  rewrite filter_without_output_labels in Hmin
    by (eapply Forall_impl; [done|]; by intros e []).
  assert (LatticeDeterminizer ifst_ sorted (S n) uninitialized
          = Done (mkDet r [[]] [[]] [([], 0%Z)] [] [] cache')) as Hdet.
  { unfold LatticeDeterminizer, Initialize.
    rewrite decide_True by done. cbn [repository_ empty_det].
    rewrite Hclosure. cbn [mbind res_bind osymbol_or_final_ empty_det].
    rewrite Hmin. cbn. by destruct n. }
  split.
  - eexists. by split_and!.
  - intros ofst. unfold DeterminizeLattice. rewrite Hdet.
    cbn [mbind res_bind]. done.
Qed.

End EmptyResult.

Lemma start_without_output_labels_gives_one_dead_state_witness :
  (∃ det,
     LatticeDeterminizer Inputs.final_only false 1 Examples.no_string
     = Done det
     ∧ output_states_ det = [[]] ∧ output_arcs_ det = [[]])
  ∧ ∀ ofst,
      DeterminizeLattice Inputs.final_only false 1 Examples.no_string ofst
      = Done (Fst.mk 0%Z [Fst.mkState Zero []]).
Proof.
  apply (start_without_output_labels_gives_one_dead_state Inputs.final_only
           false Examples.no_string 0 [] [Inputs.start_elem]).
  - discriminate.
  - vm_compute; reflexivity.
  - repeat constructor. simpl. lia.
Defined.

(** * The epsilon closure on cycles *)

(** ** Termination of [EpsilonClosure] *)


Lemma list_step_length {A} (R : relation A) l' l :
  list_step R l' l → length l' = length l.
Proof. induction 1; simpl; congruence. Qed.

Lemma tc_list_step_length {A} (R : relation A) l' l :
  tc (list_step R) l' l → length l' = length l.
Proof.
  induction 1 as [?? H|??? H _ IH].
  - by apply list_step_length in H.
  - apply list_step_length in H. congruence.
Qed.


Section VectorOrder.
Implicit Types (a b c : list Z).






End VectorOrder.

Section RankFacts.
Context {W : Type} `{!WeightOps W}.
Variable r : Repo.
Variable strs : list StringId.
Implicit Types (a b h : StringId) (e : Element.t W).







End RankFacts.

Section TerminationFacts.
Context {W : Type} `{!WeightOps W}.
Variable ifst_ : Fst.t W.
Variable sorted : bool.
Implicit Types (r : Repo) (e x elem : Element.t W)
  (cur queue subset : list (Element.t W)) (arcs : list (Arc.t W)).









Section Loop.
Variable r : Repo.
Variable strs : list StringId.
Variable univ from : list StateId.




End Loop.


End TerminationFacts.

Section Divergence.
Context {W : Type} `{!WeightOps W}.



End Divergence.




Section Claim.
Context {W : Type} `{!WeightOps W}.
Variable ifst_ : Fst.t W.
Variable sorted : bool.


End Claim.


